(** * Motorized focus rail: motion control and burst sequencing

    A shallow embedding of the three revisions of the focus-rail server
    ([main-v2.py], [main-v3.py], [main-v4.py]): the stepper-motor move loops,
    the emergency-stop flag, the trapezoidal speed profile, the burst position
    plan, the burst progress bookkeeping and the allocation of burst
    directories; then the requests served beside a move, the names of the
    image files, the burst of revision 4 and the SLEEP pin of the driver.

    Conventions.
    - Python [int] is [Z].  Python [float] is idealised as an exact rational
      ([Q]): [a / b] is the exact quotient, [int(x)] truncates toward zero and
      [round(x)] rounds to the nearest integer with ties to the even one.
      Module [Binary64] evaluates the same expressions on IEEE doubles; the
      concrete values quoted in the claims come from it.
    - A move loop is a small machine: one [Motor] tick runs the loop up to its
      next program point, one [Stop] tick is the emergency-stop request of
      another thread.  A schedule (a list of ticks) fixes the interleaving.
    - The file system is the finite set of names that exist in the working
      directory. *)

From stdpp Require Import gmap strings.
From Stdlib Require Import ZArith QArith Qround Qminmax Qabs List Lia Lqa.
From Stdlib Require Import Ascii String DecimalString DecimalNat.
From Stdlib Require Floats Uint63.
Import ListNotations.
Open Scope Z_scope.

(** ** Python values and exceptions *)

Inductive exn : Type :=
| ZeroDivisionError
| ValueError
| TypeError
| CaptureError.   (* whatever the camera driver raises *)

(** The outcome of an expression or a call: a value or an exception.  A
    model loop that runs on fuel returns an [option] of it, [None] when the
    fuel ran out (shown below not to happen). *)
Inductive result (A : Type) : Type :=
| Ok (a : A)
| Raise (e : exn).
Arguments Ok {A} a.
Arguments Raise {A} e.

Definition bind {A B : Type} (r : result A) (k : A -> result B) : result B :=
  match r with
  | Ok a => k a
  | Raise e => Raise e
  end.

Notation "'let*' x ':=' r 'in' k" := (bind r (fun x => k))
  (at level 10, x name, r at level 100, k at level 200).

(** [a / b] on numbers: raises on a zero divisor. *)
Definition py_truediv (a b : Q) : result Q :=
  if Qeq_bool b 0 then Raise ZeroDivisionError else Ok (a / b)%Q.

(** [int(x)]: truncation toward zero. *)
Definition py_int (x : Q) : Z :=
  if Qle_bool 0 x then Qfloor x else Qceiling x.

(** [round(x)]: nearest integer, a tie goes to the even neighbour. *)
Definition py_round (x : Q) : Z :=
  let f := Qfloor x in
  match (x - inject_Z f ?= (1 # 2))%Q with
  | Lt => f
  | Gt => f + 1
  | Eq => if Z.even f then f else f + 1
  end.

(** [max(a, b)] on numbers. *)
Definition py_max (a b : Q) : Q := if Qle_bool a b then b else a.

(** Rounding half away from zero, the policy the specification names. *)
Definition round_half_away (x : Q) : Z :=
  if Qle_bool 0 x then Qfloor (x + (1 # 2)) else Qceiling (x - (1 # 2)).

(** ** Traces and schedules *)

Inductive event : Type :=
| EvPulse   (* one pulse on the STEP pin *)
| EvStop.   (* the emergency stop was requested *)

Inductive tick : Type :=
| Motor     (* the move thread runs to its next program point *)
| Stop.     (* another thread calls the emergency stop *)

Fixpoint pulses (tr : list event) : nat :=
  match tr with
  | [] => 0
  | EvPulse :: tr' => S (pulses tr')
  | EvStop :: tr' => pulses tr'
  end.

(** Pulses emitted after the first emergency-stop request. *)
Fixpoint pulses_after_stop (tr : list event) : nat :=
  match tr with
  | [] => 0
  | EvPulse :: tr' => pulses_after_stop tr'
  | EvStop :: tr' => pulses tr'
  end.

Fixpoint stop_free (sched : list tick) : bool :=
  match sched with
  | [] => true
  | Motor :: s => stop_free s
  | Stop :: _ => false
  end.

Section Machine.
Context {config : Type}.
Variable motor_step : config -> config * list event.
Variable env_stop : config -> config.

Fixpoint exec (sched : list tick) (c : config) : config * list event :=
  match sched with
  | [] => (c, [])
  | Motor :: s =>
      let (c1, ev) := motor_step c in
      let (c2, tr) := exec s c1 in
      (c2, ev ++ tr)
  | Stop :: s =>
      let (c2, tr) := exec s (env_stop c) in
      (c2, EvStop :: tr)
  end.

Definition final (sched : list tick) (c : config) : config :=
  fst (exec sched c).

Definition trace (sched : list tick) (c : config) : list event :=
  snd (exec sched c).
End Machine.

(** [time.sleep(secs)]: refuses a negative length. *)
Definition py_sleep (secs : Q) : result unit :=
  if Qle_bool 0 secs then Ok tt else Raise ValueError.

(** [range(n)] as the list of its indices. *)
Definition py_range (n : Z) : list Z :=
  map Z.of_nat (seq 0 (Z.to_nat n)).

(** Run [body] on the elements in order; stop at the first exception. *)
Fixpoint traverse {A B : Type} (body : A -> result B) (l : list A)
  : result (list B) :=
  match l with
  | [] => Ok []
  | a :: l' =>
      let* b := body a in
      let* bs := traverse body l' in
      Ok (b :: bs)
  end.

(** ** Burst directories

    [f"burst_{n:03d}"]: the decimal digits of [n], padded with zeros on the
    left to a width of at least three. *)

Fixpoint zeros (k : nat) : string :=
  match k with
  | O => EmptyString
  | S k' => String "0"%char (zeros k')
  end.

Definition zfill (width : nat) (s : string) : string :=
  (zeros (width - String.length s) +:+ s)%string.

Definition format_03d (n : nat) : string :=
  zfill 3 (NilEmpty.string_of_uint (Nat.to_uint n)).

Definition burst_name (n : nat) : string :=
  ("burst_" +:+ format_03d n)%string.

(** [os.path.exists(name)] on the working directory. *)
Definition path_exists (fs : gset string) (name : string) : bool :=
  bool_decide (name ∈ fs).

(** [os.makedirs(name)]. *)
Definition makedirs (fs : gset string) (name : string) : gset string :=
  {[ name ]} ∪ fs.

(** [while os.path.exists(f"burst_{burst_num:03d}"): burst_num += 1],
    at most [fuel] tests of the condition. *)
Fixpoint find_burst_num (fuel : nat) (fs : gset string) (burst_num : nat)
  : option nat :=
  match fuel with
  | O => None
  | S fuel' =>
      if path_exists fs (burst_name burst_num)
      then find_burst_num fuel' fs (S burst_num)
      else Some burst_num
  end.

(** The loop with the fuel it can need: one test per existing name, and one
    more. *)
Definition next_burst_num (fs : gset string) (burst_num : nat) : option nat :=
  find_burst_num (S (size fs)) fs burst_num.

(** The search from [burst_num], then [os.makedirs] of the name found: the
    number, the name and the directory afterwards. *)
Definition allocate_dir (fs : gset string) (burst_num : nat)
  : option (nat * string * gset string) :=
  match next_burst_num fs burst_num with
  | Some k => Some (k, burst_name k, makedirs fs (burst_name k))
  | None => None
  end.

(** ** Image files

    [f"burst_{pos:04d}.jpeg"]: the decimal digits of [pos] behind its sign,
    padded with zeros to a width of at least four characters, the sign
    included ([-5] gives [-005]). *)

Definition digits (n : nat) : string :=
  NilEmpty.string_of_uint (Nat.to_uint n).

Definition format_04d (z : Z) : string :=
  if z <? 0 then String "-"%char (zfill 3 (digits (Z.to_nat (- z))))
  else zfill 4 (digits (Z.to_nat z)).

(** [f"{burst_dir}/burst_{pos:04d}.jpeg"] (revisions 3 and 4), which is also
    [os.path.join(burst_dir, f"burst_{pos:04d}.jpeg")] (revision 2) for a
    directory name that does not end in a slash. *)
Definition image_name (burst_dir : string) (pos : Z) : string :=
  (burst_dir +:+ "/burst_" +:+ format_04d pos +:+ ".jpeg")%string.

(** ** The pins of the motor driver

    The level of the DIR pin and of the SLEEP pin ([true] is HIGH; the
    driver is awake while SLEEP is HIGH).  The STEP pin is the pulses of the
    trace. *)
Record pins : Type := mkPins {
  dir_pin : bool;
  sleep_pin : bool
}.

(** ** Revision 2: blocking move loop ([main-v2.py]) *)

Module V2.

Inductive MotorState : Type :=
| IDLE
| MOVING
| EMERGENCY_STOP
| BURST.

Definition MotorState_eqb (a b : MotorState) : bool :=
  match a, b with
  | IDLE, IDLE | MOVING, MOVING
  | EMERGENCY_STOP, EMERGENCY_STOP | BURST, BURST => true
  | _, _ => false
  end.

(** The global [motor_status]; [burst_progress] is the attribute the burst
    code attaches to it (read with default 0). *)
Record MotorStatus : Type := mkStatus {
  position : Z;
  target_position : Z;
  state : MotorState;
  burst_progress : Q
}.

(** The mutable fields of [StepperMotor]. *)
Record StepperMotor : Type := mkMotor {
  current_position : Z;
  is_moving : bool
}.

(** Program points of [move_to], [move_relative] and [_move_steps];
    [direction] is the level of the DIR pin ([true] = HIGH). *)
Inductive pc : Type :=
| MoveTo (target speed : Z)
| MoveRelative (steps speed : Z)
| MoveSteps (steps speed : Z)
| While (direction : bool) (steps_remaining : Z)
| Check (direction : bool) (steps_remaining : Z)
| Pulse (direction : bool) (steps_remaining : Z)
| Finally (steps_remaining : Z)
| Returned (r : bool)
| Raised (e : exn).

Record config : Type := mkConfig {
  at_pc : pc;
  status : MotorStatus;
  motor : StepperMotor
}.

Definition set_state (s : MotorState) (st : MotorStatus) : MotorStatus :=
  mkStatus (position st) (target_position st) s (burst_progress st).

Definition set_target (t : Z) (st : MotorStatus) : MotorStatus :=
  mkStatus (position st) t (state st) (burst_progress st).

Definition set_position (p : Z) (st : MotorStatus) : MotorStatus :=
  mkStatus p (target_position st) (state st) (burst_progress st).

Definition set_progress (q : Q) (st : MotorStatus) : MotorStatus :=
  mkStatus (position st) (target_position st) (state st) q.

Definition set_moving (b : bool) (m : StepperMotor) : StepperMotor :=
  mkMotor (current_position m) b.

Definition motor_step (c : config) : config * list event :=
  let st := status c in
  let m := motor c in
  match at_pc c with
  | MoveTo target speed =>
      if MotorState_eqb (state st) EMERGENCY_STOP then
        (mkConfig (Returned false) st m, [])
      else
        (mkConfig (MoveSteps (target - current_position m) speed)
           (set_target target (set_state MOVING st)) m, [])
  | MoveRelative steps speed =>
      if MotorState_eqb (state st) EMERGENCY_STOP then
        (mkConfig (Returned false) st m, [])
      else
        (mkConfig (MoveSteps steps speed)
           (set_target (current_position m + steps) (set_state MOVING st)) m, [])
  | MoveSteps steps speed =>
      if steps =? 0 then
        (mkConfig (Returned true) (set_state IDLE st) m, [])
      else if Z.abs speed =? 0 then
        (* step_delay = 1.0 / abs(speed) *)
        (mkConfig (Raised ZeroDivisionError) st m, [])
      else
        (mkConfig (While (0 <? steps) (Z.abs steps)) st (set_moving true m), [])
  | While direction steps_remaining =>
      if (0 <? steps_remaining) && is_moving m then
        (mkConfig (Check direction steps_remaining) st m, [])
      else
        (mkConfig (Finally steps_remaining) st m, [])
  | Check direction steps_remaining =>
      if MotorState_eqb (state st) EMERGENCY_STOP then
        (mkConfig (Finally steps_remaining) st (set_moving false m), [])
      else
        (mkConfig (Pulse direction steps_remaining) st m, [])
  | Pulse direction steps_remaining =>
      let p := if direction then current_position m + 1
               else current_position m - 1 in
      (mkConfig (While direction (steps_remaining - 1))
         (set_position p st) (mkMotor p (is_moving m)), [EvPulse])
  | Finally steps_remaining =>
      let m' := set_moving false m in
      let st' :=
        if MotorState_eqb (state st) EMERGENCY_STOP then st
        else set_target (current_position m)
               (set_position (current_position m) (set_state IDLE st)) in
      (mkConfig (Returned (steps_remaining =? 0)) st' m', [])
  | Returned _ | Raised _ => (c, [])
  end.

(** The body of the method [emergency_stop].  The constructor also stores an
    instance attribute [emergency_stop = False], which shadows the method, so
    the call [motor.emergency_stop()] of the request handler raises TypeError
    before this body runs.  The model lets any thread run the body all the
    same: the loop only reads the state, whoever wrote it, and the extra
    behaviours make the statements about the loop stronger. *)
Definition emergency_stop (c : config) : config :=
  mkConfig (at_pc c) (set_state EMERGENCY_STOP (status c))
    (set_moving false (motor c)).

Definition terminal (c : config) : bool :=
  match at_pc c with
  | Returned _ | Raised _ => true
  | _ => false
  end.

(** Motor ticks that always suffice to reach [Returned] or [Raised]. *)
Definition ticks_left (c : config) : nat :=
  match at_pc c with
  | MoveTo target _ =>
      3 * Z.to_nat (Z.abs (target - current_position (motor c))) + 4
  | MoveRelative steps _ => 3 * Z.to_nat (Z.abs steps) + 4
  | MoveSteps steps _ => 3 * Z.to_nat (Z.abs steps) + 3
  | While _ r => 3 * Z.to_nat r + 2
  | Check _ r => 3 * Z.to_nat (r - 1) + 4
  | Pulse _ r => 3 * Z.to_nat (r - 1) + 3
  | Finally _ => 1
  | Returned _ | Raised _ => 0
  end%nat.

(** A whole call: the ticks of [sched], then the move thread alone. *)
Definition call (sched : list tick) (c : config) : config :=
  final motor_step emergency_stop (sched ++ repeat Motor (ticks_left c)) c.

Definition call_trace (sched : list tick) (c : config) : list event :=
  trace motor_step emergency_stop (sched ++ repeat Motor (ticks_left c)) c.

Definition returned (c : config) : option (result bool) :=
  match at_pc c with
  | Returned r => Some (Ok r)
  | Raised e => Some (Raise e)
  | _ => None
  end.

(** [StreamingOutput]: the burst bookkeeping of the camera sink. *)
Record StreamingOutput : Type := mkOutput {
  burst_mode : bool;
  burst_dir : option string;
  burst_count : Z;
  burst_total : Z
}.

(** [save_burst_image]: one frame arrives while a burst is on.  The effects
    made before an exception stay. *)
Definition save_burst_image (o : StreamingOutput) (st : MotorStatus)
  : StreamingOutput * MotorStatus * result unit :=
  if burst_count o <? burst_total o then
    let o' := mkOutput (burst_mode o) (burst_dir o)
                (burst_count o + 1) (burst_total o) in
    match py_truediv (inject_Z (burst_count o')) (inject_Z (burst_total o')) with
    | Ok q => (o', set_progress (q * inject_Z 100)%Q st, Ok tt)
    | Raise e => (o', st, Raise e)
    end
  else (o, st, Ok tt).

(** [write]: a frame of the video stream. *)
Definition write (o : StreamingOutput) (st : MotorStatus)
  : StreamingOutput * MotorStatus :=
  if burst_mode o && bool_decide (burst_dir o <> None) then
    fst (save_burst_image o st)
  else (o, st).

Fixpoint frames_arrive (k : nat) (o : StreamingOutput) (st : MotorStatus)
  : StreamingOutput * MotorStatus :=
  match k with
  | O => (o, st)
  | S k' => let (o', st') := write o st in frames_arrive k' o' st'
  end.

(** Everything [perform_burst] touches. *)
Record world : Type := mkWorld {
  w_status : MotorStatus;
  w_motor : StepperMotor;
  w_output : StreamingOutput;
  w_fs : gset string;
  burst_counter : nat
}.

(** What the other threads do during a burst: the ticks that interleave with
    the [k]-th move, and the number of frames the camera writes while the
    burst thread sleeps in iteration [k]. *)
Record burst_env : Type := mkEnv {
  move_sched : nat -> list tick;
  frames : nat -> nat
}.

Definition call_move_to (sched : list tick) (target speed : Z) (w : world)
  : option (world * result bool) :=
  let c := call sched (mkConfig (MoveTo target speed) (w_status w) (w_motor w)) in
  match returned c with
  | Some r =>
      Some (mkWorld (status c) (motor c) (w_output w) (w_fs w) (burst_counter w), r)
  | None => None
  end.

(** [int(start + (i * step_increment))]. *)
Definition target_pos (start : Z) (step_increment : Q) (i : Z) : Z :=
  py_int (inject_Z start + inject_Z i * step_increment)%Q.

(** The positions the burst visits, [step_increment] included. *)
Definition positions (start end_ count : Z) : result (list Z) :=
  let* step_increment := py_truediv (inject_Z (end_ - start)) (inject_Z (count - 1)) in
  Ok (map (target_pos start step_increment) (py_range count)).

Fixpoint burst_loop (env : burst_env) (start speed : Z) (step_increment : Q)
  (idx : list Z) (w : world) : option (world * result unit) :=
  match idx with
  | [] => Some (w, Ok tt)
  | i :: rest =>
      if MotorState_eqb (state (w_status w)) EMERGENCY_STOP then Some (w, Ok tt)
      else
        match (if 0 <? i then
                 call_move_to (move_sched env (Z.to_nat i))
                   (target_pos start step_increment i) speed w
               else Some (w, Ok true)) with
        | Some (w1, Ok _) =>
            let (o, st) := frames_arrive (frames env (Z.to_nat i))
                             (w_output w1) (w_status w1) in
            burst_loop env start speed step_increment rest
              (mkWorld st (w_motor w1) o (w_fs w1) (burst_counter w1))
        | Some (w1, Raise e) => Some (w1, Raise e)
        | None => None
        end
  end.

(** The [finally] block of [perform_burst]. *)
Definition burst_finally (w : world) : world :=
  let o := w_output w in
  let st := w_status w in
  let st' := if MotorState_eqb (state st) EMERGENCY_STOP then st
             else set_state IDLE st in
  mkWorld (set_progress 0 st') (w_motor w)
    (mkOutput false None (burst_count o) (burst_total o))
    (w_fs w) (burst_counter w).

(** The [try] block of [perform_burst]. *)
Definition burst_try (env : burst_env) (start count speed : Z)
  (step_increment : Q) (w : world) : option (world * result unit) :=
  match call_move_to (move_sched env 0) start speed w with
  | Some (wa, Ok _) =>
      burst_loop env start speed step_increment (py_range count) wa
  | Some (wa, Raise e) => Some (wa, Raise e)
  | None => None
  end.

Definition perform_burst (env : burst_env) (start end_ count speed : Z)
  (w : world) : option (world * result unit) :=
  match allocate_dir (w_fs w) (burst_counter w) with
  | None => None
  | Some (k, dir, fs) =>
      (* the global burst_counter keeps the number found *)
      let w0 := mkWorld (w_status w) (w_motor w) (w_output w) fs k in
      match py_truediv (inject_Z (end_ - start)) (inject_Z (count - 1)) with
      | Ok step_increment =>
          let w1 := mkWorld (set_state BURST (w_status w0)) (w_motor w0)
                      (mkOutput true (Some dir) 0 count)
                      (w_fs w0) (burst_counter w0) in
          match burst_try env start count speed step_increment w1 with
          | Some (w2, r) => Some (burst_finally w2, r)
          | None => None
          end
      | Raise e => Some (w0, Raise e)
      end
  end.

(** *** Invariants and measures of the move loop, for the proofs *)

(** The move is past its loop. *)
Definition quiet (c : config) : Prop :=
  match at_pc c with
  | Finally _ | Returned _ | Raised _ => True
  | _ => False
  end.

(** A stop request is pending, or the loop is over. *)
Definition stopped (c : config) : Prop :=
  state (status c) = EMERGENCY_STOP \/ quiet c.

(** Pulses the loop can still emit once stopped. *)
Definition owed (c : config) : nat :=
  match at_pc c with
  | Pulse _ _ => 1
  | _ => 0
  end.

(** The sign of the steps a configuration is about to take. *)
Definition dir_sign (d : bool) : Z := if d then 1 else -1.

Definition heading (c : config) : Z :=
  match at_pc c with
  | MoveTo target _ => Z.sgn (target - current_position (motor c))
  | MoveRelative steps _ | MoveSteps steps _ => Z.sgn steps
  | While d _ | Check d _ | Pulse d _ => dir_sign d
  | _ => 0
  end.

(** Ticks of the move thread that end the call once the state is
    EMERGENCY_STOP. *)
Definition halt_ticks (c : config) : nat :=
  match at_pc c with
  | MoveTo _ _ | MoveRelative _ _ => 1
  | MoveSteps _ _ => 4
  | While _ _ => 3
  | Check _ _ => 2
  | Pulse _ _ => 4
  | Finally _ => 1
  | Returned _ | Raised _ => 0
  end.

(** A request made while the state is EMERGENCY_STOP, before or after it has
    returned [False]. *)
Definition refused (c : config) : Prop :=
  state (status c) = EMERGENCY_STOP /\
  match at_pc c with
  | MoveTo _ _ | MoveRelative _ _ | Returned false => True
  | _ => False
  end.

(** *** The rest of the motor class and the request handler *)

(** [set_zero]. *)
Definition set_zero (c : config) : config :=
  mkConfig (at_pc c) (set_target 0 (set_position 0 (status c)))
    (mkMotor 0 (is_moving (motor c))).

(** What an attribute of the motor object holds. *)
Inductive attribute : Type :=
| Number (z : Z)
| Boolean (b : bool)
| Method (body : config -> config).

(** The attributes stored on the instance: those [__init__] assigns, with
    the values the methods leave in them.  No method assigns
    [target_position] or [emergency_stop] again. *)
Definition instance_attributes (m : StepperMotor) : gmap string attribute :=
  {[ "dir_pin" := Number 17;
     "step_pin" := Number 27;
     "sleep_pin" := Number 22;
     "current_position" := Number (current_position m);
     "target_position" := Number 0;
     "is_moving" := Boolean (is_moving m);
     "emergency_stop" := Boolean false ]}.

(** The methods of the class that the request handler calls on [motor]
    without an argument. *)
Definition class_attributes : gmap string attribute :=
  {[ "emergency_stop" := Method emergency_stop;
     "set_zero" := Method set_zero ]}.

(** [motor.name]: the instance's own attributes are found before those of
    the class. *)
Definition getattr (m : StepperMotor) (name : string) : option attribute :=
  match instance_attributes m !! name with
  | Some a => Some a
  | None => class_attributes !! name
  end.

(** [motor.name()]; [None] stands for the exception of a lookup that fails
    (AttributeError) or of a call of something that is no function
    (TypeError). *)
Definition call_method (name : string) (c : config) : option config :=
  match getattr (motor c) name with
  | Some (Method body) => Some (body c)
  | _ => None
  end.

(** The requests of [handle_api] that take no parameter. *)
Inductive api_request : Type :=
| ApiStatus          (* /api/status *)
| ApiEmergencyStop   (* /api/emergency_stop *)
| ApiSetZero.        (* /api/set_zero *)

(** [handle_api]: the configuration afterwards and the status code of the
    response; the [except Exception] clause answers 500. *)
Definition handle_api (r : api_request) (c : config) : config * Z :=
  match r with
  | ApiStatus => (c, 200)
  | ApiEmergencyStop =>
      match call_method "emergency_stop" c with
      | Some c' => (c', 200)
      | None => (c, 500)
      end
  | ApiSetZero =>
      match call_method "set_zero" c with
      | Some c' => (c', 200)
      | None => (c, 500)
      end
  end.

(** A move loop and the requests served by other threads while it runs. *)
Inductive api_tick : Type :=
| Run                          (* the move runs to its next program point *)
| Request (r : api_request).   (* another thread serves a request *)

Fixpoint serve (s : list api_tick) (c : config) : config * list event :=
  match s with
  | [] => (c, [])
  | Run :: s' =>
      let (c1, ev) := motor_step c in
      let (c2, tr) := serve s' c1 in
      (c2, ev ++ tr)
  | Request r :: s' => serve s' (fst (handle_api r c))
  end.

(** The status reports the position the motor counts. *)
Definition in_sync (c : config) : Prop :=
  position (status c) = current_position (motor c).

(** Pulses a relative move has still to emit. *)
Definition pending (c : config) : nat :=
  match at_pc c with
  | MoveRelative steps _ | MoveSteps steps _ => Z.to_nat (Z.abs steps)
  | While _ r | Check _ r | Pulse _ r => Z.to_nat r
  | _ => 0
  end.

(** A relative move that no emergency stop has reached, on its way to
    return [True]. *)
Definition live (c : config) : Prop :=
  state (status c) <> EMERGENCY_STOP /\
  match at_pc c with
  | MoveRelative _ speed | MoveSteps _ speed => speed <> 0
  | While _ r => 0 <= r /\ is_moving (motor c) = true
  | Check _ r | Pulse _ r => 0 < r /\ is_moving (motor c) = true
  | Finally r => r = 0
  | Returned b => b = true /\ state (status c) = IDLE
  | _ => False
  end.

(** *** What the move writes to the pins *)

(** The pin writes of one tick of the move: [GPIO.output(self.dir_pin,
    direction)] and, after the delay is computed, [self.wake()] at the start
    of [_move_steps]; [self.sleep()] in its [finally] block. *)
Definition gpio_step (c : config) (p : pins) : pins :=
  match at_pc c with
  | MoveSteps steps speed =>
      if steps =? 0 then p
      else if Z.abs speed =? 0 then mkPins (0 <? steps) (sleep_pin p)
      else mkPins (0 <? steps) true
  | Finally _ => mkPins (dir_pin p) false
  | _ => p
  end.

(** [self.sleep()] in the body of [emergency_stop]. *)
Definition gpio_stop (p : pins) : pins := mkPins (dir_pin p) false.

(** The move loop together with the pins. *)
Definition wired_step (cp : config * pins) : (config * pins) * list event :=
  ((fst (motor_step (fst cp)), gpio_step (fst cp) (snd cp)),
   snd (motor_step (fst cp))).

Definition wired_stop (cp : config * pins) : config * pins :=
  (emergency_stop (fst cp), gpio_stop (snd cp)).

(** The driver is awake only inside [_move_steps]. *)
Definition asleep_outside (cp : config * pins) : Prop :=
  match at_pc (fst cp) with
  | While _ _ | Check _ _ | Pulse _ _ | Finally _ => True
  | _ => sleep_pin (snd cp) = false
  end.

End V2.

(** ** Revision 3: move loop with an acceleration profile ([main-v3.py]) *)

Module V3.

Record MotorController : Type := mkMotor {
  position : Z;
  target_position : Z;
  moving : bool;
  emergency_stop_flag : bool;
  burst_progress : Z
}.

Definition set_flag (b : bool) (m : MotorController) : MotorController :=
  mkMotor (position m) (target_position m) (moving m) b (burst_progress m).

Definition set_moving (b : bool) (m : MotorController) : MotorController :=
  mkMotor (position m) (target_position m) b (emergency_stop_flag m)
    (burst_progress m).

Definition set_position (p : Z) (m : MotorController) : MotorController :=
  mkMotor p (target_position m) (moving m) (emergency_stop_flag m)
    (burst_progress m).

Definition set_progress (p : Z) (m : MotorController) : MotorController :=
  mkMotor (position m) (target_position m) (moving m) (emergency_stop_flag m) p.

(** [min(abs_steps // 2, int(speed_hz * speed_hz / (2 * acceleration)))],
    and zero when that is below one. *)
Definition steps_to_accel (abs_steps speed_hz acceleration : Z) : result Z :=
  let* q := py_truediv (inject_Z (speed_hz * speed_hz))
              (inject_Z (2 * acceleration)) in
  let n := Z.min (abs_steps / 2) (py_int q) in
  Ok (if n <? 1 then 0 else n).

(** The locals of [move_steps] the loop reads; [callback] tells whether the
    caller passed one (the only one ever passed is [move_done], which takes no
    argument). *)
Record locals : Type := mkLocals {
  direction : Z;
  abs_steps : Z;
  accel_steps : Z;
  speed_hz : Z;
  acceleration : Z;
  callback : bool
}.

(** The speed of step [i], before the floor. *)
Definition current_speed (l : locals) (i : Z) : result Q :=
  if i <? accel_steps l then
    py_truediv (inject_Z (acceleration l * i)) (inject_Z (speed_hz l))
  else if abs_steps l - accel_steps l <? i then
    py_truediv (inject_Z (acceleration l * (abs_steps l - i)))
      (inject_Z (speed_hz l))
  else Ok (inject_Z (speed_hz l)).

(** [max(1, current_speed)]. *)
Definition floored_speed (l : locals) (i : Z) : result Q :=
  let* v := current_speed l i in Ok (py_max 1 v).

(** The delay slept after step [i]: [1.0 / current_speed]. *)
Definition step_delay (l : locals) (i : Z) : result Q :=
  let* v := floored_speed l i in py_truediv 1 v.

Inductive pc : Type :=
| MoveToPosition (target speed acc : Z) (cb : bool)
| MoveSteps (steps speed acc : Z) (cb : bool)
| For (l : locals) (i : Z)
| Check (l : locals) (i : Z)
| Step (l : locals) (i : Z)
| Exit
| Done
| Raised (e : exn).

Record config : Type := mkConfig {
  at_pc : pc;
  mc : MotorController
}.

Definition motor_step (c : config) : config * list event :=
  let m := mc c in
  match at_pc c with
  | MoveToPosition target speed acc cb =>
      let steps_to_move := target - position m in
      if negb (steps_to_move =? 0) then
        (mkConfig (MoveSteps steps_to_move speed acc cb) m, [])
      else (mkConfig Done m, [])
  | MoveSteps steps speed acc cb =>
      if emergency_stop_flag m then
        (mkConfig Done (set_flag false m), [])
      else
        let m' := set_moving true m in
        match steps_to_accel (Z.abs steps) speed acc with
        | Ok a =>
            (mkConfig
               (For (mkLocals (if 0 <? steps then 1 else -1) (Z.abs steps)
                       a speed acc cb) 0) m', [])
        | Raise e => (mkConfig (Raised e) m', [])
        end
  | For l i =>
      if i <? abs_steps l then (mkConfig (Check l i) m, [])
      else (mkConfig Exit m, [])
  | Check l i =>
      if emergency_stop_flag m then (mkConfig Exit (set_flag false m), [])
      else (mkConfig (Step l i) m, [])
  | Step l i =>
      match step_delay l i with
      | Ok d =>
          let m' := set_position (position m + direction l) m in
          match py_sleep d with
          | Ok _ =>
              if callback l && (i mod 100 =? 0) then
                (* callback(i / abs_steps * 100): move_done takes no argument *)
                (mkConfig (Raised TypeError) m', [EvPulse])
              else (mkConfig (For l (i + 1)) m', [EvPulse])
          | Raise e => (mkConfig (Raised e) m', [EvPulse])
          end
      | Raise e => (mkConfig (Raised e) m, [])
      end
  | Exit => (mkConfig Done (set_moving false m), [])
  | Done | Raised _ => (c, [])
  end.

(** The method [emergency_stop]. *)
Definition emergency_stop (c : config) : config :=
  mkConfig (at_pc c) (set_moving false (set_flag true (mc c))).

Definition terminal (c : config) : bool :=
  match at_pc c with
  | Done | Raised _ => true
  | _ => false
  end.

Definition ticks_left (c : config) : nat :=
  match at_pc c with
  | MoveToPosition target _ _ _ =>
      3 * Z.to_nat (Z.abs (target - position (mc c))) + 4
  | MoveSteps steps _ _ _ => 3 * Z.to_nat (Z.abs steps) + 3
  | For l i => 3 * Z.to_nat (abs_steps l - i) + 2
  | Check l i => 3 * Z.to_nat (abs_steps l - i - 1) + 4
  | Step l i => 3 * Z.to_nat (abs_steps l - i - 1) + 3
  | Exit => 1
  | Done | Raised _ => 0
  end%nat.

Definition call (sched : list tick) (c : config) : config :=
  final motor_step emergency_stop (sched ++ repeat Motor (ticks_left c)) c.

Definition call_trace (sched : list tick) (c : config) : list event :=
  trace motor_step emergency_stop (sched ++ repeat Motor (ticks_left c)) c.

Definition returned (c : config) : option (result unit) :=
  match at_pc c with
  | Done => Some (Ok tt)
  | Raised e => Some (Raise e)
  | _ => None
  end.

(** The burst of [/take_burst]. *)

(** [int(round(start_pos + (end_pos - start_pos) * i / (num_images - 1)))]. *)
Definition position_at (start_pos end_pos num_images i : Z) : result Z :=
  let* q := py_truediv (inject_Z ((end_pos - start_pos) * i))
              (inject_Z (num_images - 1)) in
  Ok (py_round (inject_Z start_pos + q)).

Definition positions (start_pos end_pos num_images : Z) : result (list Z) :=
  traverse (position_at start_pos end_pos num_images) (py_range num_images).

(** [int((i + 1) / num_images * 100)]. *)
Definition progress_at (num_images i : Z) : result Z :=
  let* q := py_truediv (inject_Z (i + 1)) (inject_Z num_images) in
  Ok (py_int (q * inject_Z 100)).

Record world : Type := mkWorld {
  w_mc : MotorController;
  w_fs : gset string;
  captured : list (string * Z)   (* directory and position of each image *)
}.

(** The other threads and the camera during a burst: the ticks interleaved
    with the [k]-th move, whether a stop request arrives while image [i] is
    captured, and what [picam2.capture_file] does for image [i]. *)
Record burst_env : Type := mkEnv {
  move_sched : nat -> list tick;
  stop_during_capture : nat -> bool;
  capture_file : nat -> result unit
}.

Definition call_move_to_position (sched : list tick) (target speed acc : Z)
  (m : MotorController) : option (MotorController * result unit) :=
  let c := call sched (mkConfig (MoveToPosition target speed acc false) m) in
  match returned c with
  | Some r => Some (mc c, r)
  | None => None
  end.

Fixpoint burst_loop (env : burst_env) (burst_dir : string)
  (num_images speed acc : Z) (i : nat) (ps : list Z) (w : world)
  : option (world * result unit) :=
  match ps with
  | [] => Some (w, Ok tt)
  | pos :: rest =>
      let m := w_mc w in
      if emergency_stop_flag m then
        Some (mkWorld (set_flag false m) (w_fs w) (captured w), Ok tt)
      else
        match progress_at num_images (Z.of_nat i) with
        | Ok p =>
            match call_move_to_position (move_sched env (S i))
                    pos speed acc (set_progress p m) with
            | Some (m1, Ok _) =>
                match capture_file env i with
                | Ok _ =>
                    let m2 := if stop_during_capture env i
                              then mc (emergency_stop (mkConfig Done m1))
                              else m1 in
                    burst_loop env burst_dir num_images speed acc (S i) rest
                      (mkWorld m2 (w_fs w) (captured w ++ [(burst_dir, pos)]))
                | Raise e => Some (mkWorld m1 (w_fs w) (captured w), Raise e)
                end
            | Some (m1, Raise e) =>
                Some (mkWorld m1 (w_fs w) (captured w), Raise e)
            | None => None
            end
        | Raise e => Some (w, Raise e)
        end
  end.

Definition burst_thread (env : burst_env)
  (start_pos end_pos num_images speed acc : Z) (w : world)
  : option (world * result unit) :=
  match allocate_dir (w_fs w) 1 with
  | None => None
  | Some (_, burst_dir, fs) =>
      match call_move_to_position (move_sched env 0)
              start_pos speed acc (w_mc w) with
      | Some (m1, Ok _) =>
          let w1 := mkWorld m1 fs (captured w) in
          match positions start_pos end_pos num_images with
          | Ok ps =>
              match burst_loop env burst_dir num_images speed acc 0 ps w1 with
              | Some (w2, Ok _) =>
                  Some (mkWorld (set_progress 0 (w_mc w2)) (w_fs w2)
                          (captured w2), Ok tt)
              | Some (w2, Raise e) => Some (w2, Raise e)
              | None => None
              end
          | Raise e => Some (w1, Raise e)
          end
      | Some (m1, Raise e) => Some (mkWorld m1 fs (captured w), Raise e)
      | None => None
      end
  end.

(** *** Invariants and measures of the move loop, for the proofs *)

(** The move is past its loop. *)
Definition quiet (c : config) : Prop :=
  match at_pc c with
  | Exit | Done | Raised _ => True
  | _ => False
  end.

(** A stop request is pending, or the loop is over. *)
Definition stopped (c : config) : Prop :=
  emergency_stop_flag (mc c) = true \/ quiet c.

(** Ticks of the move thread that end the call once the flag is set. *)
Definition halt_ticks (c : config) : nat :=
  match at_pc c with
  | MoveToPosition _ _ _ _ => 2
  | MoveSteps _ _ _ _ => 1
  | For _ _ => 3
  | Check _ _ => 2
  | Step _ _ => 4
  | Exit => 1
  | Done | Raised _ => 0
  end.

(** Pulses the loop can still emit once stopped. *)
Definition owed (c : config) : nat :=
  match at_pc c with
  | Step _ _ => 1
  | _ => 0
  end.

(** *** The rest of the controller and of the request handler *)

(** [/move_motor]: the handler starts
    [motor.move_steps(steps, speed, acceleration, move_done)] in a thread. *)
Definition post_move_motor (steps speed acceleration : Z) (m : MotorController)
  : config :=
  mkConfig (MoveSteps steps speed acceleration true) m.

(** [direction = 1 if steps > 0 else -1]. *)
Definition direction_of (steps : Z) : Z := if 0 <? steps then 1 else -1.

(** The direction a configuration steps in. *)
Definition heading (c : config) : Z :=
  match at_pc c with
  | MoveToPosition target _ _ _ => direction_of (target - position (mc c))
  | MoveSteps steps _ _ _ => direction_of steps
  | For l _ | Check l _ | Step l _ => direction l
  | _ => 0
  end.

(** The controller after an uninterrupted [move_to_position(target, ...)]:
    untouched when it is on the target already. *)
Definition arrived (target : Z) (m : MotorController) : MotorController :=
  if target - position m =? 0 then m
  else mkMotor target (target_position m) false false (burst_progress m).

(** What the environment of a burst leaves alone at image [k]: no stop
    request during its move or its capture, and the camera works. *)
Definition undisturbed (env : burst_env) (k : nat) : Prop :=
  stop_free (move_sched env (S k)) = true /\
  capture_file env k = Ok tt /\
  stop_during_capture env k = false.

(** A move without callback that no stop request has reached yet. *)
Definition in_flight (c : config) : Prop :=
  emergency_stop_flag (mc c) = false /\
  match at_pc c with
  | MoveToPosition _ _ acc cb | MoveSteps _ _ acc cb => acc <> 0 /\ cb = false
  | For l i | Check l i | Step l i =>
      (accel_steps l = 0 \/ speed_hz l <> 0) /\ callback l = false /\ 0 <= i
  | _ => False
  end.

(** The file a captured image is written to. *)
Definition image_file (c : string * Z) : string :=
  image_name (fst c) (snd c).

(** *** What the move writes to the pins *)

(** The pin writes of one tick of the move: [wake_up()] and
    [set_direction(direction)] at the start of [move_steps], before the ramp
    is computed; [sleep()] in the block that ends it. *)
Definition gpio_step (c : config) (p : pins) : pins :=
  match at_pc c with
  | MoveSteps steps _ _ _ =>
      if emergency_stop_flag (mc c) then p else mkPins (0 <? steps) true
  | Exit => mkPins (dir_pin p) false
  | _ => p
  end.

(** [self.sleep()] in [emergency_stop]. *)
Definition gpio_stop (p : pins) : pins := mkPins (dir_pin p) false.

(** The move loop together with the pins. *)
Definition wired_step (cp : config * pins) : (config * pins) * list event :=
  ((fst (motor_step (fst cp)), gpio_step (fst cp) (snd cp)),
   snd (motor_step (fst cp))).

Definition wired_stop (cp : config * pins) : config * pins :=
  (emergency_stop (fst cp), gpio_stop (snd cp)).

(** The driver is asleep before a move and after one that returned. *)
Definition asleep_outside (cp : config * pins) : Prop :=
  match at_pc (fst cp) with
  | MoveToPosition _ _ _ _ | MoveSteps _ _ _ _ | Done =>
      sleep_pin (snd cp) = false
  | _ => True
  end.

(** The driver is awake from the start of the loop up to the block that ends
    the move, and where an exception left the function. *)
Definition awake_inside (cp : config * pins) : Prop :=
  match at_pc (fst cp) with
  | For _ _ | Check _ _ | Step _ _ | Exit | Raised _ =>
      sleep_pin (snd cp) = true
  | _ => True
  end.

End V3.

(** ** Revision 4: move thread that sets the position at its end
    ([main-v4.py]) *)

Module V4.

Record StepperMotor : Type := mkMotor {
  current_position : Z;
  target_position : Z;
  is_moving : bool;
  emergency_stop : bool
}.

Definition set_moving (b : bool) (m : StepperMotor) : StepperMotor :=
  mkMotor (current_position m) (target_position m) b (emergency_stop m).

Definition set_target (t : Z) (m : StepperMotor) : StepperMotor :=
  mkMotor (current_position m) t (is_moving m) (emergency_stop m).

Definition set_zero (m : StepperMotor) : StepperMotor :=
  mkMotor 0 0 (is_moving m) (emergency_stop m).

Definition emergency_stop_now (m : StepperMotor) : StepperMotor :=
  mkMotor (current_position m) (target_position m) false true.

(** [min(steps_to_move // 2, int(speed * speed / (2 * acceleration)))]. *)
Definition accel_steps (steps_to_move speed acceleration : Z) : result Z :=
  let* q := py_truediv (inject_Z (speed * speed)) (inject_Z (2 * acceleration)) in
  Ok (Z.min (steps_to_move / 2) (py_int q)).

Record locals : Type := mkLocals {
  steps_to_move : Z;
  ramp : Z;            (* the local accel_steps *)
  speed : Z;
  acceleration : Z
}.

(** The factor [current_speed] of step [step]. *)
Definition current_speed (l : locals) (step : Z) : result Q :=
  if step <? ramp l then
    py_truediv (inject_Z (acceleration l * step)) (inject_Z (speed l))
  else if steps_to_move l - ramp l <? step then
    py_truediv (inject_Z (acceleration l * (steps_to_move l - step)))
      (inject_Z (speed l))
  else Ok 1%Q.

(** [time.sleep(1 / (speed * current_speed))]. *)
Definition primary_delay (l : locals) (v : Q) : result Q :=
  let* d := py_truediv 1 (inject_Z (speed l) * v) in
  let* _ := py_sleep d in
  Ok d.

(** [time.sleep(1 / (speed))], the handler of the bare [except]. *)
Definition fallback_delay (l : locals) : result Q :=
  let* d := py_truediv 1 (inject_Z (speed l)) in
  let* _ := py_sleep d in
  Ok d.

(** The delay slept after the pulse of step [step]. *)
Definition step_delay (l : locals) (step : Z) : result Q :=
  let* v := current_speed l step in
  match primary_delay l v with
  | Ok d => Ok d
  | Raise _ => fallback_delay l
  end.

(** Program points of [_move_thread]. *)
Inductive pc : Type :=
| Thread (speed acceleration : Z)
| For (l : locals) (step : Z)
| Check (l : locals) (step : Z)
| Pulse (l : locals) (step : Z)
| End_
| Done
| Raised (e : exn).

Record config : Type := mkConfig {
  at_pc : pc;
  motor : StepperMotor
}.

(** [move_to]: the motor afterwards, and the thread it started, if any.
    [int(target)] is the identity on an integer. *)
Definition move_to (target speed acceleration : Z) (m : StepperMotor)
  : StepperMotor * option pc :=
  if emergency_stop m then (m, None)
  else
    let m1 := set_target target m in
    if negb (is_moving m1) then
      (set_moving true m1, Some (Thread speed acceleration))
    else (m1, None).

Definition move (steps : Z) (direction : string) (speed acceleration : Z)
  (m : StepperMotor) : StepperMotor * option pc :=
  if String.eqb direction "positive" then
    move_to (target_position m + steps) speed acceleration m
  else
    move_to (target_position m - steps) speed acceleration m.

Definition motor_step (c : config) : config * list event :=
  let m := motor c in
  match at_pc c with
  | Thread speed acceleration =>
      let n := Z.abs (target_position m - current_position m) in
      if n =? 0 then (mkConfig Done (set_moving false m), [])
      else
        match accel_steps n speed acceleration with
        | Ok a => (mkConfig (For (mkLocals n a speed acceleration) 0) m, [])
        | Raise e => (mkConfig (Raised e) m, [])
        end
  | For l step =>
      if step <? steps_to_move l then (mkConfig (Check l step) m, [])
      else (mkConfig End_ m, [])
  | Check l step =>
      if emergency_stop m then (mkConfig Done (set_moving false m), [])
      else (mkConfig (Pulse l step) m, [])
  | Pulse l step =>
      match current_speed l step with
      | Ok v =>
          match (match primary_delay l v with
                 | Ok d => Ok d
                 | Raise _ => fallback_delay l
                 end) with
          | Ok _ => (mkConfig (For l (step + 1)) m, [EvPulse])
          | Raise e => (mkConfig (Raised e) m, [EvPulse])
          end
      | Raise e => (mkConfig (Raised e) m, [])
      end
  | End_ =>
      (mkConfig Done
         (mkMotor (target_position m) (target_position m) false
            (emergency_stop m)), [])
  | Done | Raised _ => (c, [])
  end.

Definition env_stop (c : config) : config :=
  mkConfig (at_pc c) (emergency_stop_now (motor c)).

Definition terminal (c : config) : bool :=
  match at_pc c with
  | Done | Raised _ => true
  | _ => false
  end.

Definition ticks_left (c : config) : nat :=
  match at_pc c with
  | Thread _ _ =>
      3 * Z.to_nat (Z.abs (target_position (motor c) - current_position (motor c))) + 3
  | For l step => 3 * Z.to_nat (steps_to_move l - step) + 2
  | Check l step => 3 * Z.to_nat (steps_to_move l - step - 1) + 4
  | Pulse l step => 3 * Z.to_nat (steps_to_move l - step - 1) + 3
  | End_ => 1
  | Done | Raised _ => 0
  end%nat.

(** A relative or absolute move request followed by the thread it starts,
    under the interleaving [sched]. *)
Definition request (r : StepperMotor -> StepperMotor * option pc)
  (sched : list tick) (m : StepperMotor) : config * list event :=
  match r m with
  | (m1, Some start) =>
      let c := mkConfig start m1 in
      exec motor_step env_stop (sched ++ repeat Motor (ticks_left c)) c
  | (m1, None) => (mkConfig Done m1, [])
  end.

(** The positions of [take_burst]. *)
Definition positions (start_pos end_pos num_images : Z) : result (list Z) :=
  if 1 <? num_images then
    let* step_size := py_truediv (inject_Z (end_pos - start_pos))
                        (inject_Z (num_images - 1)) in
    Ok (map (fun i => py_int (inject_Z start_pos + inject_Z i * step_size))
          (py_range num_images))
  else Ok [].

(** *** The requests and the move thread together *)

(** What other threads ask of the motor. *)
Inductive api_request : Type :=
| ReqMoveTo (target speed acceleration : Z)   (* [move_to], as [take_burst] calls it *)
| ReqMove (steps : Z) (direction : string) (speed acceleration : Z)   (* /api/move *)
| ReqSetZero                                  (* /api/setzero *)
| ReqEmergency.                               (* /api/emergency *)

(** A request served while the configuration is [c].  [move_to] starts a
    thread only when [is_moving] is false, and then no earlier thread is
    still running (see [one_thread]), so one program counter is enough. *)
Definition handle (r : api_request) (c : config) : config :=
  let started (res : StepperMotor * option pc) :=
    match res with
    | (m1, Some th) => mkConfig th m1
    | (m1, None) => mkConfig (at_pc c) m1
    end in
  match r with
  | ReqMoveTo target speed acceleration =>
      started (move_to target speed acceleration (motor c))
  | ReqMove steps direction speed acceleration =>
      started (move steps direction speed acceleration (motor c))
  | ReqSetZero => mkConfig (at_pc c) (set_zero (motor c))
  | ReqEmergency => env_stop c
  end.

Inductive sys_tick : Type :=
| Tick                       (* the move thread runs to its next program point *)
| Api (r : api_request).     (* another thread serves a request *)

Fixpoint run (s : list sys_tick) (c : config) : config * list event :=
  match s with
  | [] => (c, [])
  | Tick :: s' =>
      let (c1, ev) := motor_step c in
      let (c2, tr) := run s' c1 in
      (c2, ev ++ tr)
  | Api r :: s' => run s' (handle r c)
  end.

(** No thread is running when the motor is neither moving nor stopped. *)
Definition one_thread (c : config) : Prop :=
  emergency_stop (motor c) = false -> is_moving (motor c) = false ->
  terminal c = true.

(** A motor that will not move again: the emergency stop is set, or the
    thread has ended and left [is_moving] set. *)
Definition dead (c : config) : Prop :=
  emergency_stop (motor c) = true \/
  (terminal c = true /\ is_moving (motor c) = true).

(** Pulses a configuration can still emit once the motor is dead. *)
Definition owed (c : config) : nat :=
  match at_pc c with
  | Pulse _ _ => 1
  | _ => 0
  end.

(** Pulses the loop of the thread has still to emit. *)
Definition pending (c : config) : nat :=
  match at_pc c with
  | For l step | Check l step | Pulse l step => Z.to_nat (steps_to_move l - step)
  | _ => 0
  end.

(** The thread is in its loop, or just past it, with sound parameters and
    no stop requested. *)
Definition running (c : config) : Prop :=
  emergency_stop (motor c) = false /\ is_moving (motor c) = true /\
  match at_pc c with
  | For l step => 0 < speed l /\ 0 < acceleration l /\ 0 <= step <= steps_to_move l
  | Check l step | Pulse l step =>
      0 < speed l /\ 0 < acceleration l /\ 0 <= step < steps_to_move l
  | End_ => True
  | _ => False
  end.

(** *** [take_burst] *)

(** What [take_burst] touches: the motor with its move thread, the working
    directory, the image files written so far, and the directories handed to
    the focus-stacking job. *)
Record world : Type := mkWorld {
  w_config : config;
  w_fs : gset string;
  captured : list string;
  stacked : list string
}.

(** The rest of the system during a burst: what happens while the burst
    waits for its [k]-th move, whether a stop request made during that wait
    is noticed by the check inside the wait loop (rather than by the loop
    condition), and what the camera does for image [i]. *)
Record burst_env : Type := mkEnv {
  move_sched : nat -> list sys_tick;
  stop_seen_waiting : nat -> bool;
  capture_request : nat -> result unit
}.

Inductive waited : Type :=
| Proceed (c : config)      (* the loop ended: [is_moving] was found false *)
| GaveUp (c : config)       (* the check inside the loop found the stop flag *)
| Forever.                  (* the thread has ended with [is_moving] set and
                               no stop is requested: the loop never ends *)

(** [while z_stepper.is_moving: time.sleep(...); if z_stepper.emergency_stop:
    return], while the system does [sched] and the move thread then runs to
    its end. *)
Definition wait (sched : list sys_tick) (seen : bool) (c : config) : waited :=
  let c1 := fst (run sched c) in
  let c2 := fst (run (repeat Tick (ticks_left c1)) c1) in
  if is_moving (motor c2) then
    if emergency_stop (motor c2) then GaveUp c2 else Forever
  else if emergency_stop (motor c2) && seen then GaveUp c2
  else Proceed c2.

(** The loop over the positions; the boolean tells whether it ran to its end
    ([true]) or returned from [take_burst] ([false]). *)
Fixpoint burst_images (env : burst_env) (burst_dir : string)
  (speed acceleration : Z) (i : nat) (ps : list Z) (w : world)
  : option (world * result bool) :=
  match ps with
  | [] => Some (w, Ok true)
  | pos :: rest =>
      if emergency_stop (motor (w_config w)) then Some (w, Ok false)
      else
        match wait (move_sched env (S i)) (stop_seen_waiting env (S i))
                (handle (ReqMoveTo pos speed acceleration) (w_config w)) with
        | Forever => None
        | GaveUp c2 =>
            Some (mkWorld c2 (w_fs w) (captured w) (stacked w), Ok false)
        | Proceed c2 =>
            match capture_request env i with
            | Ok _ =>
                burst_images env burst_dir speed acceleration (S i) rest
                  (mkWorld c2 (w_fs w)
                     (captured w ++ [image_name burst_dir pos]) (stacked w))
            | Raise e =>
                Some (mkWorld c2 (w_fs w) (captured w) (stacked w), Raise e)
            end
        end
  end.

(** [take_burst]; [None] when it never returns.  The stacking job runs inside
    [try ... except Exception], so whatever it does the function returns. *)
Definition take_burst (env : burst_env)
  (start_pos end_pos num_images speed acceleration : Z) (w : world)
  : option (world * result unit) :=
  match allocate_dir (w_fs w) 1 with
  | None => None
  | Some (_, burst_dir, fs) =>
      match wait (move_sched env 0) (stop_seen_waiting env 0)
              (handle (ReqMoveTo start_pos speed acceleration) (w_config w)) with
      | Forever => None
      | GaveUp c2 => Some (mkWorld c2 fs (captured w) (stacked w), Ok tt)
      | Proceed c2 =>
          match positions start_pos end_pos num_images with
          | Ok ps =>
              match burst_images env burst_dir speed acceleration 0 ps
                      (mkWorld c2 fs (captured w) (stacked w)) with
              | Some (w2, Ok true) =>
                  Some (mkWorld (w_config w2) (w_fs w2) (captured w2)
                          (stacked w2 ++ [burst_dir]), Ok tt)
              | Some (w2, Ok false) => Some (w2, Ok tt)
              | Some (w2, Raise e) => Some (w2, Raise e)
              | None => None
              end
          | Raise e => Some (mkWorld c2 fs (captured w) (stacked w), Raise e)
          end
      end
  end.

(** A schedule in which no other thread asks anything of the motor. *)
Definition ticks_only (s : list sys_tick) : Prop :=
  s = repeat Tick (List.length s).

End V4.

(** ** Binary64: the same expressions on IEEE doubles

    The rational idealisation is exact about [round] on the inputs of
    interest, but [int] of a float product or sum can land one below the
    exact quotient (e.g. [19 * (1000 / 19)] is [999.9999999999999]).  The
    definitions below evaluate the expressions on the kernel's binary64
    floats, bit for bit as CPython does for integers below 2^53; the concrete
    values quoted in the claims are computed with them. *)

Module Binary64.

(** [float(z)]. *)
Definition of_Z (z : Z) : PrimFloat.float :=
  match z with
  | Z0 => PrimFloat.of_uint63 (Uint63.of_Z 0)
  | Zpos _ => PrimFloat.of_uint63 (Uint63.of_Z z)
  | Zneg p => PrimFloat.opp (PrimFloat.of_uint63 (Uint63.of_Z (Zpos p)))
  end.

(** [a / b]: raises on a zero divisor. *)
Definition truediv (a b : PrimFloat.float) : result PrimFloat.float :=
  if PrimFloat.eqb b PrimFloat.zero then Raise ZeroDivisionError
  else Ok (PrimFloat.div a b).

(** The integer part and the remainder of a positive mantissa [m * 2^e]:
    quotient and remainder of [m] by [2^(-e)] when [e] is negative. *)
Definition split_mantissa (m : positive) (e : Z) : Z * Z * Z :=
  match e with
  | Z0 => (Zpos m, 0, 1)
  | Zpos _ => (Z.shiftl (Zpos m) e, 0, 1)
  | Zneg k =>
      let q := Z.shiftr (Zpos m) (Zpos k) in
      (q, Zpos m - Z.shiftl q (Zpos k), Z.shiftl 1 (Zpos k))
  end.

(** [int(x)]: truncation toward zero (an infinity or a NaN raises). *)
Definition to_int (x : PrimFloat.float) : result Z :=
  match FloatOps.Prim2SF x with
  | SpecFloat.S754_zero _ => Ok 0
  | SpecFloat.S754_finite s m e =>
      let '(q, _, _) := split_mantissa m e in
      Ok (if s then - q else q)
  | _ => Raise ValueError
  end.

(** [round(x)]: nearest integer, a tie goes to the even neighbour. *)
Definition round (x : PrimFloat.float) : result Z :=
  match FloatOps.Prim2SF x with
  | SpecFloat.S754_zero _ => Ok 0
  | SpecFloat.S754_finite s m e =>
      let '(q, r, d) := split_mantissa m e in
      let n := match 2 * r ?= d with
               | Lt => q
               | Gt => q + 1
               | Eq => if Z.even q then q else q + 1
               end in
      Ok (if s then - n else n)
  | _ => Raise ValueError
  end.

(** Revision 3: [int(round(start_pos + (end_pos - start_pos) * i / (num_images - 1)))]. *)
Definition v3_position_at (start_pos end_pos num_images i : Z) : result Z :=
  let* q := truediv (of_Z ((end_pos - start_pos) * i)) (of_Z (num_images - 1)) in
  round (PrimFloat.add (of_Z start_pos) q).

Definition v3_positions (start_pos end_pos num_images : Z) : result (list Z) :=
  traverse (v3_position_at start_pos end_pos num_images) (py_range num_images).

(** Revisions 2 and 4: [int(start + (i * step_increment))]. *)
Definition v2_positions (start end_ count : Z) : result (list Z) :=
  let* step_increment := truediv (of_Z (end_ - start)) (of_Z (count - 1)) in
  traverse
    (fun i => to_int (PrimFloat.add (of_Z start)
                        (PrimFloat.mul (of_Z i) step_increment)))
    (py_range count).

Definition v4_positions (start_pos end_pos num_images : Z) : result (list Z) :=
  if 1 <? num_images then v2_positions start_pos end_pos num_images
  else Ok [].

(** Revision 3: [int((i + 1) / num_images * 100)]. *)
Definition v3_progress_at (num_images i : Z) : result Z :=
  let* q := truediv (of_Z (i + 1)) (of_Z num_images) in
  to_int (PrimFloat.mul q (of_Z 100)).

End Binary64.

(** ** Invariants used in the proofs *)

(** Revision 2: what holds of the frame counter and the progress during a
    burst of [total] images. *)
Definition v2_progress_inv (total : Z) (o : V2.StreamingOutput)
  (st : V2.MotorStatus) : Prop :=
  V2.burst_total o = total /\
  0 <= V2.burst_count o <= total /\
  (V2.burst_progress st * inject_Z total <= inject_Z (V2.burst_count o) * 100)%Q.

(** ** The wording of the specification, for comparison *)

(** Section 3: [k] is the lowest-numbered unused [burst_NNN], counting from
    [start]. *)
Definition lowest_unused_from (fs : gset string) (start k : nat) : Prop :=
  (start <= k)%nat /\
  (burst_name k ∉ fs) /\
  (forall j : nat, (start <= j < k)%nat -> burst_name j ∈ fs).

(** Section 4.1: [min(stepCount / 2, speedHz^2 / (2 accel))] floored, and zero
    when the computed length is below one. *)
Definition accel_phase_spec (stepCount speedHz accel : Z) : Z :=
  let x := Qmin (inject_Z stepCount / 2)
             (inject_Z speedHz * inject_Z speedHz / (2 * inject_Z accel)) in
  if Qle_bool 1 x then Qfloor x else 0.

(** Section 3: position [i] of a burst plan, interpolated linearly from
    [startPos] to [endPos], before rounding. *)
Definition interpolate (startPos endPos imageCount i : Z) : Q :=
  inject_Z startPos +
  inject_Z ((endPos - startPos) * i) / inject_Z (imageCount - 1).

(** Section 3: the same, rounded half away from zero. *)
Definition interpolated_spec (startPos endPos imageCount i : Z) : Z :=
  round_half_away (interpolate startPos endPos imageCount i).

(** * Facts about the machines *)

Lemma pulses_app (t1 t2 : list event) :
  pulses (t1 ++ t2) = (pulses t1 + pulses t2)%nat.
Proof.
  induction t1 as [|[] t1 IH]; simpl; auto.
Qed.

Lemma stop_free_repeat (s : list tick) :
  stop_free s = true -> s = repeat Motor (List.length s).
Proof.
  induction s as [|[] s IH]; simpl; intros H; try discriminate; auto.
  f_equal; auto.
Qed.

Section MachineFacts.
Context {config : Type}.
Variable motor_step : config -> config * list event.
Variable env_stop : config -> config.

Local Abbreviation fin := (final motor_step env_stop).
Local Abbreviation tr := (trace motor_step env_stop).

Lemma final_motor (s : list tick) (c : config) :
  fin (Motor :: s) c = fin s (fst (motor_step c)).
Proof.
  unfold final; simpl. destruct (motor_step c) as [c1 ev]; simpl.
  now destruct (exec motor_step env_stop s c1).
Qed.

Lemma trace_motor (s : list tick) (c : config) :
  tr (Motor :: s) c = snd (motor_step c) ++ tr s (fst (motor_step c)).
Proof.
  unfold trace; simpl. destruct (motor_step c) as [c1 ev]; simpl.
  now destruct (exec motor_step env_stop s c1).
Qed.

Lemma final_stop (s : list tick) (c : config) :
  fin (Stop :: s) c = fin s (env_stop c).
Proof.
  unfold final; simpl.
  now destruct (exec motor_step env_stop s (env_stop c)).
Qed.

Lemma trace_stop (s : list tick) (c : config) :
  tr (Stop :: s) c = EvStop :: tr s (env_stop c).
Proof.
  unfold trace; simpl.
  now destruct (exec motor_step env_stop s (env_stop c)).
Qed.

Lemma final_app (s1 s2 : list tick) (c : config) :
  fin (s1 ++ s2) c = fin s2 (fin s1 c).
Proof.
  revert c; induction s1 as [|[] s1 IH]; intros c; simpl app.
  - reflexivity.
  - now rewrite !final_motor, IH.
  - now rewrite !final_stop, IH.
Qed.

Lemma trace_app (s1 s2 : list tick) (c : config) :
  tr (s1 ++ s2) c = tr s1 c ++ tr s2 (fin s1 c).
Proof.
  revert c; induction s1 as [|[] s1 IH]; intros c; simpl app.
  - reflexivity.
  - now rewrite !trace_motor, final_motor, IH, app_assoc.
  - now rewrite !trace_stop, final_stop, IH.
Qed.

(** *** Stop latency: once a stop is requested, the loop owes at most one
    pulse. *)
Section StopLatency.
Variable stopped : config -> Prop.
Variable owed : config -> nat.
Hypothesis step_event :
  forall c, snd (motor_step c) = [] \/ snd (motor_step c) = [EvPulse].
Hypothesis stop_stopped : forall c, stopped (env_stop c).
Hypothesis stop_owed : forall c, (owed (env_stop c) <= 1)%nat.
Hypothesis stop_again :
  forall c, stopped c -> (owed (env_stop c) <= owed c)%nat.
Hypothesis step_stopped :
  forall c, stopped c ->
    stopped (fst (motor_step c)) /\
    (pulses (snd (motor_step c)) + owed (fst (motor_step c)) <= owed c)%nat.

Lemma stopped_pulses (s : list tick) (c : config) :
  stopped c -> (pulses (tr s c) <= owed c)%nat.
Proof using step_stopped stop_stopped stop_again.
  revert c; induction s as [|[] s IH]; intros c Hc.
  - simpl. lia.
  - rewrite trace_motor, pulses_app.
    destruct (step_stopped c Hc) as [Hc' Hle].
    specialize (IH _ Hc'). lia.
  - rewrite trace_stop. simpl.
    specialize (IH _ (stop_stopped c)). specialize (stop_again c Hc). lia.
Qed.

Lemma latency (s : list tick) (c : config) :
  (pulses_after_stop (tr s c) <= 1)%nat.
Proof using step_event step_stopped stop_stopped stop_again stop_owed.
  revert c; induction s as [|[] s IH]; intros c.
  - simpl. lia.
  - rewrite trace_motor.
    destruct (step_event c) as [-> | ->]; simpl; apply IH.
  - rewrite trace_stop. simpl.
    pose proof (stopped_pulses s _ (stop_stopped c)).
    specialize (stop_owed c). lia.
Qed.
End StopLatency.

(** *** Termination: the fuel of a call is enough. *)
Section Termination.
Variable terminal : config -> bool.
Variable ticks_left : config -> nat.
Hypothesis terminal_stays :
  forall c, terminal c = true -> motor_step c = (c, []).
Hypothesis terminal_stop :
  forall c, terminal (env_stop c) = terminal c.
Hypothesis ticks_zero :
  forall c, ticks_left c = 0%nat -> terminal c = true.
Hypothesis ticks_step :
  forall c, terminal c = false ->
    (ticks_left (fst (motor_step c)) < ticks_left c)%nat.
Hypothesis ticks_stop :
  forall c, (ticks_left (env_stop c) <= ticks_left c)%nat.

Lemma terminal_final (s : list tick) (c : config) :
  terminal c = true -> terminal (fin s c) = true.
Proof using terminal_stays terminal_stop.
  revert c; induction s as [|[] s IH]; intros c Hc.
  - exact Hc.
  - rewrite final_motor, (terminal_stays c Hc). simpl. auto.
  - rewrite final_stop. apply IH. now rewrite terminal_stop.
Qed.

Lemma idle_ticks (k : nat) (c : config) :
  terminal c = true ->
  fin (repeat Motor k) c = c /\ tr (repeat Motor k) c = [].
Proof using terminal_stays.
  intros Hc. induction k as [|k [IH1 IH2]].
  - split; reflexivity.
  - cbn [repeat]. rewrite final_motor, trace_motor, (terminal_stays c Hc).
    simpl. auto.
Qed.

Lemma enough_ticks (k : nat) (c : config) :
  (ticks_left c <= k)%nat -> terminal (fin (repeat Motor k) c) = true.
Proof using terminal_stays terminal_stop ticks_zero ticks_step.
  revert c; induction k as [|k IH]; intros c Hk.
  - apply ticks_zero. change (fin (repeat Motor 0) c) with c. lia.
  - cbn [repeat]. rewrite final_motor.
    destruct (terminal c) eqn:Ht.
    + rewrite (terminal_stays c Ht). simpl.
      now apply (terminal_final (repeat Motor k)).
    + apply IH. specialize (ticks_step c Ht). lia.
Qed.

Lemma ticks_final (s : list tick) (c : config) :
  (ticks_left (fin s c) <= ticks_left c)%nat.
Proof using terminal_stays ticks_step ticks_stop.
  revert c; induction s as [|[] s IH]; intros c.
  - change (fin [] c) with c. lia.
  - rewrite final_motor. specialize (IH (fst (motor_step c))).
    destruct (terminal c) eqn:Ht.
    + rewrite (terminal_stays c Ht) in *. simpl in *. lia.
    + specialize (ticks_step c Ht). lia.
  - rewrite final_stop. specialize (IH (env_stop c)).
    specialize (ticks_stop c). lia.
Qed.

Lemma call_terminates (s : list tick) (c : config) :
  terminal (fin (s ++ repeat Motor (ticks_left c)) c) = true.
Proof using terminal_stays terminal_stop ticks_zero ticks_step ticks_stop.
  rewrite final_app. apply enough_ticks, ticks_final.
Qed.
End Termination.

(** *** Halting: once a stop is requested, a bounded number of ticks of the
    move thread ends the call. *)
Section Halting.
Variable terminal : config -> bool.
Variable stopped : config -> Prop.
Variable halt_ticks : config -> nat.
Hypothesis terminal_stays :
  forall c, terminal c = true -> motor_step c = (c, []).
Hypothesis terminal_stop :
  forall c, terminal (env_stop c) = terminal c.
Hypothesis stop_stopped : forall c, stopped (env_stop c).
Hypothesis halt_zero :
  forall c, halt_ticks c = 0%nat -> terminal c = true.
Hypothesis halt_step :
  forall c, stopped c -> terminal c = false ->
    stopped (fst (motor_step c)) /\
    (halt_ticks (fst (motor_step c)) < halt_ticks c)%nat.
Hypothesis halt_stop :
  forall c, (halt_ticks (env_stop c) <= halt_ticks c)%nat.

Lemma halts_within (s : list tick) (k : nat) (c : config) :
  stopped c -> (halt_ticks c <= k)%nat ->
  terminal (fin (s ++ repeat Motor k) c) = true.
Proof using terminal_stays terminal_stop stop_stopped halt_zero halt_step
  halt_stop.
  revert c. induction s as [|[] s IH]; intros c Hc Hk.
  - simpl app. revert c Hc Hk. induction k as [|k IHk]; intros c Hc Hk.
    + apply halt_zero. change (fin (repeat Motor 0) c) with c. lia.
    + cbn [repeat]. rewrite final_motor.
      destruct (terminal c) eqn:Ht.
      * rewrite (terminal_stays c Ht). cbn [fst].
        now apply (terminal_final terminal terminal_stays terminal_stop).
      * destruct (halt_step c Hc Ht) as [Hc' Hlt]. apply IHk; [exact Hc' | lia].
  - simpl app. rewrite final_motor.
    destruct (terminal c) eqn:Ht.
    + rewrite (terminal_stays c Ht). cbn [fst].
      now apply (terminal_final terminal terminal_stays terminal_stop).
    + destruct (halt_step c Hc Ht) as [Hc' Hlt]. apply IH; [exact Hc' | lia].
  - simpl app. rewrite final_stop. apply IH; [apply stop_stopped|].
    specialize (halt_stop c). lia.
Qed.

Lemma halts_after_stop (s : list tick) (k : nat) (c : config) :
  (halt_ticks (env_stop c) <= k)%nat ->
  terminal (fin (Stop :: s ++ repeat Motor k) c) = true.
Proof using terminal_stays terminal_stop stop_stopped halt_zero halt_step
  halt_stop.
  intros Hk. rewrite final_stop. apply halts_within; [apply stop_stopped | exact Hk].
Qed.
End Halting.

End MachineFacts.

Lemma repeat_add {A : Type} (x : A) (a b : nat) :
  repeat x (a + b) = repeat x a ++ repeat x b.
Proof.
  induction a as [|a IH]; simpl; [reflexivity | now rewrite IH].
Qed.

Lemma pulses_repeat (n : nat) : pulses (repeat EvPulse n) = n.
Proof.
  induction n as [|n IH]; simpl; auto.
Qed.

(** Split the tests of a machine step. *)
Ltac split_ifs :=
  repeat match goal with
    | |- context [if ?b then _ else _] => destruct b eqn:?
    | |- context [match ?r with Ok _ => _ | Raise _ => _ end] => destruct r eqn:?
    end.

(** * Revision 2: the blocking move loop *)

Module V2Facts.
Import V2.

Local Abbreviation fin := (final motor_step emergency_stop).
Local Abbreviation tr := (trace motor_step emergency_stop).

Lemma v2_MotorState_eqb_eq (a b : MotorState) :
  MotorState_eqb a b = true <-> a = b.
Proof.
  destruct a, b; simpl; split; intros H; try reflexivity; discriminate.
Qed.

Lemma v2_MotorState_eqb_neq (a b : MotorState) :
  MotorState_eqb a b = false <-> a <> b.
Proof.
  destruct a, b; simpl; split; intros H; try reflexivity; try discriminate;
    try (exfalso; apply H; reflexivity); intros E; discriminate.
Qed.

Lemma v2_step_event (c : config) :
  snd (motor_step c) = [] \/ snd (motor_step c) = [EvPulse].
Proof.
  destruct c as [[] st m]; unfold motor_step; simpl; split_ifs; simpl; auto.
Qed.

Lemma v2_step_stopped (c : config) :
  stopped c ->
  stopped (fst (motor_step c)) /\
  (pulses (snd (motor_step c)) + owed (fst (motor_step c)) <= owed c)%nat.
Proof.
  destruct c as [[] st m]; unfold stopped, quiet, owed, motor_step; simpl;
    intros [H | H]; try contradiction; try rewrite H; simpl;
    split_ifs; simpl; auto.
Qed.

Lemma v2_stop_latency (s : list tick) (c : config) :
  (pulses_after_stop (tr s c) <= 1)%nat.
Proof.
  apply (latency motor_step emergency_stop stopped owed).
  - apply v2_step_event.
  - intros c'. left. reflexivity.
  - intros c'. unfold owed. simpl. destruct (at_pc c'); lia.
  - intros c' _. unfold owed. simpl. lia.
  - apply v2_step_stopped.
Qed.

Lemma v2_terminal_stays (c : config) :
  terminal c = true -> motor_step c = (c, []).
Proof.
  destruct c as [[] st m]; unfold terminal; simpl; intros H;
    try discriminate; reflexivity.
Qed.

Lemma v2_ticks_step (c : config) :
  terminal c = false ->
  (ticks_left (fst (motor_step c)) < ticks_left c)%nat.
Proof.
  destruct c as [[] st m]; unfold terminal, ticks_left, motor_step; simpl;
    intros H; try discriminate; split_ifs; simpl; lia.
Qed.

(** The fuel of [call] is enough, whatever the interleaving. *)
Lemma v2_call_terminal (s : list tick) (c : config) :
  terminal (call s c) = true.
Proof.
  unfold call.
  apply (call_terminates motor_step emergency_stop terminal ticks_left).
  - apply v2_terminal_stays.
  - reflexivity.
  - intros c'. destruct c' as [[] st m]; unfold ticks_left, terminal; simpl;
      intros H; try reflexivity; lia.
  - apply v2_ticks_step.
  - intros c'. unfold ticks_left. simpl. lia.
Qed.

(** After a stop request four more ticks of the move thread end the call,
    whatever happens in between. *)
Lemma v2_halts_after_stop (s : list tick) (c : config) :
  terminal (fin (Stop :: s ++ repeat Motor 4) c) = true.
Proof.
  apply (halts_after_stop motor_step emergency_stop terminal stopped halt_ticks).
  - apply v2_terminal_stays.
  - reflexivity.
  - intros c'. left. reflexivity.
  - intros c'. destruct c' as [[] st m]; unfold halt_ticks, terminal; simpl;
      intros H; try reflexivity; lia.
  - intros c' Hs Ht.
    destruct c' as [[] st m]; unfold stopped, quiet, halt_ticks, terminal,
      motor_step in *; simpl in *; try discriminate;
      destruct Hs as [Hs | Hs]; try contradiction; try rewrite Hs; simpl;
      split_ifs; simpl; auto; lia.
  - intros c'. unfold halt_ticks. simpl. lia.
  - unfold halt_ticks. simpl. destruct (at_pc c); lia.
Qed.

Lemma v2_call_returns (s : list tick) (c : config) :
  exists r, returned (call s c) = Some r.
Proof.
  pose proof (v2_call_terminal s c) as H. unfold terminal, returned in *.
  destruct (at_pc (call s c)); try discriminate; eauto.
Qed.

Lemma v2_step_heading (c : config) :
  current_position (motor (fst (motor_step c))) =
    current_position (motor c) + heading c * Z.of_nat (pulses (snd (motor_step c)))
  /\ (heading (fst (motor_step c)) = heading c \/ quiet (fst (motor_step c))).
Proof.
  destruct c as [[] st m]; unfold heading, quiet, motor_step, dir_sign; simpl;
    split_ifs; simpl; split; auto; try lia.
  all: repeat match goal with
         | H : (_ =? _) = true |- _ => apply Z.eqb_eq in H
         | H : (_ =? _) = false |- _ => apply Z.eqb_neq in H
         | H : (_ <? _) = true |- _ => apply Z.ltb_lt in H
         | H : (_ <? _) = false |- _ => apply Z.ltb_ge in H
         end.
  all: try (left; lia).
  left. destruct (Z.ltb_spec 0 steps); lia.
Qed.

Lemma v2_quiet_silent (s : list tick) (c : config) :
  quiet c ->
  pulses (tr s c) = 0%nat /\
  current_position (motor (fin s c)) = current_position (motor c).
Proof.
  revert c; induction s as [|[] s IH]; intros c Hq.
  - split; reflexivity.
  - rewrite trace_motor, final_motor, pulses_app.
    assert (quiet (fst (motor_step c)) /\ snd (motor_step c) = [] /\
            current_position (motor (fst (motor_step c))) =
            current_position (motor c)) as (Hq' & Hev & Hp).
    { destruct c as [[] st m]; unfold quiet in *; simpl in *;
        try contradiction; auto. }
    destruct (IH _ Hq') as [IH1 IH2]. rewrite Hev, IH1, IH2, Hp. auto.
  - rewrite trace_stop, final_stop.
    destruct (IH (emergency_stop c)) as [IH1 IH2]; [exact Hq|].
    simpl. rewrite IH1, IH2. auto.
Qed.

(** Every pulse moves the tracked position by one step in the direction of
    the move, whatever the interleaving: the position is the start plus or
    minus the number of pulses emitted. *)
Lemma v2_position_accounting (s : list tick) (c : config) :
  current_position (motor (fin s c)) =
  current_position (motor c) + heading c * Z.of_nat (pulses (tr s c)).
Proof.
  revert c; induction s as [|[] s IH]; intros c.
  - unfold final, trace; simpl. lia.
  - rewrite trace_motor, final_motor, pulses_app, IH.
    destruct (v2_step_heading c) as [Hp [Hh | Hq]].
    + rewrite Hp, Hh. lia.
    + destruct (v2_quiet_silent s _ Hq) as [H0 _]. rewrite Hp, H0. lia.
  - rewrite trace_stop, final_stop, IH. simpl. reflexivity.
Qed.

Lemma v2_step_while (d : bool) (r : Z) (st : MotorStatus) (m : StepperMotor) :
  0 < r -> is_moving m = true ->
  motor_step (mkConfig (While d r) st m) = (mkConfig (Check d r) st m, []).
Proof.
  intros Hr Hm. apply Z.ltb_lt in Hr. unfold motor_step. simpl.
  now rewrite Hr, Hm.
Qed.

Lemma v2_step_while_end (d : bool) (st : MotorStatus) (m : StepperMotor) :
  motor_step (mkConfig (While d 0) st m) = (mkConfig (Finally 0) st m, []).
Proof.
  reflexivity.
Qed.

Lemma v2_step_check (d : bool) (r : Z) (st : MotorStatus) (m : StepperMotor) :
  state st <> EMERGENCY_STOP ->
  motor_step (mkConfig (Check d r) st m) = (mkConfig (Pulse d r) st m, []).
Proof.
  intros Hst. apply v2_MotorState_eqb_neq in Hst. unfold motor_step. simpl.
  now rewrite Hst.
Qed.

Lemma v2_step_pulse (d : bool) (r : Z) (st : MotorStatus) (m : StepperMotor) :
  let p := current_position m + dir_sign d in
  motor_step (mkConfig (Pulse d r) st m) =
  (mkConfig (While d (r - 1)) (set_position p st) (mkMotor p (is_moving m)),
   [EvPulse]).
Proof.
  unfold motor_step, dir_sign. simpl. destruct d; reflexivity.
Qed.

Lemma v2_step_finally (st : MotorStatus) (m : StepperMotor) :
  state st <> EMERGENCY_STOP ->
  motor_step (mkConfig (Finally 0) st m) =
  (mkConfig (Returned true)
     (set_target (current_position m)
        (set_position (current_position m) (set_state IDLE st)))
     (set_moving false m), []).
Proof.
  intros Hst. apply v2_MotorState_eqb_neq in Hst. unfold motor_step. simpl.
  now rewrite Hst.
Qed.

Lemma v2_step_move_steps_zero (speed : Z) (st : MotorStatus) (m : StepperMotor) :
  motor_step (mkConfig (MoveSteps 0 speed) st m) =
  (mkConfig (Returned true) (set_state IDLE st) m, []).
Proof.
  reflexivity.
Qed.

Lemma v2_step_move_steps (steps speed : Z) (st : MotorStatus) (m : StepperMotor) :
  steps <> 0 -> speed <> 0 ->
  motor_step (mkConfig (MoveSteps steps speed) st m) =
  (mkConfig (While (0 <? steps) (Z.abs steps)) st (set_moving true m), []).
Proof.
  intros Hs Hv. unfold motor_step. simpl.
  destruct (Z.eqb_spec steps 0); [contradiction|].
  destruct (Z.eqb_spec (Z.abs speed) 0); [lia | reflexivity].
Qed.

Lemma v2_while_runs (n k : nat) (d : bool) (st : MotorStatus) (m : StepperMotor) :
  state st <> EMERGENCY_STOP -> is_moving m = true ->
  let c := mkConfig (While d (Z.of_nat n)) st m in
  let s := repeat Motor (3 * n + 2 + k) in
  at_pc (fin s c) = Returned true /\
  state (status (fin s c)) = IDLE /\
  pulses (tr s c) = n.
Proof.
  revert st m. induction n as [|n IH]; intros st m Hst Hm c s.
  - subst c s. change (3 * 0 + 2 + k)%nat with (S (S k)). cbn [repeat].
    change (Z.of_nat 0) with 0.
    rewrite !final_motor, !trace_motor, v2_step_while_end. cbn [fst snd].
    rewrite v2_step_finally by assumption. cbn [fst snd].
    match goal with
    | |- context [fin (repeat Motor k) ?c0] =>
        destruct (idle_ticks motor_step emergency_stop terminal
                    v2_terminal_stays k c0 eq_refl) as [-> ->]
    end.
    simpl. auto.
  - subst c s.
    replace (3 * S n + 2 + k)%nat with (S (S (S (3 * n + 2 + k)))) by lia.
    cbn [repeat].
    rewrite !final_motor, !trace_motor.
    rewrite v2_step_while by (assumption || lia). cbn [fst snd].
    rewrite v2_step_check by assumption. cbn [fst snd].
    rewrite v2_step_pulse. cbn [fst snd].
    replace (Z.of_nat (S n) - 1) with (Z.of_nat n) by lia.
    rewrite Hm.
    destruct (IH (set_position (current_position m + dir_sign d) st)
                (mkMotor (current_position m + dir_sign d) true))
      as (H1 & H2 & H3); [assumption | reflexivity |].
    rewrite H1, H2. cbn [app pulses]. rewrite H3. auto.
Qed.

(** A move that nobody interrupts runs to completion: it returns [True], the
    position is the target, and the pulses are as many as the steps asked. *)
Lemma v2_move_to_completes (s : list tick) (target speed : Z) (st : MotorStatus)
  (m : StepperMotor) :
  stop_free s = true -> state st <> EMERGENCY_STOP -> speed <> 0 ->
  let c := mkConfig (MoveTo target speed) st m in
  returned (call s c) = Some (Ok true) /\
  current_position (motor (call s c)) = target /\
  state (status (call s c)) = IDLE /\
  Z.of_nat (pulses (call_trace s c)) = Z.abs (target - current_position m).
Proof.
  intros Hs Hst Hv c.
  assert (at_pc (call s c) = Returned true /\
          state (status (call s c)) = IDLE /\
          pulses (call_trace s c) =
            Z.to_nat (Z.abs (target - current_position m))) as (H1 & H2 & H3).
  { unfold call, call_trace. rewrite (stop_free_repeat s Hs), <- repeat_add.
    subst c. unfold ticks_left. cbn [at_pc motor].
    set (n := Z.to_nat (Z.abs (target - current_position m))).
    replace (List.length s + (3 * n + 4))%nat
      with (S (S (3 * n + 2 + List.length s))) by lia.
    cbn [repeat]. rewrite !final_motor, !trace_motor.
    pose proof Hst as Hst'. apply v2_MotorState_eqb_neq in Hst'.
    assert (motor_step (mkConfig (MoveTo target speed) st m) =
            (mkConfig (MoveSteps (target - current_position m) speed)
               (set_target target (set_state MOVING st)) m, [])) as ->.
    { unfold motor_step. simpl. now rewrite Hst'. }
    cbn [fst snd].
    destruct (Z.eq_dec (target - current_position m) 0) as [E | E].
    - rewrite E, v2_step_move_steps_zero. cbn [fst snd].
      match goal with
      | |- context [fin (repeat Motor ?k) ?c0] =>
          destruct (idle_ticks motor_step emergency_stop terminal
                      v2_terminal_stays k c0 eq_refl) as [-> ->]
      end.
      simpl. subst n. rewrite E. auto.
    - rewrite v2_step_move_steps by assumption. cbn [fst snd].
      replace (Z.abs (target - current_position m)) with (Z.of_nat n)
        by (subst n; lia).
      destruct (v2_while_runs n (List.length s) (0 <? target - current_position m)
                  (set_target target (set_state MOVING st)) (set_moving true m))
        as (W1 & W2 & W3); [simpl; discriminate | reflexivity |].
      rewrite W1, W2. cbn [app pulses]. rewrite W3. auto. }
  unfold returned. rewrite H1. repeat split; auto.
  - pose proof (v2_position_accounting
                  (s ++ repeat Motor (ticks_left c)) c) as Hp.
    fold (call s c) in Hp. fold (call_trace s c) in Hp. rewrite Hp, H3.
    unfold heading. simpl. lia.
  - rewrite H3. lia.
Qed.

Lemma v2_refused_run (s : list tick) (c : config) :
  refused c ->
  refused (fin s c) /\
  tr s c = repeat EvStop (List.length (filter (fun t => negb (stop_free [t])) s)) /\
  current_position (motor (fin s c)) = current_position (motor c) /\
  position (status (fin s c)) = position (status c) /\
  target_position (status (fin s c)) = target_position (status c).
Proof.
  revert c; induction s as [|[] s IH]; intros c Hc.
  - unfold final, trace; simpl. auto.
  - rewrite final_motor, trace_motor.
    assert (refused (fst (motor_step c)) /\ snd (motor_step c) = [] /\
            motor (fst (motor_step c)) = motor c /\
            status (fst (motor_step c)) = status c) as (R & E & M & S).
    { destruct Hc as [Hst Hpc].
      destruct c as [[| | | | | | |[]|] st m]; simpl in *; try contradiction;
        unfold motor_step, refused; simpl; rewrite ?Hst; simpl; auto. }
    destruct (IH _ R) as (I1 & I2 & I3 & I4 & I5).
    rewrite E, I2, I3, I4, I5, M, S. simpl. auto.
  - rewrite final_stop, trace_stop.
    assert (refused (emergency_stop c)) as R.
    { destruct Hc as [Hst Hpc]. split; [reflexivity | exact Hpc]. }
    destruct (IH _ R) as (I1 & I2 & I3 & I4 & I5).
    rewrite I2, I3, I4, I5. simpl. auto.
Qed.

End V2Facts.

(** * Python arithmetic *)

Lemma inject_Z_nonzero (b : Z) : b <> 0 -> Qeq_bool (inject_Z b) 0 = false.
Proof.
  intros Hb. destruct (Qeq_bool (inject_Z b) 0) eqn:E; [|reflexivity].
  apply Qeq_bool_iff in E. unfold Qeq in E. simpl in E. lia.
Qed.

Lemma py_truediv_Z (x : Q) (b : Z) :
  b <> 0 -> py_truediv x (inject_Z b) = Ok (x / inject_Z b)%Q.
Proof.
  intros Hb. unfold py_truediv. now rewrite inject_Z_nonzero.
Qed.

Lemma py_truediv_zero (x : Q) : py_truediv x (inject_Z 0) = Raise ZeroDivisionError.
Proof.
  reflexivity.
Qed.

Lemma Qdiv_Z_nonneg (a b : Z) : 0 <= a -> 0 < b -> (0 <= inject_Z a / inject_Z b)%Q.
Proof.
  intros Ha Hb. apply Qle_shift_div_l.
  - change 0%Q with (inject_Z 0). rewrite <- Zlt_Qlt. exact Hb.
  - rewrite Qmult_0_l. change 0%Q with (inject_Z 0). rewrite <- Zle_Qle. exact Ha.
Qed.

(** On a non-negative quotient of integers [int(a / b)] is floor division. *)
Lemma py_int_div (a b : Z) :
  0 <= a -> 0 < b -> py_int (inject_Z a / inject_Z b) = a / b.
Proof.
  intros Ha Hb. unfold py_int.
  pose proof (Qdiv_Z_nonneg a b Ha Hb) as H. apply Qle_bool_iff in H.
  rewrite H. symmetry. apply Zdiv_Qdiv.
Qed.

Lemma py_int_comp (x y : Q) : (x == y)%Q -> py_int x = py_int y.
Proof.
  intros E. unfold py_int.
  assert (Qle_bool 0 x = Qle_bool 0 y) as ->.
  { destruct (Qle_bool 0 x) eqn:Hx, (Qle_bool 0 y) eqn:Hy; auto.
    - apply Qle_bool_iff in Hx. rewrite E in Hx. apply Qle_bool_iff in Hx. congruence.
    - apply Qle_bool_iff in Hy. rewrite <- E in Hy. apply Qle_bool_iff in Hy. congruence. }
  unfold Qceiling. now rewrite (Qfloor_comp _ _ E), E.
Qed.

Lemma py_round_comp (x y : Q) : (x == y)%Q -> py_round x = py_round y.
Proof.
  intros E. unfold py_round. rewrite (Qfloor_comp _ _ E).
  assert ((x - inject_Z (Qfloor y) ?= (1 # 2))%Q = (y - inject_Z (Qfloor y) ?= (1 # 2))%Q) as ->.
  { now rewrite E. }
  reflexivity.
Qed.

Lemma py_round_Z (z : Z) : py_round (inject_Z z) = z.
Proof.
  unfold py_round. rewrite Qfloor_Z.
  assert ((inject_Z z - inject_Z z ?= (1 # 2))%Q = Lt) as ->.
  { apply (proj1 (Qlt_alt _ _)). lra. }
  reflexivity.
Qed.

(** [round] returns a nearest integer. *)
Lemma py_round_nearest (x : Q) :
  (Qabs (inject_Z (py_round x) - x) <= 1 # 2)%Q.
Proof.
  unfold py_round. pose proof (Qfloor_le x) as Hlo. pose proof (Qlt_floor x) as Hhi.
  rewrite inject_Z_plus in Hhi. change (inject_Z 1) with 1%Q in Hhi.
  apply Qabs_Qle_condition.
  destruct (x - inject_Z (Qfloor x) ?= (1 # 2))%Q eqn:C.
  - apply (proj2 (Qeq_alt _ _)) in C.
    destruct (Z.even (Qfloor x)); rewrite ?inject_Z_plus;
      change (inject_Z 1) with 1%Q; split; lra.
  - apply (proj2 (Qlt_alt _ _)) in C. split; lra.
  - apply (proj2 (Qgt_alt _ _)) in C. rewrite inject_Z_plus. change (inject_Z 1) with 1%Q.
    split; lra.
Qed.

(** On a tie [round] returns the even neighbour. *)
Lemma py_round_tie (x : Q) (k : Z) :
  (x == inject_Z k + (1 # 2))%Q ->
  py_round x = if Z.even k then k else k + 1.
Proof.
  intros E. rewrite (py_round_comp _ _ E). unfold py_round.
  assert (Qfloor (inject_Z k + (1 # 2)) = k) as ->.
  { pose proof (Qfloor_le (inject_Z k + (1 # 2))) as Hlo.
    pose proof (Qlt_floor (inject_Z k + (1 # 2))) as Hhi.
    set (f := Qfloor (inject_Z k + (1 # 2))) in *.
    assert (inject_Z f <= inject_Z k + (1 # 2) < inject_Z (f + 1))%Q as [H1 H2] by auto.
    assert (f <= k).
    { apply Z.lt_succ_r. rewrite Zlt_Qlt. unfold Z.succ. rewrite inject_Z_plus.
      change (inject_Z 1) with 1%Q. lra. }
    assert (k < f + 1).
    { rewrite Zlt_Qlt. lra. }
    lia. }
  assert ((inject_Z k + (1 # 2) - inject_Z k ?= (1 # 2))%Q = Eq) as ->.
  { apply (proj1 (Qeq_alt _ _)). lra. }
  reflexivity.
Qed.

Lemma traverse_map {A B : Type} (body : A -> result B) (f : A -> B) (l : list A) :
  (forall a, In a l -> body a = Ok (f a)) -> traverse body l = Ok (map f l).
Proof.
  induction l as [|a l IH]; intros H; simpl.
  - reflexivity.
  - rewrite (H a) by (left; reflexivity). simpl.
    rewrite IH by (intros b Hb; apply H; right; exact Hb). reflexivity.
Qed.

Lemma py_range_length (n : Z) : List.length (py_range n) = Z.to_nat n.
Proof.
  unfold py_range. now rewrite length_map, length_seq.
Qed.

Lemma py_range_In (n i : Z) : In i (py_range n) <-> 0 <= i < n.
Proof.
  unfold py_range. rewrite in_map_iff. split.
  - intros (k & <- & Hk). apply in_seq in Hk. lia.
  - intros Hi. exists (Z.to_nat i). split; [lia|]. apply in_seq. lia.
Qed.

Lemma py_range_nth (n : Z) (k : nat) (d : Z) :
  (k < Z.to_nat n)%nat -> nth k (py_range n) d = Z.of_nat k.
Proof.
  intros Hk. unfold py_range.
  rewrite (nth_indep _ d (Z.of_nat 0)) by (now rewrite length_map, length_seq).
  rewrite map_nth, seq_nth by exact Hk. reflexivity.
Qed.

(** * Revision 3: the move loop with a speed profile *)

Module V3Facts.
Import V3.

Local Abbreviation fin := (final motor_step emergency_stop).
Local Abbreviation tr := (trace motor_step emergency_stop).

Lemma v3_step_event (c : config) :
  snd (motor_step c) = [] \/ snd (motor_step c) = [EvPulse].
Proof.
  destruct c as [[] m]; unfold motor_step; simpl; split_ifs; simpl; auto.
Qed.

Lemma v3_step_stopped (c : config) :
  stopped c ->
  stopped (fst (motor_step c)) /\
  (pulses (snd (motor_step c)) + owed (fst (motor_step c)) <= owed c)%nat.
Proof.
  destruct c as [[] m]; unfold stopped, quiet, owed, motor_step; simpl;
    intros [H | H]; try contradiction; try rewrite H; simpl;
    split_ifs; simpl; auto.
Qed.

Lemma v3_stop_latency (s : list tick) (c : config) :
  (pulses_after_stop (tr s c) <= 1)%nat.
Proof.
  apply (latency motor_step emergency_stop stopped owed).
  - apply v3_step_event.
  - intros c'. left. reflexivity.
  - intros c'. unfold owed. simpl. destruct (at_pc c'); lia.
  - intros c' _. unfold owed. simpl. lia.
  - apply v3_step_stopped.
Qed.

Lemma v3_terminal_stays (c : config) :
  terminal c = true -> motor_step c = (c, []).
Proof.
  destruct c as [[] m]; unfold terminal; simpl; intros H;
    try discriminate; reflexivity.
Qed.

Lemma v3_ticks_step (c : config) :
  terminal c = false ->
  (ticks_left (fst (motor_step c)) < ticks_left c)%nat.
Proof.
  destruct c as [[] m]; unfold terminal, ticks_left, motor_step; simpl;
    intros H; try discriminate; split_ifs; simpl;
    repeat match goal with
      | H : (_ =? _) = true |- _ => apply Z.eqb_eq in H
      | H : (_ =? _) = false |- _ => apply Z.eqb_neq in H
      | H : (_ <? _) = true |- _ => apply Z.ltb_lt in H
      | H : (_ <? _) = false |- _ => apply Z.ltb_ge in H
      | H : negb _ = true |- _ => apply negb_true_iff in H
      | H : negb _ = false |- _ => apply negb_false_iff in H
      end; try lia.
Qed.

(** The fuel of [call] is enough, whatever the interleaving. *)
Lemma v3_call_terminal (s : list tick) (c : config) :
  terminal (call s c) = true.
Proof.
  unfold call.
  apply (call_terminates motor_step emergency_stop terminal ticks_left).
  - apply v3_terminal_stays.
  - reflexivity.
  - intros c'. destruct c' as [[] m]; unfold ticks_left, terminal; simpl;
      intros H; try reflexivity; lia.
  - apply v3_ticks_step.
  - intros c'. unfold ticks_left. simpl. lia.
Qed.

(** After a stop request four more ticks of the move thread end the call,
    whatever happens in between. *)
Lemma v3_halts_after_stop (s : list tick) (c : config) :
  terminal (fin (Stop :: s ++ repeat Motor 4) c) = true.
Proof.
  apply (halts_after_stop motor_step emergency_stop terminal stopped halt_ticks).
  - apply v3_terminal_stays.
  - reflexivity.
  - intros c'. left. reflexivity.
  - intros c'. destruct c' as [[] m]; unfold halt_ticks, terminal; simpl;
      intros H; try reflexivity; lia.
  - intros c' Hs Ht.
    destruct c' as [[] m]; unfold stopped, quiet, halt_ticks, terminal,
      motor_step in *; simpl in *; try discriminate;
      destruct Hs as [Hs | Hs]; try contradiction; try rewrite Hs; simpl;
      split_ifs; simpl; auto; lia.
  - intros c'. unfold halt_ticks. simpl. lia.
  - unfold halt_ticks. simpl. destruct (at_pc c); lia.
Qed.

Lemma v3_call_returns (s : list tick) (c : config) :
  exists r, returned (call s c) = Some r.
Proof.
  pose proof (v3_call_terminal s c) as H. unfold terminal, returned in *.
  destruct (at_pc (call s c)); try discriminate; eauto.
Qed.

(** *** A relative move requested while the flag is set *)

Lemma v3_refused_run (s : list tick) (steps speed acc : Z) (cb : bool)
  (m : MotorController) :
  emergency_stop_flag m = true ->
  let c := mkConfig (MoveSteps steps speed acc cb) m in
  pulses (tr s c) = 0%nat /\ position (mc (fin s c)) = position m.
Proof.
  intros Hf c.
  assert (forall s' c', (at_pc c' = MoveSteps steps speed acc cb /\
                         emergency_stop_flag (mc c') = true) \/ at_pc c' = Done ->
            pulses (tr s' c') = 0%nat /\
            position (mc (fin s' c')) = position (mc c')) as H.
  { induction s' as [|[] s' IH]; intros c' Hc'.
    - split; reflexivity.
    - rewrite trace_motor, final_motor, pulses_app.
      assert (at_pc (fst (motor_step c')) = Done /\ snd (motor_step c') = [] /\
              position (mc (fst (motor_step c'))) = position (mc c'))
        as (D & E & P).
      { destruct c' as [p' m']. simpl in Hc'.
        destruct Hc' as [[-> Hf'] | ->]; unfold motor_step; simpl;
          rewrite ?Hf'; simpl; auto. }
      destruct (IH _ (or_intror D)) as [I1 I2]. rewrite E, I1, I2, P. auto.
    - rewrite trace_stop, final_stop.
      destruct (IH (emergency_stop c')) as [I1 I2].
      { destruct Hc' as [[Hp _] | Hp]; [left | right]; simpl; auto. }
      simpl. rewrite I1, I2. auto. }
  apply (H s c). left. split; [reflexivity | exact Hf].
Qed.

(** When no further stop is requested, the request leaves the flag clear. *)
Lemma v3_refused_clears (s : list tick) (steps speed acc : Z) (cb : bool)
  (m : MotorController) :
  emergency_stop_flag m = true -> stop_free s = true ->
  let c := mkConfig (MoveSteps steps speed acc cb) m in
  returned (call s c) = Some (Ok tt) /\
  emergency_stop_flag (mc (call s c)) = false.
Proof.
  intros Hf Hs c. unfold call.
  rewrite (stop_free_repeat s Hs), <- repeat_add.
  unfold ticks_left. subst c. cbn [at_pc].
  replace (List.length s + (3 * Z.to_nat (Z.abs steps) + 3))%nat
    with (S (List.length s + 3 * Z.to_nat (Z.abs steps) + 2)) by lia.
  cbn [repeat]. rewrite final_motor.
  assert (motor_step (mkConfig (MoveSteps steps speed acc cb) m) =
          (mkConfig Done (set_flag false m), [])) as ->.
  { unfold motor_step. simpl. now rewrite Hf. }
  cbn [fst].
  match goal with
  | |- context [fin (repeat Motor ?k) ?c0] =>
      destruct (idle_ticks motor_step emergency_stop terminal
                  v3_terminal_stays k c0 eq_refl) as [-> _]
  end.
  split; reflexivity.
Qed.

End V3Facts.

(** * Revision 4: the move thread *)

Module V4Facts.
Import V4.

Local Abbreviation fin := (final motor_step env_stop).
Local Abbreviation tr := (trace motor_step env_stop).

Lemma v4_terminal_stays (c : config) :
  terminal c = true -> motor_step c = (c, []).
Proof.
  destruct c as [[] m]; unfold terminal; simpl; intros H;
    try discriminate; reflexivity.
Qed.

Lemma v4_ticks_step (c : config) :
  terminal c = false ->
  (ticks_left (fst (motor_step c)) < ticks_left c)%nat.
Proof.
  destruct c as [[] m]; unfold terminal, ticks_left, motor_step; simpl;
    intros H; try discriminate; split_ifs; simpl;
    repeat match goal with
      | H : (_ =? _) = true |- _ => apply Z.eqb_eq in H
      | H : (_ =? _) = false |- _ => apply Z.eqb_neq in H
      | H : (_ <? _) = true |- _ => apply Z.ltb_lt in H
      | H : (_ <? _) = false |- _ => apply Z.ltb_ge in H
      end; try lia.
Qed.

(** The thread ends, whatever the interleaving. *)
Lemma v4_thread_terminal (s : list tick) (c : config) :
  terminal (fin (s ++ repeat Motor (ticks_left c)) c) = true.
Proof.
  apply (call_terminates motor_step env_stop terminal ticks_left).
  - apply v4_terminal_stays.
  - reflexivity.
  - intros c'. destruct c' as [[] m]; unfold ticks_left, terminal; simpl;
      intros H; try reflexivity; lia.
  - apply v4_ticks_step.
  - intros c'. unfold ticks_left. simpl. lia.
Qed.

(** *** Relative moves *)

Lemma v4_move_to_stopped (target speed acceleration : Z) (m : StepperMotor) :
  emergency_stop m = true -> move_to target speed acceleration m = (m, None).
Proof.
  intros H. unfold move_to. now rewrite H.
Qed.

Lemma v4_move_to_target (target speed acceleration : Z) (m : StepperMotor) :
  emergency_stop m = false ->
  target_position (fst (move_to target speed acceleration m)) = target /\
  current_position (fst (move_to target speed acceleration m)) =
    current_position m.
Proof.
  intros H. unfold move_to. rewrite H. simpl.
  destruct (is_moving m); simpl; auto.
Qed.

(** The step sleeps without an exception when speed and acceleration are
    positive: the division by zero of the first ramp step is caught. *)
Lemma v4_pulse_step (l : locals) (step : Z) (m : StepperMotor) :
  0 < speed l -> 0 < acceleration l -> 0 <= step <= steps_to_move l ->
  motor_step (mkConfig (Pulse l step) m) =
  (mkConfig (For l (step + 1)) m, [EvPulse]).
Proof.
  intros Hs Ha Hi. unfold motor_step. cbn [at_pc motor].
  assert (exists v, current_speed l step = Ok v /\ (0 <= v)%Q) as (v & -> & Hv).
  { unfold current_speed.
    destruct (step <? ramp l).
    - rewrite py_truediv_Z by lia. eexists; split; [reflexivity|].
      apply Qdiv_Z_nonneg; nia.
    - destruct (steps_to_move l - ramp l <? step).
      + rewrite py_truediv_Z by lia. eexists; split; [reflexivity|].
        apply Qdiv_Z_nonneg; nia.
      + eexists; split; [reflexivity|]. lra. }
  assert (exists d, fallback_delay l = Ok d) as [d0 Hd0].
  { unfold fallback_delay. rewrite py_truediv_Z by lia. simpl.
    unfold py_sleep.
    assert (0 <= 1 / inject_Z (speed l))%Q as H.
    { apply (Qdiv_Z_nonneg 1 (speed l)); lia. }
    apply Qle_bool_iff in H. rewrite H. eauto. }
  destruct (primary_delay l v) as [d | e]; [reflexivity|].
  rewrite Hd0. reflexivity.
Qed.

Lemma v4_loop_runs (k j : nat) (l : locals) (step : Z) (m : StepperMotor) :
  0 < speed l -> 0 < acceleration l -> 0 <= step ->
  steps_to_move l - step = Z.of_nat k -> emergency_stop m = false ->
  let c := mkConfig (For l step) m in
  let s := repeat Motor (3 * k + 2 + j) in
  fin s c =
    mkConfig Done (mkMotor (target_position m) (target_position m) false false) /\
  tr s c = repeat EvPulse k.
Proof.
  intros Hs Ha. revert step. induction k as [|k IH]; intros step Hi Hk Hm c s.
  - subst c s. change (3 * 0 + 2 + j)%nat with (S (S j)). cbn [repeat].
    rewrite !final_motor, !trace_motor.
    assert (motor_step (mkConfig (For l step) m) = (mkConfig End_ m, [])) as ->.
    { unfold motor_step. cbn [at_pc motor].
      destruct (Z.ltb_spec step (steps_to_move l)); [lia | reflexivity]. }
    cbn [fst snd].
    assert (motor_step (mkConfig End_ m) =
            (mkConfig Done (mkMotor (target_position m) (target_position m)
                              false false), [])) as ->.
    { unfold motor_step. cbn [at_pc motor]. now rewrite Hm. }
    cbn [fst snd].
    match goal with
    | |- context [fin (repeat Motor j) ?c0] =>
        destruct (idle_ticks motor_step env_stop terminal
                    v4_terminal_stays j c0 eq_refl) as [-> ->]
    end.
    split; reflexivity.
  - subst c s.
    replace (3 * S k + 2 + j)%nat with (S (S (S (3 * k + 2 + j)))) by lia.
    cbn [repeat]. rewrite !final_motor, !trace_motor.
    assert (motor_step (mkConfig (For l step) m) =
            (mkConfig (Check l step) m, [])) as ->.
    { unfold motor_step. cbn [at_pc motor].
      destruct (Z.ltb_spec step (steps_to_move l)); [reflexivity | lia]. }
    cbn [fst snd].
    assert (motor_step (mkConfig (Check l step) m) =
            (mkConfig (Pulse l step) m, [])) as ->.
    { unfold motor_step. cbn [at_pc motor]. now rewrite Hm. }
    cbn [fst snd]. rewrite v4_pulse_step by lia. cbn [fst snd].
    destruct (IH (step + 1)) as [I1 I2]; [lia | lia | assumption |].
    rewrite I1, I2. split; reflexivity.
Qed.

(** A move that nobody interrupts ends at its target, after as many pulses as
    there are steps between the position and the target. *)
Lemma v4_move_to_completes (s : list tick) (target speed acceleration : Z)
  (m : StepperMotor) :
  stop_free s = true -> emergency_stop m = false -> is_moving m = false ->
  0 < speed -> 0 < acceleration ->
  let r := request (move_to target speed acceleration) s m in
  at_pc (fst r) = Done /\
  current_position (motor (fst r)) = target /\
  Z.of_nat (pulses (snd r)) = Z.abs (target - current_position m).
Proof.
  intros Hs He Hm Hv Ha r. subst r. unfold request, move_to.
  rewrite He. cbn [target_position set_target is_moving]. rewrite Hm.
  cbn [negb]. rewrite (stop_free_repeat s Hs), <- repeat_add.
  unfold ticks_left. cbn [at_pc motor set_moving set_target target_position
                            current_position].
  set (n := Z.abs (target - current_position m)).
  set (c := mkConfig (Thread speed acceleration) _).
  change (fst (exec motor_step env_stop ?s0 c)) with (fin s0 c).
  change (snd (exec motor_step env_stop ?s0 c)) with (tr s0 c).
  replace (List.length s + (3 * Z.to_nat n + 3))%nat
    with (S (3 * Z.to_nat n + 2 + List.length s)) by lia.
  cbn [repeat]. rewrite final_motor, trace_motor.
  destruct (Z.eqb_spec n 0) as [E | E].
  - assert (motor_step c = (mkConfig Done (set_moving false (motor c)), []))
      as ->.
    { subst c. unfold motor_step. cbn [at_pc motor set_moving set_target
        target_position current_position]. fold n.
      destruct (Z.eqb_spec n 0); [reflexivity | contradiction]. }
    cbn [fst snd].
    match goal with
    | |- context [fin (repeat Motor ?k) ?c0] =>
        destruct (idle_ticks motor_step env_stop terminal
                    v4_terminal_stays k c0 eq_refl) as [-> ->]
    end.
    subst c. simpl. rewrite E. repeat split; auto. lia.
  - assert (exists a, accel_steps n speed acceleration = Ok a) as [a Hacc].
    { unfold accel_steps. rewrite py_truediv_Z by lia. simpl. eauto. }
    assert (motor_step c =
            (mkConfig (For (mkLocals n a speed acceleration) 0) (motor c), []))
      as ->.
    { subst c. unfold motor_step. cbn [at_pc motor set_moving set_target
        target_position current_position]. fold n.
      destruct (Z.eqb_spec n 0); [contradiction|]. now rewrite Hacc. }
    cbn [fst snd].
    destruct (v4_loop_runs (Z.to_nat n) (List.length s)
                (mkLocals n a speed acceleration) 0 (motor c))
      as [L1 L2];
      [simpl; lia | simpl; lia | lia | simpl; lia | subst c; exact He |].
    rewrite L1, L2. subst c. simpl. rewrite pulses_repeat.
    repeat split; auto. lia.
Qed.

End V4Facts.

(** * The speed profile *)

Lemma Qfloor_min (x y : Q) : Qfloor (Qmin x y) = Z.min (Qfloor x) (Qfloor y).
Proof.
  destruct (Qlt_le_dec y x) as [H | H].
  - rewrite (Qfloor_comp _ _ (Q.min_r x y (Qlt_le_weak _ _ H))).
    pose proof (Qfloor_resp_le _ _ (Qlt_le_weak _ _ H)). lia.
  - rewrite (Qfloor_comp _ _ (Q.min_l x y H)).
    pose proof (Qfloor_resp_le _ _ H). lia.
Qed.

Lemma accel_phase_spec_eq (stepCount speedHz accel : Z) :
  0 <= stepCount -> 0 < accel ->
  accel_phase_spec stepCount speedHz accel =
  Z.min (stepCount / 2) (speedHz * speedHz / (2 * accel)).
Proof.
  intros Hn Ha. unfold accel_phase_spec.
  set (x := Qmin _ _).
  assert (Qfloor x = Z.min (stepCount / 2) (speedHz * speedHz / (2 * accel))) as Hx.
  { subst x. rewrite Qfloor_min. f_equal.
    - change 2%Q with (inject_Z 2). symmetry. apply Zdiv_Qdiv.
    - change 2%Q with (inject_Z 2). rewrite <- !inject_Z_mult.
      symmetry. apply Zdiv_Qdiv. }
  destruct (Qle_bool 1 x) eqn:E; [exact Hx|].
  rewrite <- Hx.
  assert (Qfloor x < 1).
  { rewrite Zlt_Qlt. apply Qle_lt_trans with x; [apply Qfloor_le|].
    apply Qnot_le_lt. intros H. apply (proj2 (Qle_bool_iff 1 x)) in H.
    rewrite E in H. discriminate. }
  assert (0 <= Qfloor x).
  { rewrite Hx. apply Z.min_glb.
    - apply Z.div_pos; lia.
    - apply Z.div_pos; nia. }
  lia.
Qed.

Lemma v3_steps_to_accel_eq (abs_steps speed_hz acceleration : Z) :
  0 <= abs_steps -> 0 < acceleration ->
  V3.steps_to_accel abs_steps speed_hz acceleration =
  Ok (Z.min (abs_steps / 2) (speed_hz * speed_hz / (2 * acceleration))).
Proof.
  intros Hn Ha. unfold V3.steps_to_accel.
  rewrite py_truediv_Z by lia. simpl.
  rewrite py_int_div by nia.
  set (a := Z.min _ _).
  assert (0 <= a).
  { subst a. apply Z.min_glb; apply Z.div_pos; nia. }
  destruct (Z.ltb_spec a 1); f_equal; lia.
Qed.

Lemma v4_accel_steps_eq (steps_to_move speed acceleration : Z) :
  0 < acceleration ->
  V4.accel_steps steps_to_move speed acceleration =
  Ok (Z.min (steps_to_move / 2) (speed * speed / (2 * acceleration))).
Proof.
  intros Ha. unfold V4.accel_steps.
  rewrite py_truediv_Z by lia. simpl.
  rewrite py_int_div by nia. reflexivity.
Qed.

Lemma py_max_floor (v : Q) : (1 <= py_max 1 v)%Q.
Proof.
  unfold py_max. destruct (Qle_bool 1 v) eqn:E.
  - now apply Qle_bool_iff.
  - lra.
Qed.

Lemma py_truediv_ok (x y : Q) : ~ (y == 0)%Q -> py_truediv x y = Ok (x / y)%Q.
Proof.
  intros Hy. unfold py_truediv.
  destruct (Qeq_bool y 0) eqn:E; [|reflexivity].
  apply Qeq_bool_iff in E. contradiction.
Qed.

Lemma inject_Z_neq0 (z : Z) : z <> 0 -> ~ (inject_Z z == 0)%Q.
Proof.
  intros Hz E. unfold Qeq in E. simpl in E. lia.
Qed.

(** Revision 3: every step sleeps [1 / max(1, current_speed)], and the floor
    keeps the divisor at one or more. *)
Lemma v3_delay_floor (l : V3.locals) (i : Z) :
  V3.speed_hz l <> 0 ->
  exists v : Q,
    V3.current_speed l i = Ok v /\
    V3.step_delay l i = Ok (1 / py_max 1 v)%Q /\
    (1 <= py_max 1 v)%Q.
Proof.
  intros Hs.
  assert (exists v, V3.current_speed l i = Ok v) as [v Hv].
  { unfold V3.current_speed.
    destruct (i <? V3.accel_steps l); [rewrite py_truediv_Z by assumption; eauto|].
    destruct (V3.abs_steps l - V3.accel_steps l <? i);
      [rewrite py_truediv_Z by assumption; eauto | eauto]. }
  exists v. split; [exact Hv|]. split; [|apply py_max_floor].
  unfold V3.step_delay, V3.floored_speed. rewrite Hv. simpl.
  apply py_truediv_ok. pose proof (py_max_floor v). lra.
Qed.

Lemma v3_ramp_up_speed (l : V3.locals) (i : Z) :
  V3.speed_hz l <> 0 -> i < V3.accel_steps l ->
  V3.current_speed l i =
  Ok (inject_Z (V3.acceleration l * i) / inject_Z (V3.speed_hz l))%Q.
Proof.
  intros Hs Hi. unfold V3.current_speed.
  destruct (Z.ltb_spec i (V3.accel_steps l)); [|lia].
  now apply py_truediv_Z.
Qed.

Lemma v3_ramp_down_speed (l : V3.locals) (i : Z) :
  V3.speed_hz l <> 0 -> V3.accel_steps l <= i ->
  V3.abs_steps l - V3.accel_steps l < i ->
  V3.current_speed l i =
  Ok (inject_Z (V3.acceleration l * (V3.abs_steps l - i)) /
      inject_Z (V3.speed_hz l))%Q.
Proof.
  intros Hs Hi Hd. unfold V3.current_speed.
  destruct (Z.ltb_spec i (V3.accel_steps l)); [lia|].
  destruct (Z.ltb_spec (V3.abs_steps l - V3.accel_steps l) i); [|lia].
  now apply py_truediv_Z.
Qed.

(** The ramp speed grows by [acceleration / speed_hz] per step. *)
Lemma ramp_speed_linear (a s i : Z) :
  s <> 0 ->
  (inject_Z (a * (i + 1)) / inject_Z s - inject_Z (a * i) / inject_Z s ==
   inject_Z a / inject_Z s)%Q.
Proof.
  intros Hs. rewrite !inject_Z_mult, inject_Z_plus.
  change (inject_Z 1) with 1%Q. field. now apply inject_Z_neq0.
Qed.

(** Revision 3: on the ramp computed by [steps_to_accel] the speed stays at
    or below half the requested speed. *)
Lemma v3_ramp_speed_below_half (n s a i : Z) :
  0 < s -> 0 < a -> 0 <= i ->
  i < Z.min (n / 2) (s * s / (2 * a)) ->
  (inject_Z (a * i) / inject_Z s <= inject_Z s / 2)%Q.
Proof.
  intros Hs Ha Hi Hlt.
  assert (2 * (a * i) <= s * s) as H.
  { assert (i <= s * s / (2 * a)) by lia.
    pose proof (Z.mul_div_le (s * s) (2 * a)). nia. }
  apply Qle_shift_div_r.
  - change 0%Q with (inject_Z 0). now rewrite <- Zlt_Qlt.
  - assert (inject_Z s / 2 * inject_Z s == inject_Z (s * s) / inject_Z 2)%Q as ->.
    { rewrite inject_Z_mult. change (inject_Z 2) with 2%Q. field. }
    apply Qle_shift_div_l; [reflexivity|].
    rewrite <- inject_Z_mult, <- Zle_Qle. lia.
Qed.

(** Revision 4: the first step of a ramp divides by zero; the handler sleeps
    [1 / speed] instead. *)
Lemma v4_first_ramp_step (l : V4.locals) :
  0 < V4.speed l -> 0 < V4.ramp l ->
  exists v : Q,
    V4.current_speed l 0 = Ok v /\
    V4.primary_delay l v = Raise ZeroDivisionError /\
    V4.step_delay l 0 = Ok (1 / inject_Z (V4.speed l))%Q.
Proof.
  intros Hs Hr.
  exists (inject_Z (V4.acceleration l * 0) / inject_Z (V4.speed l))%Q.
  assert (V4.current_speed l 0 =
          Ok (inject_Z (V4.acceleration l * 0) / inject_Z (V4.speed l))%Q) as Hv.
  { unfold V4.current_speed. destruct (Z.ltb_spec 0 (V4.ramp l)); [|lia].
    apply py_truediv_Z. lia. }
  assert (V4.primary_delay l
            (inject_Z (V4.acceleration l * 0) / inject_Z (V4.speed l)) =
          Raise ZeroDivisionError) as Hp.
  { unfold V4.primary_delay, py_truediv.
    assert (Qeq_bool (inject_Z (V4.speed l) *
                      (inject_Z (V4.acceleration l * 0) / inject_Z (V4.speed l))) 0
            = true) as ->; [|reflexivity].
    apply Qeq_bool_iff. rewrite Z.mul_0_r. change (inject_Z 0) with 0%Q.
    field. apply inject_Z_neq0. lia. }
  split; [exact Hv|]. split; [exact Hp|].
  unfold V4.step_delay. rewrite Hv. simpl. rewrite Hp.
  unfold V4.fallback_delay. rewrite py_truediv_Z by lia. simpl.
  unfold py_sleep.
  assert (0 <= 1 / inject_Z (V4.speed l))%Q as H
    by (apply (Qdiv_Z_nonneg 1 (V4.speed l)); lia).
  apply Qle_bool_iff in H. now rewrite H.
Qed.

(** Revision 4: a later step of the ramp-up sleeps
    [1 / (speed * current_speed)], with [current_speed] the linear
    [acceleration * step / speed]. *)
Lemma v4_ramp_up_delay (l : V4.locals) (step : Z) :
  0 < V4.speed l -> 0 < V4.acceleration l -> 0 < step < V4.ramp l ->
  let v := (inject_Z (V4.acceleration l * step) / inject_Z (V4.speed l))%Q in
  V4.current_speed l step = Ok v /\
  V4.step_delay l step = Ok (1 / (inject_Z (V4.speed l) * v))%Q.
Proof.
  intros Hs Ha Hi v. subst v.
  set (s := V4.speed l) in *. set (a := V4.acceleration l) in *.
  assert (V4.current_speed l step = Ok (inject_Z (a * step) / inject_Z s)%Q) as Hv.
  { unfold V4.current_speed. destruct (Z.ltb_spec step (V4.ramp l)); [|lia].
    apply py_truediv_Z. lia. }
  assert (inject_Z s * (inject_Z (a * step) / inject_Z s) == inject_Z (a * step))%Q
    as Hq.
  { field. apply inject_Z_neq0. lia. }
  assert (0 < inject_Z (a * step))%Q as Hpos.
  { change 0%Q with (inject_Z 0). rewrite <- Zlt_Qlt. nia. }
  split; [exact Hv|].
  unfold V4.step_delay. rewrite Hv. simpl.
  unfold V4.primary_delay. fold s.
  rewrite py_truediv_ok by (rewrite Hq; lra). simpl.
  unfold py_sleep.
  assert (0 <= 1 / (inject_Z s * (inject_Z (a * step) / inject_Z s)))%Q as H.
  { rewrite Hq. apply Qle_shift_div_l; [exact Hpos | lra]. }
  apply Qle_bool_iff in H. now rewrite H.
Qed.

(** * The burst plan *)

Lemma v3_position_at_eq (start_pos end_pos num_images i : Z) :
  num_images <> 1 ->
  V3.position_at start_pos end_pos num_images i =
  Ok (py_round (interpolate start_pos end_pos num_images i)).
Proof.
  intros Hn. unfold V3.position_at, interpolate.
  rewrite py_truediv_Z by lia. reflexivity.
Qed.

Lemma v3_positions_eq (start_pos end_pos num_images : Z) :
  num_images <> 1 ->
  V3.positions start_pos end_pos num_images =
  Ok (map (fun i => py_round (interpolate start_pos end_pos num_images i))
        (py_range num_images)).
Proof.
  intros Hn. unfold V3.positions. apply traverse_map.
  intros i _. now apply v3_position_at_eq.
Qed.

Lemma interpolate_first (startPos endPos imageCount : Z) :
  (interpolate startPos endPos imageCount 0 == inject_Z startPos)%Q.
Proof.
  unfold interpolate. rewrite Z.mul_0_r. change (inject_Z 0) with 0%Q.
  unfold Qdiv. rewrite Qmult_0_l. lra.
Qed.

Lemma interpolate_last (startPos endPos imageCount : Z) :
  imageCount <> 1 ->
  (interpolate startPos endPos imageCount (imageCount - 1) == inject_Z endPos)%Q.
Proof.
  intros Hn. unfold interpolate. rewrite inject_Z_mult.
  unfold Zminus at 1. rewrite inject_Z_plus, inject_Z_opp.
  field. apply inject_Z_neq0. lia.
Qed.

Lemma py_round_bounds (x : Q) :
  (x - (1 # 2) <= inject_Z (py_round x) <= x + (1 # 2))%Q.
Proof.
  pose proof (py_round_nearest x) as H.
  apply Qabs_Qle_condition in H. destruct H. split; lra.
Qed.

(** [round] is monotone. *)
Lemma py_round_mono (x y : Q) : (x <= y)%Q -> py_round x <= py_round y.
Proof.
  intros Hxy. destruct (Z_le_gt_dec (py_round x) (py_round y)) as [H | H]; [exact H|].
  exfalso.
  pose proof (py_round_bounds x) as [Hx1 Hx2].
  pose proof (py_round_bounds y) as [Hy1 Hy2].
  assert (inject_Z (py_round y) + 1 <= inject_Z (py_round x))%Q as Hgap.
  { change 1%Q with (inject_Z 1). rewrite <- inject_Z_plus, <- Zle_Qle. lia. }
  assert (x == y)%Q as E by lra.
  rewrite (py_round_comp _ _ E) in H. lia.
Qed.

Lemma interpolate_mono (startPos endPos imageCount i j : Z) :
  startPos <= endPos -> 2 <= imageCount -> i <= j ->
  (interpolate startPos endPos imageCount i <=
   interpolate startPos endPos imageCount j)%Q.
Proof.
  intros Hse Hn Hij. unfold interpolate.
  apply Qplus_le_r. unfold Qdiv. apply Qmult_le_compat_r.
  - rewrite <- Zle_Qle. nia.
  - apply Qinv_le_0_compat. change 0%Q with (inject_Z 0).
    rewrite <- Zle_Qle. lia.
Qed.

(** Revision 3 (exact arithmetic): the plan of a burst of two or more
    images. *)
Lemma v3_positions_plan (startPos endPos imageCount : Z) :
  2 <= imageCount ->
  exists ps : list Z,
    V3.positions startPos endPos imageCount = Ok ps /\
    List.length ps = Z.to_nat imageCount /\
    nth 0 ps 0 = startPos /\
    nth (Z.to_nat (imageCount - 1)) ps 0 = endPos /\
    (forall i : Z,
       0 <= i < imageCount ->
       let x := interpolate startPos endPos imageCount i in
       let p := nth (Z.to_nat i) ps 0 in
       (Qabs (inject_Z p - x) <= 1 # 2)%Q /\
       (forall k : Z,
          (x == inject_Z k + (1 # 2))%Q -> p = if Z.even k then k else k + 1)) /\
    (startPos <= endPos ->
     forall i j : Z,
       0 <= i -> i <= j -> j < imageCount ->
       nth (Z.to_nat i) ps 0 <= nth (Z.to_nat j) ps 0).
Proof.
  intros Hn.
  set (f := fun i => py_round (interpolate startPos endPos imageCount i)).
  assert (forall i, 0 <= i < imageCount ->
            nth (Z.to_nat i) (map f (py_range imageCount)) 0 = f i) as Hnth.
  { intros i Hi.
    rewrite (nth_indep _ 0 (f 0))
      by (rewrite length_map, py_range_length; lia).
    rewrite map_nth, py_range_nth by lia. f_equal. lia. }
  exists (map f (py_range imageCount)).
  split; [apply v3_positions_eq; lia|].
  split; [now rewrite length_map, py_range_length|].
  split; [|split; [|split]].
  - change 0%nat with (Z.to_nat 0). rewrite (Hnth 0) by lia. unfold f.
    rewrite (py_round_comp _ _ (interpolate_first _ _ _)). apply py_round_Z.
  - rewrite (Hnth (imageCount - 1)) by lia. unfold f.
    assert (imageCount <> 1) as Hn1 by lia.
    rewrite (py_round_comp _ _ (interpolate_last startPos endPos imageCount Hn1)).
    apply py_round_Z.
  - intros i Hi x p. subst p. rewrite (Hnth i Hi). unfold f. fold x. split.
    + apply py_round_nearest.
    + intros k. apply py_round_tie.
  - intros Hse i j Hi Hij Hj. rewrite (Hnth i), (Hnth j) by lia. unfold f.
    apply py_round_mono, interpolate_mono; lia.
Qed.

Lemma v2_positions_length (start end_ count : Z) :
  count <> 1 ->
  exists ps : list Z,
    V2.positions start end_ count = Ok ps /\
    List.length ps = Z.to_nat count.
Proof.
  intros Hn. unfold V2.positions. rewrite py_truediv_Z by lia. simpl.
  eexists. split; [reflexivity|]. now rewrite length_map, py_range_length.
Qed.

Lemma v4_positions_length (start_pos end_pos num_images : Z) :
  2 <= num_images ->
  exists ps : list Z,
    V4.positions start_pos end_pos num_images = Ok ps /\
    List.length ps = Z.to_nat num_images.
Proof.
  intros Hn. unfold V4.positions.
  destruct (Z.ltb_spec 1 num_images); [|lia].
  rewrite py_truediv_Z by lia. simpl.
  eexists. split; [reflexivity|]. now rewrite length_map, py_range_length.
Qed.

(** * Burst directories *)

(** Reading a directory suffix back: the number its digits denote. *)
Lemma uint_of_string_zero (s : string) :
  NilEmpty.uint_of_string (String "0"%char s) =
  option_map Decimal.D0 (NilEmpty.uint_of_string s).
Proof.
  simpl. destruct (NilEmpty.uint_of_string s); reflexivity.
Qed.

Lemma decode_zeros (k : nat) (s : string) (u : Decimal.uint) :
  NilEmpty.uint_of_string s = Some u ->
  exists u', NilEmpty.uint_of_string (zeros k +:+ s) = Some u' /\
             Nat.of_uint u' = Nat.of_uint u.
Proof.
  intros Hs. induction k as [|k (u' & H1 & H2)].
  - exists u. auto.
  - change (zeros (S k) +:+ s)%string
      with (String "0"%char (zeros k +:+ s)).
    rewrite uint_of_string_zero, H1. simpl.
    exists (Decimal.D0 u'). split; [reflexivity|]. rewrite <- H2. reflexivity.
Qed.

Lemma format_03d_decode (n : nat) :
  exists u, NilEmpty.uint_of_string (format_03d n) = Some u /\ Nat.of_uint u = n.
Proof.
  unfold format_03d, zfill.
  destruct (decode_zeros (3 - String.length (NilEmpty.string_of_uint (Nat.to_uint n)))
              _ _ (NilEmpty.usu (Nat.to_uint n))) as (u & H1 & H2).
  exists u. split; [exact H1|]. rewrite H2. apply Unsigned.of_to.
Qed.

Lemma append_inj_r (p a b : string) : (p +:+ a = p +:+ b)%string -> a = b.
Proof.
  induction p as [|c p IH]; simpl; intros H; [exact H|].
  injection H as H. auto.
Qed.

(** Distinct numbers give distinct directory names. *)
Lemma burst_name_inj (n m : nat) : burst_name n = burst_name m -> n = m.
Proof.
  unfold burst_name. intros H. apply append_inj_r in H.
  destruct (format_03d_decode n) as (u & H1 & H2).
  destruct (format_03d_decode m) as (v & H3 & H4).
  rewrite H in H1. rewrite H1 in H3. injection H3 as ->. congruence.
Qed.

Lemma path_exists_true (fs : gset string) (name : string) :
  path_exists fs name = true <-> name ∈ fs.
Proof.
  unfold path_exists. apply bool_decide_eq_true.
Qed.

Lemma path_exists_false (fs : gset string) (name : string) :
  path_exists fs name = false <-> name ∉ fs.
Proof.
  unfold path_exists. apply bool_decide_eq_false.
Qed.

(** What the search returns is the lowest unused number from its start. *)
Lemma find_burst_num_some (fuel : nat) (fs : gset string) (start k : nat) :
  find_burst_num fuel fs start = Some k ->
  (start <= k)%nat /\ (burst_name k ∉ fs) /\
  (forall j : nat, (start <= j < k)%nat -> burst_name j ∈ fs).
Proof.
  revert start. induction fuel as [|fuel IH]; intros start H; simpl in H.
  - discriminate.
  - destruct (path_exists fs (burst_name start)) eqn:E.
    + destruct (IH _ H) as (H1 & H2 & H3). split; [lia|]. split; [exact H2|].
      intros j Hj. destruct (Nat.eq_dec j start) as [-> | Hne].
      * now apply path_exists_true.
      * apply H3. lia.
    + injection H as <-. split; [lia|]. split.
      * now apply path_exists_false.
      * intros j Hj. lia.
Qed.

Lemma find_burst_num_none (fuel : nat) (fs : gset string) (start : nat) :
  find_burst_num fuel fs start = None ->
  forall j : nat, (start <= j < start + fuel)%nat -> burst_name j ∈ fs.
Proof.
  revert start. induction fuel as [|fuel IH]; intros start H j Hj; simpl in H.
  - lia.
  - destruct (path_exists fs (burst_name start)) eqn:E; [|discriminate].
    destruct (Nat.eq_dec j start) as [-> | Hne].
    + now apply path_exists_true.
    + apply (IH _ H). lia.
Qed.

(** The search ends: a finite directory cannot hold all of
    [size fs + 1] distinct names. *)
Lemma next_burst_num_total (fs : gset string) (start : nat) :
  exists k : nat, next_burst_num fs start = Some k.
Proof.
  unfold next_burst_num.
  destruct (find_burst_num (S (size fs)) fs start) as [k|] eqn:E; [eauto|].
  exfalso.
  pose proof (find_burst_num_none _ _ _ E) as Hall.
  set (names := map burst_name (seq start (S (size fs)))).
  assert (NoDup names) as Hnd.
  { subst names. apply Finite.Injective_map_NoDup.
    - intros a b. apply burst_name_inj.
    - apply seq_NoDup. }
  assert (list_to_set names ⊆ fs) as Hsub.
  { intros x Hx. apply elem_of_list_to_set in Hx.
    apply list_elem_of_In in Hx. subst names. apply in_map_iff in Hx.
    destruct Hx as (j & <- & Hj). apply in_seq in Hj. apply Hall. lia. }
  apply subseteq_size in Hsub.
  rewrite (size_list_to_set names (proj2 (NoDup_ListNoDup names) Hnd)) in Hsub.
  subst names. rewrite length_map, length_seq in Hsub. lia.
Qed.

Lemma next_burst_num_lowest (fs : gset string) (start : nat) :
  exists k : nat,
    next_burst_num fs start = Some k /\
    (start <= k)%nat /\ (burst_name k ∉ fs) /\
    (forall j : nat, (start <= j < k)%nat -> burst_name j ∈ fs).
Proof.
  destruct (next_burst_num_total fs start) as [k Hk].
  exists k. split; [exact Hk|]. now apply (find_burst_num_some _ _ _ _ Hk).
Qed.

(** * Burst bookkeeping *)

Lemma v2_write_step (total : Z) (o : V2.StreamingOutput) (st : V2.MotorStatus) :
  v2_progress_inv total o st ->
  v2_progress_inv total (fst (V2.write o st)) (snd (V2.write o st)) /\
  V2.burst_count o <= V2.burst_count (fst (V2.write o st)) /\
  (V2.burst_progress st <= V2.burst_progress (snd (V2.write o st)))%Q.
Proof.
  intros (Ht & Hc & Hp). unfold V2.write.
  destruct (V2.burst_mode o && bool_decide (V2.burst_dir o <> None)).
  2:{ simpl. split; [now split|]. split; [lia | lra]. }
  unfold V2.save_burst_image. rewrite Ht.
  destruct (Z.ltb_spec (V2.burst_count o) total) as [Hlt | Hge].
  2:{ simpl. split; [now split|]. split; [lia | lra]. }
  cbn [V2.burst_count V2.burst_total].
  rewrite py_truediv_Z by lia. cbn [fst snd].
  assert (0 < inject_Z total)%Q as Htot.
  { change 0%Q with (inject_Z 0). rewrite <- Zlt_Qlt. lia. }
  assert (inject_Z (V2.burst_count o + 1) / inject_Z total * inject_Z 100 *
          inject_Z total == inject_Z (V2.burst_count o + 1) * 100)%Q as Hnew.
  { change (inject_Z 100) with 100%Q. field. lra. }
  split; [|split].
  - split; [reflexivity|]. split; [simpl; lia|]. simpl. rewrite Hnew. lra.
  - simpl. lia.
  - simpl. apply (Qmult_le_r _ _ (inject_Z total) Htot). rewrite Hnew.
    rewrite inject_Z_plus. change (inject_Z 1) with 1%Q. lra.
Qed.

Lemma v2_frames_arrive_add (j d : nat) (o : V2.StreamingOutput)
  (st : V2.MotorStatus) :
  V2.frames_arrive (j + d) o st =
  V2.frames_arrive d (fst (V2.frames_arrive j o st))
    (snd (V2.frames_arrive j o st)).
Proof.
  revert o st. induction j as [|j IH]; intros o st; simpl.
  - reflexivity.
  - destruct (V2.write o st) as [o' st']. apply IH.
Qed.

Lemma v2_frames_arrive_inv (total : Z) (k : nat) (o : V2.StreamingOutput)
  (st : V2.MotorStatus) :
  v2_progress_inv total o st ->
  v2_progress_inv total (fst (V2.frames_arrive k o st))
    (snd (V2.frames_arrive k o st)) /\
  V2.burst_count o <= V2.burst_count (fst (V2.frames_arrive k o st)) /\
  (V2.burst_progress st <= V2.burst_progress (snd (V2.frames_arrive k o st)))%Q.
Proof.
  revert o st. induction k as [|k IH]; intros o st Hinv; simpl.
  - split; [exact Hinv|]. split; [lia | lra].
  - destruct (v2_write_step total o st Hinv) as (H1 & H2 & H3).
    destruct (V2.write o st) as [o' st']. simpl in *.
    destruct (IH o' st' H1) as (I1 & I2 & I3).
    split; [exact I1|]. split; [lia | lra].
Qed.

(** Revision 3: [int((i + 1) / num_images * 100)] in exact arithmetic. *)
Lemma v3_progress_at_eq (num_images i : Z) :
  0 < num_images -> 0 <= i ->
  V3.progress_at num_images i = Ok ((i + 1) * 100 / num_images).
Proof.
  intros Hn Hi. unfold V3.progress_at. rewrite py_truediv_Z by lia. simpl.
  f_equal.
  rewrite (py_int_comp _ (inject_Z ((i + 1) * 100) / inject_Z num_images)).
  - apply py_int_div; lia.
  - rewrite inject_Z_mult. field. apply inject_Z_neq0. lia.
Qed.

Lemma traverse_length {A B : Type} (body : A -> result B) (l : list A)
  (bs : list B) :
  traverse body l = Ok bs -> List.length bs = List.length l.
Proof.
  revert bs. induction l as [|a l IH]; intros bs H; simpl in H.
  - injection H as <-. reflexivity.
  - destruct (body a) as [b | e]; simpl in H; [|discriminate].
    destruct (traverse body l) as [bs' | e]; simpl in H; [|discriminate].
    injection H as <-. simpl. f_equal. now apply IH.
Qed.

(** Revision 3: the loop adds at most one image per planned position. *)
Lemma v3_burst_loop_captured (env : V3.burst_env) (burst_dir : string)
  (num_images speed acc : Z) (ps : list Z) :
  forall (i : nat) (w w' : V3.world) (r : result unit),
    V3.burst_loop env burst_dir num_images speed acc i ps w = Some (w', r) ->
    (List.length (V3.captured w') <=
     List.length (V3.captured w) + List.length ps)%nat.
Proof.
  induction ps as [|pos rest IH]; intros i w w' r H; simpl in H.
  - injection H as <- <-. lia.
  - destruct (V3.emergency_stop_flag (V3.w_mc w)).
    { injection H as <- <-. simpl. lia. }
    destruct (V3.progress_at num_images (Z.of_nat i)) as [p | e].
    2:{ injection H as <- <-. simpl. lia. }
    destruct (V3.call_move_to_position _ _ _ _ _) as [[m1 [u | e]]|].
    + destruct (V3.capture_file env i) as [u' | e].
      * apply IH in H. simpl in H. rewrite length_app in H. simpl in *. lia.
      * injection H as <- <-. simpl. lia.
    + injection H as <- <-. simpl. lia.
    + discriminate.
Qed.

Lemma v3_burst_thread_captured (env : V3.burst_env)
  (start_pos end_pos num_images speed acc : Z) (w w' : V3.world)
  (r : result unit) :
  V3.burst_thread env start_pos end_pos num_images speed acc w = Some (w', r) ->
  (List.length (V3.captured w') <=
   List.length (V3.captured w) + Z.to_nat num_images)%nat.
Proof.
  unfold V3.burst_thread. intros H.
  destruct (allocate_dir (V3.w_fs w) 1) as [[[k dir] fs]|]; [|discriminate].
  destruct (V3.call_move_to_position _ _ _ _ _) as [[m1 [u | e]]|].
  - destruct (V3.positions start_pos end_pos num_images) as [ps | e] eqn:Hps.
    + apply traverse_length in Hps. rewrite py_range_length in Hps.
      destruct (V3.burst_loop _ _ _ _ _ _ _ _) as [[w2 [u' | e]]|] eqn:Hl;
        [| |discriminate]; apply v3_burst_loop_captured in Hl; simpl in Hl;
        injection H as <- <-; simpl; lia.
    + injection H as <- <-. simpl. lia.
  - injection H as <- <-. simpl. lia.
  - discriminate.
Qed.

(** * Burst runs return, and what they leave behind *)

Lemma allocate_dir_total (fs : gset string) (start : nat) :
  exists k : nat,
    allocate_dir fs start = Some (k, burst_name k, makedirs fs (burst_name k)).
Proof.
  unfold allocate_dir. destruct (next_burst_num_total fs start) as [k ->].
  eauto.
Qed.

Lemma v2_call_move_to_total (s : list tick) (target speed : Z) (w : V2.world) :
  exists (w' : V2.world) (r : result bool),
    V2.call_move_to s target speed w = Some (w', r).
Proof.
  unfold V2.call_move_to.
  destruct (V2Facts.v2_call_returns s
              (V2.mkConfig (V2.MoveTo target speed) (V2.w_status w) (V2.w_motor w)))
    as [r ->].
  eauto.
Qed.

Lemma v2_burst_loop_total (env : V2.burst_env) (start speed : Z)
  (step_increment : Q) (idx : list Z) :
  forall w : V2.world,
  exists (w' : V2.world) (r : result unit),
    V2.burst_loop env start speed step_increment idx w = Some (w', r).
Proof.
  induction idx as [|i rest IH]; intros w; simpl.
  - eauto.
  - destruct (V2.MotorState_eqb _ _); [eauto|].
    destruct (0 <? i).
    + destruct (v2_call_move_to_total
                  (V2.move_sched env (Z.to_nat i))
                  (V2.target_pos start step_increment i) speed w)
        as (w1 & [b | e] & ->); [|eauto].
      destruct (V2.frames_arrive _ _ _) as [o st]. apply IH.
    + destruct (V2.frames_arrive _ _ _) as [o st]. apply IH.
Qed.

(** Revision 2: [perform_burst] returns, whatever the other threads do. *)
Lemma v2_perform_burst_total (env : V2.burst_env) (start end_ count speed : Z)
  (w : V2.world) :
  exists (w' : V2.world) (r : result unit),
    V2.perform_burst env start end_ count speed w = Some (w', r).
Proof.
  unfold V2.perform_burst.
  destruct (allocate_dir_total (V2.w_fs w) (V2.burst_counter w)) as [k ->].
  destruct (py_truediv _ _) as [q | e]; [|eauto].
  unfold V2.burst_try.
  match goal with
  | |- context [V2.call_move_to ?s ?t ?v ?w0] =>
      destruct (v2_call_move_to_total s t v w0) as (wa & [b | e] & ->)
  end.
  - match goal with
    | |- context [V2.burst_loop ?e ?a ?b ?c ?d ?w0] =>
        destruct (v2_burst_loop_total e a b c d w0) as (w2 & r & ->)
    end.
    eauto.
  - eauto.
Qed.

(** Revision 2: once the burst flags are set, every way out of
    [perform_burst] goes through the [finally] block, which clears them and
    resets the progress. *)
Lemma v2_perform_burst_cleans_up (env : V2.burst_env)
  (start end_ count speed : Z) (w w' : V2.world) (r : result unit) :
  count <> 1 ->
  V2.perform_burst env start end_ count speed w = Some (w', r) ->
  V2.burst_mode (V2.w_output w') = false /\
  V2.burst_dir (V2.w_output w') = None /\
  V2.burst_progress (V2.w_status w') = 0%Q /\
  (V2.state (V2.w_status w') = V2.IDLE \/
   V2.state (V2.w_status w') = V2.EMERGENCY_STOP).
Proof.
  intros Hn. unfold V2.perform_burst.
  destruct (allocate_dir _ _) as [[[k dir] fs]|]; [|discriminate].
  rewrite py_truediv_Z by lia.
  destruct (V2.burst_try _ _ _ _ _ _) as [[w2 r2]|]; [|discriminate].
  intros H. injection H as <- <-. unfold V2.burst_finally. simpl.
  repeat split.
  destruct (V2.MotorState_eqb (V2.state (V2.w_status w2)) V2.EMERGENCY_STOP) eqn:E.
  - right. now apply V2Facts.v2_MotorState_eqb_eq.
  - left. reflexivity.
Qed.

Lemma v3_call_move_to_position_total (s : list tick) (target speed acc : Z)
  (m : V3.MotorController) :
  exists (m' : V3.MotorController) (r : result unit),
    V3.call_move_to_position s target speed acc m = Some (m', r).
Proof.
  unfold V3.call_move_to_position.
  destruct (V3Facts.v3_call_returns s
              (V3.mkConfig (V3.MoveToPosition target speed acc false) m))
    as [r ->].
  eauto.
Qed.

Lemma v3_burst_loop_total (env : V3.burst_env) (burst_dir : string)
  (num_images speed acc : Z) (ps : list Z) :
  forall (i : nat) (w : V3.world),
  exists (w' : V3.world) (r : result unit),
    V3.burst_loop env burst_dir num_images speed acc i ps w = Some (w', r).
Proof.
  induction ps as [|pos rest IH]; intros i w; simpl.
  - eauto.
  - destruct (V3.emergency_stop_flag (V3.w_mc w)); [eauto|].
    destruct (V3.progress_at num_images (Z.of_nat i)) as [p | e]; [|eauto].
    match goal with
    | |- context [V3.call_move_to_position ?s ?t ?v ?a ?m0] =>
        destruct (v3_call_move_to_position_total s t v a m0)
          as (m1 & [u | e] & ->)
    end; [|eauto].
    destruct (V3.capture_file env i) as [u' | e]; [apply IH | eauto].
Qed.

(** Revision 3: [burst_thread] returns or raises, whatever the other threads
    do. *)
Lemma v3_burst_thread_total (env : V3.burst_env)
  (start_pos end_pos num_images speed acc : Z) (w : V3.world) :
  exists (w' : V3.world) (r : result unit),
    V3.burst_thread env start_pos end_pos num_images speed acc w = Some (w', r).
Proof.
  unfold V3.burst_thread.
  destruct (allocate_dir_total (V3.w_fs w) 1) as [k ->].
  match goal with
  | |- context [V3.call_move_to_position ?s ?t ?v ?a ?m0] =>
      destruct (v3_call_move_to_position_total s t v a m0)
        as (m1 & [u | e] & ->)
  end; [|eauto].
  destruct (V3.positions _ _ _) as [ps | e]; [|eauto].
  match goal with
  | |- context [V3.burst_loop ?e ?d ?n ?v ?a ?i ?l ?w0] =>
      destruct (v3_burst_loop_total e d n v a l i w0) as (w2 & [u' | e'] & ->)
  end; eauto.
Qed.

(** Revision 3: a burst that ends without an exception, completed or
    cancelled, leaves the progress at zero. *)
Lemma v3_burst_thread_resets_on_return (env : V3.burst_env)
  (start_pos end_pos num_images speed acc : Z) (w w' : V3.world) :
  V3.burst_thread env start_pos end_pos num_images speed acc w =
    Some (w', Ok tt) ->
  V3.burst_progress (V3.w_mc w') = 0.
Proof.
  unfold V3.burst_thread.
  destruct (allocate_dir _ _) as [[[k dir] fs]|]; [|discriminate].
  destruct (V3.call_move_to_position _ _ _ _ _) as [[m1 [u | e]]|];
    try discriminate.
  destruct (V3.positions _ _ _) as [ps | e]; [|discriminate].
  destruct (V3.burst_loop _ _ _ _ _ _ _ _) as [[w2 [u' | e]]|];
    try discriminate.
  intros H. injection H as <-. reflexivity.
Qed.

Lemma allocate_dir_lowest (fs : gset string) (start : nat) :
  exists k : nat,
    allocate_dir fs start = Some (k, burst_name k, makedirs fs (burst_name k)) /\
    lowest_unused_from fs start k.
Proof.
  destruct (next_burst_num_lowest fs start) as (k & Hk & Hlow).
  exists k. unfold allocate_dir. rewrite Hk. split; [reflexivity | exact Hlow].
Qed.

Lemma allocate_dir_some (fs fs' : gset string) (start k : nat) (dir : string) :
  allocate_dir fs start = Some (k, dir, fs') ->
  dir = burst_name k /\ fs' = makedirs fs dir /\ lowest_unused_from fs start k.
Proof.
  destruct (allocate_dir_lowest fs start) as (k0 & -> & Hlow).
  intros H. injection H as <- <- <-. auto.
Qed.

(** From a directory without burst names the first two searches find 1 and
    then 2. *)
Lemma two_bursts_from_clean (fs : gset string) (k1 k2 : nat) :
  (forall j : nat, burst_name j ∉ fs) ->
  lowest_unused_from fs 1 k1 ->
  lowest_unused_from (makedirs fs (burst_name k1)) 1 k2 ->
  k1 = 1%nat /\ k2 = 2%nat.
Proof.
  intros Hclean (H1 & H2 & H3) (K1 & K2 & K3).
  assert (k1 = 1%nat) as ->.
  { destruct (Nat.eq_dec k1 1) as [E | E]; [exact E|].
    exfalso. apply (Hclean 1%nat), H3. lia. }
  split; [reflexivity|].
  unfold makedirs in *.
  assert (k2 <> 1%nat) as Hne.
  { intros ->. apply K2. set_solver. }
  destruct (Nat.eq_dec k2 2) as [E | E]; [exact E|].
  exfalso.
  assert (burst_name 2 ∈ ({[burst_name 1]} ∪ fs : gset string)) as Hin
    by (apply K3; lia).
  apply elem_of_union in Hin. destruct Hin as [Hin | Hin].
  - apply elem_of_singleton in Hin. apply burst_name_inj in Hin. discriminate.
  - exact (Hclean 2%nat Hin).
Qed.

Lemma v3_burst_loop_fs (env : V3.burst_env) (burst_dir : string)
  (num_images speed acc : Z) (ps : list Z) :
  forall (i : nat) (w w' : V3.world) (r : result unit),
    V3.burst_loop env burst_dir num_images speed acc i ps w = Some (w', r) ->
    V3.w_fs w' = V3.w_fs w.
Proof.
  induction ps as [|pos rest IH]; intros i w w' r H; simpl in H.
  - now injection H as <- <-.
  - destruct (V3.emergency_stop_flag (V3.w_mc w)).
    { now injection H as <- <-. }
    destruct (V3.progress_at num_images (Z.of_nat i)) as [p | e].
    2:{ now injection H as <- <-. }
    destruct (V3.call_move_to_position _ _ _ _ _) as [[m1 [u | e]]|].
    + destruct (V3.capture_file env i) as [u' | e].
      * now apply IH in H.
      * now injection H as <- <-.
    + now injection H as <- <-.
    + discriminate.
Qed.

(** Revision 3: a burst creates the lowest unused directory, counting from
    1. *)
Lemma v3_burst_thread_dir (env : V3.burst_env)
  (start_pos end_pos num_images speed acc : Z) (w : V3.world) :
  exists (w' : V3.world) (r : result unit) (k : nat),
    V3.burst_thread env start_pos end_pos num_images speed acc w = Some (w', r) /\
    V3.w_fs w' = makedirs (V3.w_fs w) (burst_name k) /\
    lowest_unused_from (V3.w_fs w) 1 k.
Proof.
  destruct (v3_burst_thread_total env start_pos end_pos num_images speed acc w)
    as (w' & r & H).
  destruct (allocate_dir_lowest (V3.w_fs w) 1) as (k & Hk & Hlow).
  exists w', r, k. split; [exact H|]. split; [|exact Hlow].
  unfold V3.burst_thread in H. rewrite Hk in H.
  destruct (V3.call_move_to_position _ _ _ _ _) as [[m1 [u | e]]|].
  - destruct (V3.positions _ _ _) as [ps | e].
    + destruct (V3.burst_loop _ _ _ _ _ _ _ _) as [[w2 [u' | e]]|] eqn:Hl;
        [| |discriminate]; apply v3_burst_loop_fs in Hl; simpl in Hl;
        injection H as <- <-; simpl; congruence.
    + now injection H as <- <-.
  - now injection H as <- <-.
  - discriminate.
Qed.

Lemma v2_call_move_to_fs (s : list tick) (target speed : Z) (w w' : V2.world)
  (r : result bool) :
  V2.call_move_to s target speed w = Some (w', r) ->
  V2.w_fs w' = V2.w_fs w /\ V2.burst_counter w' = V2.burst_counter w.
Proof.
  unfold V2.call_move_to. destruct (V2.returned _); [|discriminate].
  intros H. injection H as <- <-. auto.
Qed.

Lemma v2_burst_loop_fs (env : V2.burst_env) (start speed : Z)
  (step_increment : Q) (idx : list Z) :
  forall (w w' : V2.world) (r : result unit),
    V2.burst_loop env start speed step_increment idx w = Some (w', r) ->
    V2.w_fs w' = V2.w_fs w /\ V2.burst_counter w' = V2.burst_counter w.
Proof.
  induction idx as [|i rest IH]; intros w w' r H; simpl in H.
  - injection H as <- <-. auto.
  - destruct (V2.MotorState_eqb _ _).
    { injection H as <- <-. auto. }
    destruct (0 <? i).
    + destruct (V2.call_move_to _ _ _ _) as [[w1 [b | e]]|] eqn:Hc;
        [| |discriminate]; apply v2_call_move_to_fs in Hc.
      * destruct (V2.frames_arrive _ _ _) as [o st].
        apply IH in H. simpl in H. destruct H, Hc. split; congruence.
      * injection H as <- <-. exact Hc.
    + destruct (V2.frames_arrive _ _ _) as [o st].
      apply IH in H. exact H.
Qed.

(** Revision 2: a burst creates the lowest unused directory, counting from
    the global counter, which keeps the number found. *)
Lemma v2_perform_burst_dir (env : V2.burst_env) (start end_ count speed : Z)
  (w : V2.world) :
  exists (w' : V2.world) (r : result unit) (k : nat),
    V2.perform_burst env start end_ count speed w = Some (w', r) /\
    V2.w_fs w' = makedirs (V2.w_fs w) (burst_name k) /\
    V2.burst_counter w' = k /\
    lowest_unused_from (V2.w_fs w) (V2.burst_counter w) k.
Proof.
  destruct (v2_perform_burst_total env start end_ count speed w) as (w' & r & H).
  destruct (allocate_dir_lowest (V2.w_fs w) (V2.burst_counter w))
    as (k & Hk & Hlow).
  exists w', r, k. split; [exact H|].
  unfold V2.perform_burst in H. rewrite Hk in H.
  destruct (py_truediv _ _) as [q | e].
  - unfold V2.burst_try in H.
    destruct (V2.call_move_to _ _ _ _) as [[wa [b | e]]|] eqn:Hc;
      [| |discriminate]; apply v2_call_move_to_fs in Hc; simpl in Hc.
    + destruct (V2.burst_loop _ _ _ _ _ _) as [[w2 r2]|] eqn:Hl; [|discriminate].
      apply v2_burst_loop_fs in Hl. injection H as <- <-.
      unfold V2.burst_finally. simpl. destruct Hl, Hc.
      split; [congruence|]. split; [congruence | exact Hlow].
    + injection H as <- <-. unfold V2.burst_finally. simpl. destruct Hc.
      split; [congruence|]. split; [congruence | exact Hlow].
  - injection H as <- <-. simpl. split; [reflexivity|].
    split; [reflexivity | exact Hlow].
Qed.

(** * The claims *)

(** C1 (defect of revision 4).  A move from position 0 to target 10 is stopped
    after three pulses: [_move_thread] returns on the flag without touching
    [current_position], which therefore still reads 0 although the carriage
    has moved three steps.  (Revision 2 counts every pulse, see
    [V2Facts.v2_position_accounting]; an uninterrupted move ends on its target in
    both, see [V2Facts.v2_move_to_completes] and [V4Facts.v4_move_to_completes].) *)
Theorem c1_v4_interrupted_move_forgets_pulses :
  let m0 := V4.mkMotor 0 0 false false in
  let r := V4.request (V4.move_to 10 1000 1000) (repeat Motor 10 ++ [Stop]) m0 in
  snd r = [EvPulse; EvPulse; EvPulse; EvStop] /\
  pulses (snd r) = 3%nat /\
  V4.at_pc (fst r) = V4.Done /\
  V4.current_position (V4.motor (fst r)) = 0 /\
  V4.target_position (V4.motor (fst r)) = 10.
Proof.
  vm_compute. repeat split.
Qed.













(** C7 (defect of revision 3).  [burst_thread] has no [finally]: when the
    camera raises on the first image the thread dies with the progress at 10,
    and when the move to the second position raises (acceleration 0 divides by
    zero in the ramp length) it dies with the progress at 20 and the motor
    still marked as moving.  Nothing ever resets them.  (Revision 2 resets on
    every exit, see [v2_perform_burst_cleans_up]; revision 3 does when no
    exception is raised, see [v3_burst_thread_resets_on_return].) *)
Theorem c7_v3_exception_leaves_progress :
  let w0 := V3.mkWorld (V3.mkMotor 0 0 false false 0) ∅ [] in
  let lone := fun _ : nat => @nil tick in
  let never := fun _ : nat => false in
  let camera_fails :=
    V3.mkEnv lone never
      (fun i => if Nat.eqb i 0 then Raise CaptureError else Ok tt) in
  let camera_works := V3.mkEnv lone never (fun _ => Ok tt) in
  let outcome := fun x : option (V3.world * result unit) =>
    match x with
    | Some (w, r) =>
        Some (V3.burst_progress (V3.w_mc w), V3.moving (V3.w_mc w), r)
    | None => None
    end in
  outcome (V3.burst_thread camera_fails 0 1000 10 1000 1000 w0) =
    Some (10, false, Raise CaptureError) /\
  outcome (V3.burst_thread camera_works 0 1000 10 1000 0 w0) =
    Some (20, true, Raise ZeroDivisionError) /\
  Binary64.v3_progress_at 10 0 = Ok 10 /\
  Binary64.v3_progress_at 10 1 = Ok 20.
Proof.
  vm_compute. repeat split.
Qed.






(** C10, against the claim.  The motor left by the interrupted move of C1 has
    position 0 and the stale target 10; a relative move of 5 steps requested
    then is dropped: the target stays 10, it does not become 15. *)
Lemma c10_v4_request_after_stop_is_dropped :
  let m0 := V4.mkMotor 0 0 false false in
  let m := V4.motor (fst (V4.request (V4.move_to 10 1000 1000)
                            (repeat Motor 10 ++ [Stop]) m0)) in
  V4.current_position m = 0 /\
  V4.target_position m = 10 /\
  V4.target_position (fst (V4.move 5 "positive" 1000 1000 m)) = 10.
Proof.
  vm_compute. repeat split.
Qed.

(** C10, amended.  [move] hands [move_to] the current target plus or minus
    the steps.  While the emergency-stop flag is clear the new target is that
    sum, wherever the motor is (so a request made during a move is relative
    to the pending target); once the flag is set, as it stays after a move
    interrupted by the emergency stop, the request is dropped and the target
    keeps its value. *)
Theorem c10_relative_move_from_target :
  forall (steps speed acc : Z) (direction : string) (m : V4.StepperMotor),
    (V4.emergency_stop m = false ->
     V4.target_position (fst (V4.move steps direction speed acc m)) =
       (if String.eqb direction "positive"
        then V4.target_position m + steps
        else V4.target_position m - steps) /\
     V4.current_position (fst (V4.move steps direction speed acc m)) =
       V4.current_position m) /\
    (V4.emergency_stop m = true ->
     V4.move steps direction speed acc m = (m, None)).
Proof.
  intros steps speed acc direction m. split; intros He.
  - unfold V4.move.
    destruct (String.eqb direction "positive");
      now apply V4Facts.v4_move_to_target.
  - unfold V4.move.
    destruct (String.eqb direction "positive");
      now apply V4Facts.v4_move_to_stopped.
Qed.

Lemma c10_relative_move_witness :
  V4.target_position
    (fst (V4.move 5 "negative" 1000 1000 (V4.mkMotor 3 20 true false))) = 15 /\
  V4.current_position
    (fst (V4.move 5 "negative" 1000 1000 (V4.mkMotor 3 20 true false))) = 3.
Proof.
  apply (c10_relative_move_from_target 5 1000 1000 "negative"%string
           (V4.mkMotor 3 20 true false)).
  reflexivity.
Defined.

(** * Further properties of the code *)

(** ** Revision 3: what a move does *)

Module V3Moves.
Import V3.

Local Abbreviation fin := (final motor_step emergency_stop).
Local Abbreviation tr := (trace motor_step emergency_stop).

(** The profile of a move whose acceleration is not zero: the ramp is not
    negative, and it is empty when the speed is zero. *)
Lemma v3_steps_to_accel_ok (n speed acc : Z) :
  acc <> 0 ->
  exists a, steps_to_accel n speed acc = Ok a /\ 0 <= a /\ (a = 0 \/ speed <> 0).
Proof.
  intros Ha. unfold steps_to_accel. rewrite py_truediv_Z by lia. cbn [bind].
  set (q := (inject_Z (speed * speed) / inject_Z (2 * acc))%Q).
  destruct (Z.ltb_spec (Z.min (n / 2) (py_int q)) 1) as [H | H].
  - exists 0. split; [reflexivity|]. split; [lia | left; reflexivity].
  - eexists. split; [reflexivity|]. split; [lia|]. right. intros ->.
    assert (py_int q = 0) as E.
    { rewrite (py_int_comp q 0); [reflexivity|]. subst q. simpl.
      unfold Qdiv. rewrite Qmult_0_l. reflexivity. }
    lia.
Qed.

Lemma v3_current_speed_ok (l : locals) (i : Z) :
  accel_steps l = 0 \/ speed_hz l <> 0 -> 0 <= i <= abs_steps l ->
  exists v, current_speed l i = Ok v.
Proof.
  intros [E | E] Hi; unfold current_speed.
  - rewrite E. destruct (Z.ltb_spec i 0); [lia|].
    destruct (Z.ltb_spec (abs_steps l - 0) i); [lia|]. eauto.
  - destruct (i <? accel_steps l); [rewrite py_truediv_Z by exact E; eauto|].
    destruct (abs_steps l - accel_steps l <? i);
      [rewrite py_truediv_Z by exact E; eauto | eauto].
Qed.

Lemma v3_step_delay_ok (l : locals) (i : Z) :
  accel_steps l = 0 \/ speed_hz l <> 0 -> 0 <= i <= abs_steps l ->
  exists d, step_delay l i = Ok d /\ py_sleep d = Ok tt.
Proof.
  intros Hl Hi. destruct (v3_current_speed_ok l i Hl Hi) as [v Hv].
  unfold step_delay, floored_speed. rewrite Hv. cbn [bind].
  pose proof (py_max_floor v) as Hf.
  rewrite py_truediv_ok by (intros E; rewrite E in Hf; lra).
  eexists. split; [reflexivity|]. unfold py_sleep.
  assert (0 <= 1 / py_max 1 v)%Q as H.
  { apply Qle_shift_div_l; lra. }
  apply Qle_bool_iff in H. now rewrite H.
Qed.

Lemma v3_step_pulse (l : locals) (i : Z) (m : MotorController) :
  accel_steps l = 0 \/ speed_hz l <> 0 -> 0 <= i <= abs_steps l ->
  motor_step (mkConfig (Step l i) m) =
  (mkConfig (if callback l && (i mod 100 =? 0) then Raised TypeError
             else For l (i + 1))
     (set_position (position m + direction l) m), [EvPulse]).
Proof.
  intros Hl Hi. destruct (v3_step_delay_ok l i Hl Hi) as (d & Hd & Hs).
  unfold motor_step. cbn [at_pc mc]. rewrite Hd, Hs.
  destruct (callback l && (i mod 100 =? 0)); reflexivity.
Qed.

Lemma v3_loop_runs (k j : nat) (l : locals) (i : Z) (m : MotorController) :
  accel_steps l = 0 \/ speed_hz l <> 0 -> callback l = false -> 0 <= i ->
  abs_steps l - i = Z.of_nat k -> emergency_stop_flag m = false ->
  let c := mkConfig (For l i) m in
  let s := repeat Motor (3 * k + 2 + j) in
  fin s c =
    mkConfig Done
      (mkMotor (position m + direction l * Z.of_nat k) (target_position m)
         false false (burst_progress m)) /\
  tr s c = repeat EvPulse k.
Proof.
  intros Hl Hcb. revert i m. induction k as [|k IH]; intros i m Hi Hk Hm c s.
  - subst c s. change (3 * 0 + 2 + j)%nat with (S (S j)). cbn [repeat].
    rewrite !final_motor, !trace_motor.
    assert (motor_step (mkConfig (For l i) m) = (mkConfig Exit m, [])) as ->.
    { unfold motor_step. cbn [at_pc mc].
      destruct (Z.ltb_spec i (abs_steps l)); [lia | reflexivity]. }
    cbn [fst snd].
    assert (motor_step (mkConfig Exit m) =
            (mkConfig Done (set_moving false m), [])) as -> by reflexivity.
    cbn [fst snd].
    match goal with
    | |- context [fin (repeat Motor j) ?c0] =>
        destruct (idle_ticks motor_step emergency_stop terminal
                    V3Facts.v3_terminal_stays j c0 eq_refl) as [-> ->]
    end.
    split; [|reflexivity]. unfold set_moving. rewrite Hm. f_equal. f_equal. lia.
  - subst c s.
    replace (3 * S k + 2 + j)%nat with (S (S (S (3 * k + 2 + j)))) by lia.
    cbn [repeat]. rewrite !final_motor, !trace_motor.
    assert (motor_step (mkConfig (For l i) m) = (mkConfig (Check l i) m, []))
      as ->.
    { unfold motor_step. cbn [at_pc mc].
      destruct (Z.ltb_spec i (abs_steps l)); [reflexivity | lia]. }
    cbn [fst snd].
    assert (motor_step (mkConfig (Check l i) m) = (mkConfig (Step l i) m, []))
      as ->.
    { unfold motor_step. cbn [at_pc mc]. now rewrite Hm. }
    cbn [fst snd]. rewrite v3_step_pulse by (auto; lia). rewrite Hcb.
    cbn [andb fst snd].
    destruct (IH (i + 1) (set_position (position m + direction l) m))
      as [I1 I2]; [lia | lia | exact Hm |].
    rewrite I1, I2. split; [|reflexivity]. cbn [position set_position
      target_position burst_progress]. f_equal. f_equal. lia.
Qed.

Lemma v3_move_to_position_runs (j : nat) (target speed acc : Z)
  (m : MotorController) :
  emergency_stop_flag m = false -> acc <> 0 ->
  let c := mkConfig (MoveToPosition target speed acc false) m in
  let s := repeat Motor (ticks_left c + j) in
  fin s c = mkConfig Done (arrived target m) /\
  tr s c = repeat EvPulse (Z.to_nat (Z.abs (target - position m))).
Proof.
  intros Hm Ha c s. subst c s. unfold ticks_left, arrived. cbn [at_pc mc].
  set (d := target - position m).
  destruct (Z.eqb_spec d 0) as [E | E].
  - rewrite E.
    replace (3 * Z.to_nat (Z.abs 0) + 4 + j)%nat with (S (3 + j)) by (simpl; lia).
    cbn [repeat]. rewrite final_motor, trace_motor.
    assert (motor_step (mkConfig (MoveToPosition target speed acc false) m) =
            (mkConfig Done m, [])) as ->.
    { unfold motor_step. cbn [at_pc mc]. fold d. rewrite E. reflexivity. }
    cbn [fst snd].
    match goal with
    | |- context [fin (repeat Motor ?k) ?c0] =>
        destruct (idle_ticks motor_step emergency_stop terminal
                    V3Facts.v3_terminal_stays k c0 eq_refl) as [-> ->]
    end.
    split; reflexivity.
  - replace (3 * Z.to_nat (Z.abs d) + 4 + j)%nat
      with (S (S (3 * Z.to_nat (Z.abs d) + 2 + j))) by lia.
    cbn [repeat]. rewrite !final_motor, !trace_motor.
    assert (motor_step (mkConfig (MoveToPosition target speed acc false) m) =
            (mkConfig (MoveSteps d speed acc false) m, [])) as ->.
    { unfold motor_step. cbn [at_pc mc]. fold d.
      destruct (Z.eqb_spec d 0); [contradiction | reflexivity]. }
    cbn [fst snd].
    destruct (v3_steps_to_accel_ok (Z.abs d) speed acc Ha) as (a & Hacc & Ha0 & Hl).
    assert (motor_step (mkConfig (MoveSteps d speed acc false) m) =
            (mkConfig (For (mkLocals (direction_of d) (Z.abs d) a speed acc false) 0)
               (set_moving true m), [])) as ->.
    { unfold motor_step. cbn [at_pc mc]. rewrite Hm, Hacc. reflexivity. }
    cbn [fst snd].
    destruct (v3_loop_runs (Z.to_nat (Z.abs d)) j
                (mkLocals (direction_of d) (Z.abs d) a speed acc false) 0
                (set_moving true m)) as [L1 L2];
      [exact Hl | reflexivity | lia | simpl; lia | exact Hm |].
    rewrite L1, L2. split; [|reflexivity].
    cbn [position set_moving target_position burst_progress direction].
    f_equal. f_equal. unfold direction_of, d in *.
    destruct (Z.ltb_spec 0 (target - position m)); lia.
Qed.

Lemma v3_call_move_to_position_ok (s : list tick) (target speed acc : Z)
  (m : MotorController) :
  stop_free s = true -> emergency_stop_flag m = false -> acc <> 0 ->
  call_move_to_position s target speed acc m = Some (arrived target m, Ok tt).
Proof.
  intros Hs Hm Ha. unfold call_move_to_position, call.
  rewrite (stop_free_repeat s Hs), <- repeat_add, Nat.add_comm.
  destruct (v3_move_to_position_runs (List.length s) target speed acc m Hm Ha)
    as [-> _].
  reflexivity.
Qed.

Lemma v3_step_heading (c : config) :
  position (mc (fst (motor_step c))) =
    position (mc c) + heading c * Z.of_nat (pulses (snd (motor_step c)))
  /\ (heading (fst (motor_step c)) = heading c \/ quiet (fst (motor_step c))).
Proof.
  destruct c as [[] m]; unfold heading, quiet, motor_step, direction_of; simpl;
    split_ifs; simpl; split; auto; try lia.
  all: match goal with H : (0 <? _) = _ |- _ => rewrite H end; auto.
Qed.

Lemma v3_quiet_silent (s : list tick) (c : config) :
  quiet c ->
  pulses (tr s c) = 0%nat /\ position (mc (fin s c)) = position (mc c).
Proof.
  revert c; induction s as [|[] s IH]; intros c Hq.
  - split; reflexivity.
  - rewrite trace_motor, final_motor, pulses_app.
    assert (quiet (fst (motor_step c)) /\ snd (motor_step c) = [] /\
            position (mc (fst (motor_step c))) = position (mc c))
      as (Hq' & Hev & Hp).
    { destruct c as [[] m]; unfold quiet in *; simpl in *;
        try contradiction; auto. }
    destruct (IH _ Hq') as [IH1 IH2]. rewrite Hev, IH1, IH2, Hp. auto.
  - rewrite trace_stop, final_stop.
    destruct (IH (emergency_stop c)) as [IH1 IH2]; [exact Hq|].
    simpl. rewrite IH1, IH2. auto.
Qed.

End V3Moves.



(** X2.  Revision 3, [move_steps]: under every interleaving with stop
    requests, and on every exit (return, stop, exception), the position is
    the position at the start plus or minus the number of pulses emitted. *)
Theorem v3_position_accounting (s : list tick) (c : V3.config) :
  V3.position (V3.mc (final V3.motor_step V3.emergency_stop s c)) =
  V3.position (V3.mc c) +
  V3.heading c * Z.of_nat (pulses (trace V3.motor_step V3.emergency_stop s c)).
Proof.
  revert c; induction s as [|[] s IH]; intros c.
  - unfold final, trace; simpl. lia.
  - rewrite trace_motor, final_motor, pulses_app, IH.
    destruct (V3Moves.v3_step_heading c) as [Hp [Hh | Hq]].
    + rewrite Hp, Hh. lia.
    + destruct (V3Moves.v3_quiet_silent s _ Hq) as [H0 _]. rewrite Hp, H0. lia.
  - rewrite trace_stop, final_stop, IH. simpl. reflexivity.
Qed.



(** X4.  Revision 3, [move_steps]: with acceleration zero the profile
    computation divides by zero after [moving] was set, so the call raises
    ZeroDivisionError without a pulse and [moving] stays set. *)
Theorem v3_zero_acceleration_raises (s : list tick) (steps speed : Z) (cb : bool)
  (m : V3.MotorController) :
  stop_free s = true -> V3.emergency_stop_flag m = false ->
  let c := V3.mkConfig (V3.MoveSteps steps speed 0 cb) m in
  V3.returned (V3.call s c) = Some (Raise ZeroDivisionError) /\
  pulses (V3.call_trace s c) = 0%nat /\
  V3.mc (V3.call s c) = V3.set_moving true m.
Proof.
  intros Hs Hm c. subst c. unfold V3.call, V3.call_trace.
  rewrite (stop_free_repeat s Hs), <- repeat_add. unfold V3.ticks_left.
  cbn [V3.at_pc].
  replace (List.length s + (3 * Z.to_nat (Z.abs steps) + 3))%nat
    with (S (List.length s + (3 * Z.to_nat (Z.abs steps) + 2))) by lia.
  cbn [repeat]. rewrite !final_motor, !trace_motor.
  assert (V3.motor_step (V3.mkConfig (V3.MoveSteps steps speed 0 cb) m) =
          (V3.mkConfig (V3.Raised ZeroDivisionError) (V3.set_moving true m), []))
    as ->.
  { unfold V3.motor_step. cbn [V3.at_pc V3.mc]. rewrite Hm.
    unfold V3.steps_to_accel. change (2 * 0) with 0.
    rewrite py_truediv_zero. reflexivity. }
  cbn [fst snd].
  match goal with
  | |- context [final _ _ (repeat Motor ?k) ?c0] =>
      destruct (idle_ticks V3.motor_step V3.emergency_stop V3.terminal
                  V3Facts.v3_terminal_stays k c0 eq_refl) as [-> ->]
  end.
  repeat split.
Qed.

Lemma v3_zero_acceleration_raises_witness :
  V3.returned (V3.call [] (V3.mkConfig (V3.MoveSteps 10 1000 0 false)
                             (V3.mkMotor 0 0 false false 0))) =
  Some (Raise ZeroDivisionError) /\
  V3.moving (V3.mc (V3.call [] (V3.mkConfig (V3.MoveSteps 10 1000 0 false)
                                  (V3.mkMotor 0 0 false false 0)))) = true.
Proof.
  destruct (v3_zero_acceleration_raises [] 10 1000 false
              (V3.mkMotor 0 0 false false 0) eq_refl eq_refl) as (H1 & _ & H2).
  split; [exact H1 | rewrite H2; reflexivity].
Defined.

(** ** Image files *)

Lemma string_length_append (a b : string) :
  String.length (a +:+ b) = (String.length a + String.length b)%nat.
Proof.
  induction a as [|c a IH]; simpl; [reflexivity | now rewrite IH].
Qed.

Lemma append_inj_l (a b s : string) : (a +:+ s = b +:+ s)%string -> a = b.
Proof.
  revert b. induction a as [|c a IH]; intros [|c' b] H; simpl in H.
  - reflexivity.
  - apply (f_equal String.length) in H.
    rewrite !string_length_append in H. simpl in H. lia.
  - apply (f_equal String.length) in H.
    rewrite !string_length_append in H. simpl in H. lia.
  - injection H as -> H. f_equal. auto.
Qed.

(** Reading the padded digits back. *)
Lemma zfill_decode (w n : nat) :
  exists u, NilEmpty.uint_of_string (zfill w (digits n)) = Some u /\
            Nat.of_uint u = n.
Proof.
  unfold zfill, digits.
  destruct (decode_zeros (w - String.length (NilEmpty.string_of_uint (Nat.to_uint n)))
              _ _ (NilEmpty.usu (Nat.to_uint n))) as (u & H1 & H2).
  exists u. split; [exact H1|]. rewrite H2. apply Unsigned.of_to.
Qed.

Lemma zfill_inj (w n m : nat) : zfill w (digits n) = zfill w (digits m) -> n = m.
Proof.
  intros H.
  destruct (zfill_decode w n) as (u & H1 & H2).
  destruct (zfill_decode w m) as (v & H3 & H4).
  rewrite H in H1. rewrite H1 in H3. injection H3 as ->. congruence.
Qed.

Lemma format_04d_inj (p q : Z) : format_04d p = format_04d q -> p = q.
Proof.
  unfold format_04d.
  destruct (Z.ltb_spec p 0) as [Hp | Hp], (Z.ltb_spec q 0) as [Hq | Hq]; intros H.
  - injection H as H. apply zfill_inj in H. lia.
  - exfalso. destruct (zfill_decode 4 (Z.to_nat q)) as (u & H1 & _).
    rewrite <- H in H1. simpl in H1.
    destruct (NilEmpty.uint_of_string _); discriminate H1.
  - exfalso. destruct (zfill_decode 4 (Z.to_nat p)) as (u & H1 & _).
    rewrite H in H1. simpl in H1.
    destruct (NilEmpty.uint_of_string _); discriminate H1.
  - apply zfill_inj in H. lia.
Qed.

Lemma image_name_injective_aux (burst_dir : string) (p q : Z) :
  image_name burst_dir p = image_name burst_dir q -> p = q.
Proof.
  unfold image_name. intros H.
  apply append_inj_r in H. apply append_inj_r in H. apply append_inj_l in H.
  now apply format_04d_inj.
Qed.

(** X5.  All revisions, the image file name [burst_{pos:04d}.jpeg]: inside
    one burst directory two positions share a file name only if they are
    equal, negative positions and positions of more than four digits
    included. *)
Theorem image_name_injective (burst_dir : string) (p q : Z) :
  image_name burst_dir p = image_name burst_dir q <-> p = q.
Proof.
  split; [apply image_name_injective_aux | now intros ->].
Qed.

(** ** Revision 3: the plan of a burst and its image files *)

Lemma interpolate_gap_le (s e n i j g : Z) :
  2 <= n -> g * (n - 1) <= (e - s) * (j - i) ->
  (interpolate s e n i + inject_Z g <= interpolate s e n j)%Q.
Proof.
  intros Hn Hg. unfold interpolate.
  assert (0 < inject_Z (n - 1))%Q as HN.
  { change 0%Q with (inject_Z 0). rewrite <- Zlt_Qlt. lia. }
  assert (inject_Z g <= inject_Z ((e - s) * (j - i)) / inject_Z (n - 1))%Q as H.
  { apply Qle_shift_div_l; [exact HN|].
    rewrite <- inject_Z_mult, <- Zle_Qle. exact Hg. }
  assert (inject_Z ((e - s) * (j - i)) / inject_Z (n - 1) ==
          inject_Z ((e - s) * j) / inject_Z (n - 1) -
          inject_Z ((e - s) * i) / inject_Z (n - 1))%Q as E.
  { rewrite !inject_Z_mult. unfold Zminus at 2. rewrite inject_Z_plus, inject_Z_opp.
    field. lra. }
  lra.
Qed.

Lemma interpolate_gap_lt (s e n i j g : Z) :
  2 <= n -> g * (n - 1) < (e - s) * (j - i) ->
  (interpolate s e n i + inject_Z g < interpolate s e n j)%Q.
Proof.
  intros Hn Hg. unfold interpolate.
  assert (0 < inject_Z (n - 1))%Q as HN.
  { change 0%Q with (inject_Z 0). rewrite <- Zlt_Qlt. lia. }
  assert (inject_Z g < inject_Z ((e - s) * (j - i)) / inject_Z (n - 1))%Q as H.
  { apply Qlt_shift_div_l; [exact HN|].
    rewrite <- inject_Z_mult, <- Zlt_Qlt. exact Hg. }
  assert (inject_Z ((e - s) * (j - i)) / inject_Z (n - 1) ==
          inject_Z ((e - s) * j) / inject_Z (n - 1) -
          inject_Z ((e - s) * i) / inject_Z (n - 1))%Q as E.
  { rewrite !inject_Z_mult. unfold Zminus at 2. rewrite inject_Z_plus, inject_Z_opp.
    field. lra. }
  lra.
Qed.

Lemma py_round_strict (x y : Q) : (x + 1 < y)%Q -> py_round x < py_round y.
Proof.
  intros H.
  pose proof (py_round_bounds x) as [_ Hx].
  pose proof (py_round_bounds y) as [Hy _].
  rewrite Zlt_Qlt. lra.
Qed.

(** Position [i] of a plan whose travel is exactly one step per image. *)
Lemma interpolate_unit (s e n i : Z) (u : Z) :
  2 <= n -> e - s = u * (n - 1) ->
  (interpolate s e n i == inject_Z (s + u * i))%Q.
Proof.
  intros Hn Hu. unfold interpolate. rewrite Hu.
  rewrite inject_Z_plus, !inject_Z_mult. field.
  change 0%Q with (inject_Z 0). rewrite inject_Z_injective. lia.
Qed.

(** Two images of a plan that travels at least one step per image are taken
    at different positions. *)
Lemma v3_plan_distinct (s e n i j : Z) :
  2 <= n -> n - 1 <= Z.abs (e - s) -> i < j ->
  py_round (interpolate s e n i) <> py_round (interpolate s e n j).
Proof.
  intros Hn Ht Hij.
  destruct (Z.eq_dec (e - s) (n - 1)) as [E1 | N1];
    [|destruct (Z.eq_dec (e - s) (- (n - 1))) as [E2 | N2]].
  - rewrite (py_round_comp _ _ (interpolate_unit s e n i 1 Hn ltac:(lia))).
    rewrite (py_round_comp _ _ (interpolate_unit s e n j 1 Hn ltac:(lia))).
    rewrite !py_round_Z. lia.
  - rewrite (py_round_comp _ _ (interpolate_unit s e n i (-1) Hn ltac:(lia))).
    rewrite (py_round_comp _ _ (interpolate_unit s e n j (-1) Hn ltac:(lia))).
    rewrite !py_round_Z. lia.
  - destruct (Z_lt_le_dec 0 (e - s)) as [Hpos | Hneg].
    + assert (py_round (interpolate s e n i) < py_round (interpolate s e n j));
        [|lia].
      apply py_round_strict. change 1%Q with (inject_Z 1).
      apply interpolate_gap_lt; [exact Hn | nia].
    + assert (py_round (interpolate s e n j) < py_round (interpolate s e n i));
        [|lia].
      apply py_round_strict. change 1%Q with (inject_Z 1).
      apply interpolate_gap_lt; [exact Hn | nia].
Qed.

(** Every position of a plan lies between its two ends. *)
Lemma v3_plan_between (s e n i : Z) :
  2 <= n -> 0 <= i <= n - 1 ->
  Z.min s e <= py_round (interpolate s e n i) <= Z.max s e.
Proof.
  intros Hn Hi.
  pose proof (py_round_comp _ _ (interpolate_first s e n)) as E0.
  pose proof (py_round_comp _ _ (interpolate_last s e n ltac:(lia))) as E1.
  rewrite py_round_Z in E0, E1.
  assert (forall a b, (e - s) * (b - a) >= 0 ->
            py_round (interpolate s e n a) <= py_round (interpolate s e n b))
    as Hmono.
  { intros a b Hab. apply py_round_mono.
    pose proof (interpolate_gap_le s e n a b 0 Hn ltac:(lia)) as H.
    change (inject_Z 0) with 0%Q in H. lra. }
  destruct (Z_le_gt_dec s e) as [Hse | Hse].
  - pose proof (Hmono 0 i ltac:(nia)). pose proof (Hmono i (n - 1) ltac:(nia)).
    lia.
  - pose proof (Hmono i 0 ltac:(nia)). pose proof (Hmono (n - 1) i ltac:(nia)).
    lia.
Qed.

Lemma py_range_NoDup (n : Z) : List.NoDup (py_range n).
Proof.
  unfold py_range. apply Finite.Injective_map_NoDup; [|apply seq_NoDup].
  intros a b H. lia.
Qed.

(** The integers from [lo] to [hi]. *)
Lemma interval_length (lo hi : Z) (l : list Z) :
  List.NoDup l -> (forall p, In p l -> lo <= p <= hi) ->
  Z.of_nat (List.length l) <= Z.max 0 (hi - lo + 1).
Proof.
  intros Hnd Hin.
  pose proof (NoDup_incl_length (l' := map (fun k => lo + k) (py_range (hi - lo + 1)))
                Hnd) as H.
  rewrite length_map, py_range_length in H.
  assert (Datatypes.length l <= Z.to_nat (hi - lo + 1))%nat; [|lia].
  apply H. intros p Hp. apply in_map_iff. exists (p - lo).
  split; [lia|]. apply py_range_In. specialize (Hin p Hp). lia.
Qed.



(** ** Revision 3: bursts *)

Lemma last_cons {A : Type} (a d : A) (l : list A) : last (a :: l) d = last l a.
Proof.
  revert a d. induction l as [|b l IH]; intros a d; [reflexivity|].
  change (last (a :: b :: l) d) with (last (b :: l) d). rewrite !IH. reflexivity.
Qed.

Lemma last_nth {A : Type} (l : list A) (d : A) :
  last l d = nth (List.length l - 1) l d.
Proof.
  induction l as [|a [|b l] IH]; [reflexivity | reflexivity|].
  change (last (a :: b :: l) d) with (last (b :: l) d). rewrite IH.
  cbn [List.length]. replace (S (S (List.length l)) - 1)%nat
    with (S (S (List.length l) - 1)) by lia.
  reflexivity.
Qed.

Lemma v3_arrived_position (target : Z) (m : V3.MotorController) :
  V3.position (V3.arrived target m) = target.
Proof.
  unfold V3.arrived. destruct (Z.eqb_spec (target - V3.position m) 0); simpl; lia.
Qed.

Lemma v3_arrived_flag (target : Z) (m : V3.MotorController) :
  V3.emergency_stop_flag m = false ->
  V3.emergency_stop_flag (V3.arrived target m) = false.
Proof.
  unfold V3.arrived. destruct (target - V3.position m =? 0); auto.
Qed.

(** The images of an undisturbed stretch of the loop are all taken, and the
    loop goes on from the last of their positions. *)
Lemma v3_burst_loop_prefix (env : V3.burst_env) (burst_dir : string)
  (num_images speed acc : Z) (ps1 rest : list Z) :
  0 < num_images -> acc <> 0 ->
  forall (i : nat) (w : V3.world),
    V3.emergency_stop_flag (V3.w_mc w) = false ->
    (forall k, (i <= k < i + List.length ps1)%nat -> V3.undisturbed env k) ->
    exists m1 : V3.MotorController,
      V3.burst_loop env burst_dir num_images speed acc i (ps1 ++ rest) w =
      V3.burst_loop env burst_dir num_images speed acc (i + List.length ps1) rest
        (V3.mkWorld m1 (V3.w_fs w)
           (V3.captured w ++ map (pair burst_dir) ps1)) /\
      V3.emergency_stop_flag m1 = false /\
      V3.position m1 = last ps1 (V3.position (V3.w_mc w)).
Proof.
  intros Hn Ha. induction ps1 as [|pos ps1 IH]; intros i w Hf Henv.
  - exists (V3.w_mc w). cbn [app map List.length last].
    rewrite Nat.add_0_r, app_nil_r. destruct w; auto.
  - destruct (Henv i ltac:(simpl; lia)) as (Hs & Hc & Hd).
    cbn [app V3.burst_loop]. rewrite Hf.
    rewrite v3_progress_at_eq by lia. 
    rewrite V3Moves.v3_call_move_to_position_ok; [|exact Hs|exact Hf|exact Ha].
    rewrite Hc, Hd.
    set (m' := V3.arrived pos _).
    destruct (IH (S i) (V3.mkWorld m' (V3.w_fs w)
                          (V3.captured w ++ [(burst_dir, pos)])))
      as (m1 & E & F & P).
    { apply v3_arrived_flag. exact Hf. }
    { intros k Hk. apply Henv. simpl. lia. }
    exists m1. rewrite E. cbn [V3.w_fs V3.captured V3.w_mc List.length map].
    rewrite <- app_assoc. cbn [app].
    replace (S i + List.length ps1)%nat with (i + S (List.length ps1))%nat by lia.
    split; [reflexivity|]. split; [exact F|].
    rewrite P, last_cons. cbn [V3.w_mc]. subst m'.
    now rewrite v3_arrived_position.
Qed.





(** ** Revision 3: a stop request during a burst *)

Module V3Stops.
Import V3.

Local Abbreviation fin := (final motor_step emergency_stop).

(** An undisturbed tick of a move in flight that is not about to end. *)
Lemma v3_in_flight_step (c : config) :
  in_flight c -> (5 <= ticks_left c)%nat ->
  in_flight (fst (motor_step c)) /\
  S (ticks_left (fst (motor_step c))) = ticks_left c.
Proof.
  destruct c as [[target speed acc cb | steps speed acc cb | l i | l i | l i | | |] m];
    unfold in_flight, ticks_left; cbn [at_pc mc]; intros [Hf H] Ht;
    try contradiction.
  - destruct H as [Ha ->]. unfold motor_step. cbn [at_pc mc].
    destruct (Z.eqb_spec (target - position m) 0) as [E | E].
    + rewrite E in Ht. simpl in Ht. lia.
    + cbn [negb fst at_pc mc]. repeat split; auto; lia.
  - destruct H as [Ha ->]. unfold motor_step. cbn [at_pc mc]. rewrite Hf.
    destruct (V3Moves.v3_steps_to_accel_ok (Z.abs steps) speed acc Ha)
      as (a & -> & Ha0 & Hl).
    cbn [fst at_pc mc set_moving emergency_stop_flag abs_steps accel_steps
         speed_hz callback].
    repeat split; auto; lia.
  - destruct H as (Hl & Hcb & Hi). unfold motor_step. cbn [at_pc mc].
    destruct (Z.ltb_spec i (abs_steps l)) as [L | L].
    + cbn [fst at_pc mc]. repeat split; auto; lia.
    + replace (Z.to_nat (abs_steps l - i)) with 0%nat in Ht by lia. lia.
  - destruct H as (Hl & Hcb & Hi). unfold motor_step. cbn [at_pc mc].
    rewrite Hf. cbn [fst at_pc mc]. repeat split; auto; lia.
  - destruct H as (Hl & Hcb & Hi).
    rewrite V3Moves.v3_step_pulse by (auto; lia). rewrite Hcb.
    cbn [andb fst at_pc mc set_position emergency_stop_flag].
    repeat split; auto; lia.
Qed.

Lemma v3_in_flight_run (t : nat) (c : config) :
  in_flight c -> (t + 4 <= ticks_left c)%nat ->
  in_flight (fin (repeat Motor t) c) /\
  (ticks_left (fin (repeat Motor t) c) + t = ticks_left c)%nat.
Proof.
  revert c. induction t as [|t IH]; intros c Hc Ht.
  - split; [exact Hc | cbn; lia].
  - cbn [repeat]. rewrite final_motor.
    destruct (v3_in_flight_step c Hc ltac:(lia)) as [H1 H2].
    destruct (IH _ H1 ltac:(lia)) as [H3 H4]. split; [exact H3 | lia].
Qed.

Lemma v3_tick_move_to_position (target speed acc : Z) (cb : bool)
  (m : MotorController) :
  target - position m <> 0 ->
  motor_step (mkConfig (MoveToPosition target speed acc cb) m) =
  (mkConfig (MoveSteps (target - position m) speed acc cb) m, []).
Proof.
  intros E. unfold motor_step. cbn [at_pc mc].
  destruct (Z.eqb_spec (target - position m) 0); [contradiction | reflexivity].
Qed.

Lemma v3_tick_refused (steps speed acc : Z) (cb : bool) (m : MotorController) :
  emergency_stop_flag m = true ->
  motor_step (mkConfig (MoveSteps steps speed acc cb) m) =
  (mkConfig Done (set_flag false m), []).
Proof.
  intros E. unfold motor_step. cbn [at_pc mc]. now rewrite E.
Qed.

Lemma v3_tick_for (l : locals) (i : Z) (m : MotorController) :
  i < abs_steps l ->
  motor_step (mkConfig (For l i) m) = (mkConfig (Check l i) m, []).
Proof.
  intros E. unfold motor_step. cbn [at_pc mc].
  destruct (Z.ltb_spec i (abs_steps l)); [reflexivity | lia].
Qed.

Lemma v3_tick_check_stop (l : locals) (i : Z) (m : MotorController) :
  emergency_stop_flag m = true ->
  motor_step (mkConfig (Check l i) m) = (mkConfig Exit (set_flag false m), []).
Proof.
  intros E. unfold motor_step. cbn [at_pc mc]. now rewrite E.
Qed.

Lemma v3_tick_exit (m : MotorController) :
  motor_step (mkConfig Exit m) = (mkConfig Done (set_moving false m), []).
Proof. reflexivity. Qed.

(** A stop request that reaches a move in flight ends it within four ticks,
    and the move clears the flag. *)
Lemma v3_in_flight_stop (j : nat) (c : config) :
  in_flight c -> (5 <= ticks_left c)%nat ->
  let c' := fin (Stop :: repeat Motor (4 + j)) c in
  at_pc c' = Done /\ emergency_stop_flag (mc c') = false.
Proof.
  intros Hc Ht c'. subst c'. rewrite final_stop. cbn [Nat.add repeat].
  assert (forall c0, at_pc c0 = Done ->
            forall k, fin (repeat Motor k) c0 = c0) as Hidle.
  { intros c0 E k.
    apply (idle_ticks motor_step emergency_stop terminal
             V3Facts.v3_terminal_stays k c0).
    unfold terminal. now rewrite E. }
  destruct c as [[target speed acc cb | steps speed acc cb | l i | l i | l i | | |] m];
    unfold in_flight, ticks_left in *; cbn [at_pc mc] in *;
    destruct Hc as [Hf H]; try contradiction;
    rewrite !final_motor; unfold emergency_stop; cbn [at_pc mc].
  - assert (target - position m <> 0) as E.
    { intros E. rewrite E in Ht. simpl in Ht. lia. }
    rewrite v3_tick_move_to_position by exact E. cbn [fst].
    rewrite v3_tick_refused by reflexivity. cbn [fst].
    rewrite !Hidle by reflexivity. split; reflexivity.
  - rewrite v3_tick_refused by reflexivity. cbn [fst].
    rewrite !Hidle by reflexivity. split; reflexivity.
  - destruct H as (Hl & Hcb & Hi).
    assert (i < abs_steps l) as L.
    { destruct (Z.ltb_spec i (abs_steps l)) as [L | L]; [exact L|].
      replace (Z.to_nat (abs_steps l - i)) with 0%nat in Ht by lia. lia. }
    rewrite v3_tick_for by exact L. cbn [fst].
    rewrite v3_tick_check_stop by reflexivity. cbn [fst].
    rewrite v3_tick_exit. cbn [fst].
    rewrite !Hidle by reflexivity. split; reflexivity.
  - rewrite v3_tick_check_stop by reflexivity. cbn [fst].
    rewrite v3_tick_exit. cbn [fst].
    rewrite !Hidle by reflexivity. split; reflexivity.
  - destruct H as (Hl & Hcb & Hi).
    assert (i + 1 < abs_steps l) as L by lia.
    rewrite V3Moves.v3_step_pulse by (auto; lia). rewrite Hcb. cbn [andb fst].
    rewrite v3_tick_for by exact L. cbn [fst].
    rewrite v3_tick_check_stop by reflexivity. cbn [fst].
    rewrite v3_tick_exit. cbn [fst].
    rewrite !Hidle by reflexivity. split; reflexivity.
Qed.

(** A stop request that arrives during a move, before its last step, ends
    the move; the move returns normally with the flag cleared. *)
Lemma v3_stop_swallowed (t : nat) (target speed acc : Z) (m : MotorController) :
  emergency_stop_flag m = false -> acc <> 0 ->
  (t < 3 * Z.to_nat (Z.abs (target - position m)))%nat ->
  exists m' : MotorController,
    call_move_to_position (repeat Motor t ++ [Stop]) target speed acc m =
      Some (m', Ok tt) /\
    emergency_stop_flag m' = false.
Proof.
  intros Hf Ha Ht. unfold call_move_to_position, call.
  set (c := mkConfig (MoveToPosition target speed acc false) m).
  assert (in_flight c) as Hc by (subst c; unfold in_flight; simpl; auto).
  assert (ticks_left c = (3 * Z.to_nat (Z.abs (target - position m)) + 4)%nat)
    as Htl by reflexivity.
  destruct (v3_in_flight_run t c Hc ltac:(lia)) as [H1 H2].
  rewrite <- app_assoc, final_app. cbn [app].
  replace (ticks_left c) with (4 + (ticks_left c - 4))%nat by lia.
  destruct (v3_in_flight_stop (ticks_left c - 4) _ H1 ltac:(lia)) as [E F].
  unfold returned. rewrite E. eexists. split; [reflexivity | exact F].
Qed.

End V3Stops.

Lemma skipn_nth {A : Type} (l : list A) (j : nat) (d : A) :
  (j < List.length l)%nat -> skipn j l = nth j l d :: skipn (S j) l.
Proof.
  revert j. induction l as [|a l IH]; intros j Hj; simpl in Hj; [lia|].
  destruct j as [|j]; [reflexivity|].
  cbn [skipn nth]. rewrite (IH j) by lia. reflexivity.
Qed.

Lemma last_firstn {A : Type} (l : list A) (j : nat) (d d' : A) :
  (1 <= j <= List.length l)%nat -> last (firstn j l) d = nth (j - 1) l d'.
Proof.
  intros Hj. rewrite last_nth, length_firstn, Nat.min_l by lia.
  rewrite nth_firstn. destruct (Nat.ltb_spec (j - 1) j); [|lia].
  apply nth_indep. lia.
Qed.

Lemma v3_plan_nth (s e n : Z) (k : nat) :
  (k < Z.to_nat n)%nat ->
  nth k (map (fun i => py_round (interpolate s e n i)) (py_range n)) 0 =
  py_round (interpolate s e n (Z.of_nat k)).
Proof.
  intros Hk.
  rewrite (nth_indep _ 0 (py_round (interpolate s e n 0)))
    by (rewrite length_map, py_range_length; exact Hk).
  rewrite (map_nth (fun i => py_round (interpolate s e n i))).
  now rewrite py_range_nth.
Qed.

Lemma list_split_at (l : list Z) (j : nat) :
  (1 <= j < List.length l)%nat ->
  exists pre post : list Z,
    l = pre ++ nth j l 0 :: post /\
    List.length pre = j /\
    forall d, last pre d = nth (j - 1) l 0.
Proof.
  intros Hj. exists (firstn j l), (skipn (S j) l). split; [|split].
  - rewrite <- (skipn_nth l j 0) by lia. symmetry. apply firstn_skipn.
  - rewrite length_firstn. lia.
  - intros d. apply last_firstn. lia.
Qed.



(** ** Revision 2: the request handler and the move loop *)

Lemma v2_getattr_emergency_stop (m : V2.StepperMotor) :
  V2.getattr m "emergency_stop" = Some (V2.Boolean false).
Proof.
  unfold V2.getattr, V2.instance_attributes.
  now rewrite !lookup_insert_ne, lookup_singleton_eq by done.
Qed.

Lemma v2_getattr_set_zero (m : V2.StepperMotor) :
  V2.getattr m "set_zero" = Some (V2.Method V2.set_zero).
Proof.
  unfold V2.getattr, V2.instance_attributes, V2.class_attributes.
  rewrite !lookup_insert_ne, lookup_singleton_ne by done.
  now rewrite lookup_singleton_eq.
Qed.

Lemma v2_emergency_stop_request_fails_aux (c : V2.config) :
  V2.handle_api V2.ApiEmergencyStop c = (c, 500) /\
  V2.handle_api V2.ApiSetZero c = (V2.set_zero c, 200).
Proof.
  unfold V2.handle_api, V2.call_method.
  now rewrite v2_getattr_emergency_stop, v2_getattr_set_zero.
Qed.

(** X10.  Revision 2, [/api/emergency_stop]: the constructor stores the
    attribute [emergency_stop = False] on the instance, which hides the
    method of that name, so [motor.emergency_stop()] calls a boolean.  The
    request is answered with status 500 and changes nothing: not the state,
    not [is_moving], not the move in progress. *)
Theorem v2_emergency_stop_request_fails (c : V2.config) :
  V2.handle_api V2.ApiEmergencyStop c = (c, 500) /\
  V2.handle_api V2.ApiSetZero c = (V2.set_zero c, 200).
Proof.
  apply v2_emergency_stop_request_fails_aux.
Qed.

Module V2Serve.
Import V2.

Local Abbreviation fin := (final motor_step emergency_stop).
Local Abbreviation tr := (trace motor_step emergency_stop).

Lemma v2_serve_run (s : list api_tick) (c : config) :
  serve (Run :: s) c =
  (fst (serve s (fst (motor_step c))),
   snd (motor_step c) ++ snd (serve s (fst (motor_step c)))).
Proof.
  cbn [serve]. destruct (motor_step c) as [c1 ev]. cbn [fst snd].
  destruct (serve s c1) as [c2 t]. reflexivity.
Qed.

Lemma v2_handle_live (r : api_request) (c : config) :
  live c ->
  live (fst (handle_api r c)) /\
  pending (fst (handle_api r c)) = pending c /\
  ticks_left (fst (handle_api r c)) = ticks_left c.
Proof.
  intros Hc. destruct r.
  - auto.
  - rewrite (proj1 (v2_emergency_stop_request_fails_aux c)). auto.
  - rewrite (proj2 (v2_emergency_stop_request_fails_aux c)). cbn [fst].
    destruct c as [[] st m]; unfold live, pending, ticks_left, set_zero in *;
      cbn in *; tauto.
Qed.

Lemma v2_live_step (c : config) :
  live c ->
  live (fst (motor_step c)) /\
  (pulses (snd (motor_step c)) + pending (fst (motor_step c)) = pending c)%nat.
Proof.
  destruct c as [[target speed | steps speed | steps speed | d r | d r | d r
                  | r | b | e] st m];
    unfold live, pending; cbn [at_pc status motor]; intros [Hs H];
    try contradiction.
  - unfold motor_step. cbn [at_pc status motor].
    rewrite (proj2 (V2Facts.v2_MotorState_eqb_neq _ _) Hs).
    cbn. split; [split; [discriminate | exact H] | reflexivity].
  - destruct (Z.eq_dec steps 0) as [-> | N].
    + rewrite V2Facts.v2_step_move_steps_zero. cbn. auto.
    + rewrite V2Facts.v2_step_move_steps by assumption. cbn.
      split; [|reflexivity]. split; [exact Hs|]. split; [lia | reflexivity].
  - destruct H as [Hr Hm]. destruct (Z.eq_dec r 0) as [-> | N].
    + rewrite V2Facts.v2_step_while_end. cbn. auto.
    + rewrite V2Facts.v2_step_while by (auto; lia). cbn.
      split; [|reflexivity]. split; [exact Hs|]. split; [lia | exact Hm].
  - destruct H as [Hr Hm]. rewrite V2Facts.v2_step_check by exact Hs. cbn. auto.
  - destruct H as [Hr Hm]. rewrite V2Facts.v2_step_pulse. cbn.
    split; [|lia]. split; [exact Hs|]. split; [lia | exact Hm].
  - subst r. rewrite V2Facts.v2_step_finally by exact Hs. cbn. auto.
  - destruct H as [-> Hi]. cbn. auto.
Qed.

Lemma v2_live_terminal (c : config) :
  live c -> terminal c = true ->
  at_pc c = Returned true /\ state (status c) = IDLE /\ pending c = 0%nat.
Proof.
  destruct c as [[] st m]; unfold live, terminal, pending;
    cbn [at_pc status motor]; intros [Hs H] Ht;
    try discriminate; try contradiction.
  destruct H as [-> Hi]. auto.
Qed.

Lemma v2_serve_runs_out (k : nat) :
  forall c : config,
    live c -> (ticks_left c <= k)%nat ->
    at_pc (fst (serve (repeat Run k) c)) = Returned true /\
    state (status (fst (serve (repeat Run k) c))) = IDLE /\
    pulses (snd (serve (repeat Run k) c)) = pending c.
Proof.
  induction k as [|k IH]; intros c Hc Hk.
  - cbn [repeat serve fst snd pulses].
    destruct (v2_live_terminal c Hc) as (H1 & H2 & H3); [|auto].
    destruct (terminal c) eqn:E; [reflexivity|].
    pose proof (V2Facts.v2_ticks_step c E). lia.
  - cbn [repeat]. rewrite v2_serve_run. cbn [fst snd].
    destruct (v2_live_step c Hc) as [H1 H2].
    destruct (IH (fst (motor_step c)) H1) as (I1 & I2 & I3).
    { destruct (terminal c) eqn:E.
      - rewrite (V2Facts.v2_terminal_stays c E). cbn [fst].
        destruct c as [[] st m]; try discriminate; cbn; lia.
      - pose proof (V2Facts.v2_ticks_step c E). lia. }
    rewrite pulses_app, I3. auto.
Qed.

Lemma v2_serve_live (s : list api_tick) :
  forall (c : config) (k : nat),
    live c -> (ticks_left c <= k)%nat ->
    at_pc (fst (serve (s ++ repeat Run k) c)) = Returned true /\
    state (status (fst (serve (s ++ repeat Run k) c))) = IDLE /\
    pulses (snd (serve (s ++ repeat Run k) c)) = pending c.
Proof.
  induction s as [|[|r] s IH]; intros c k Hc Hk.
  - apply v2_serve_runs_out; assumption.
  - cbn [app]. rewrite v2_serve_run. cbn [fst snd].
    destruct (v2_live_step c Hc) as [H1 H2].
    destruct (IH (fst (motor_step c)) k H1) as (I1 & I2 & I3).
    { destruct (terminal c) eqn:E.
      - rewrite (V2Facts.v2_terminal_stays c E). exact Hk.
      - pose proof (V2Facts.v2_ticks_step c E). lia. }
    rewrite pulses_app, I3. auto.
  - cbn [app serve].
    destruct (v2_handle_live r c Hc) as (H1 & H2 & H3).
    rewrite <- H2. apply IH; [exact H1 | lia].
Qed.

(** The loop of [_move_steps], run to its end: where it leaves the motor and
    the status. *)
Lemma v2_while_runs_to (n k : nat) (d : bool) :
  forall (st : MotorStatus) (m : StepperMotor),
    state st <> EMERGENCY_STOP -> is_moving m = true ->
    let c := mkConfig (While d (Z.of_nat n)) st m in
    let s := repeat Motor (3 * n + 2 + k) in
    let p := current_position m + dir_sign d * Z.of_nat n in
    fin s c =
      mkConfig (Returned true) (mkStatus p p IDLE (burst_progress st))
        (mkMotor p false) /\
    tr s c = repeat EvPulse n.
Proof.
  induction n as [|n IH]; intros st m Hs Hm c s p; subst c s p.
  - change (3 * 0 + 2 + k)%nat with (S (S k)). cbn [repeat].
    rewrite !final_motor, !trace_motor.
    change (Z.of_nat 0) with 0.
    rewrite V2Facts.v2_step_while_end. cbn [fst snd].
    rewrite V2Facts.v2_step_finally by exact Hs. cbn [fst snd].
    match goal with
    | |- context [fin (repeat Motor k) ?c0] =>
        destruct (idle_ticks motor_step emergency_stop terminal
                    V2Facts.v2_terminal_stays k c0 eq_refl) as [-> ->]
    end.
    split; [|reflexivity].
    replace (current_position m + dir_sign d * 0) with (current_position m)
      by lia.
    reflexivity.
  - replace (3 * S n + 2 + k)%nat with (S (S (S (3 * n + 2 + k)))) by lia.
    cbn [repeat]. rewrite !final_motor, !trace_motor.
    rewrite V2Facts.v2_step_while by (auto; lia). cbn [fst snd].
    rewrite V2Facts.v2_step_check by exact Hs. cbn [fst snd].
    rewrite V2Facts.v2_step_pulse. cbn [fst snd].
    replace (Z.of_nat (S n) - 1) with (Z.of_nat n) by lia.
    destruct (IH (set_position (current_position m + dir_sign d) st)
                (mkMotor (current_position m + dir_sign d) (is_moving m)))
      as [I1 I2]; [exact Hs | exact Hm |].
    rewrite I1, I2. split; [|reflexivity].
    cbn [current_position burst_progress set_position].
    replace (current_position m + dir_sign d + dir_sign d * Z.of_nat n)
      with (current_position m + dir_sign d * Z.of_nat (S n)) by lia.
    reflexivity.
Qed.

(** [_move_steps] from its first line, uninterrupted. *)
Lemma v2_move_steps_runs (j : nat) (steps speed : Z) (st : MotorStatus)
  (m : StepperMotor) :
  state st <> EMERGENCY_STOP -> speed <> 0 ->
  let c := mkConfig (MoveSteps steps speed) st m in
  let s := repeat Motor (3 * Z.to_nat (Z.abs steps) + 3 + j) in
  let p := current_position m + steps in
  fin s c =
    mkConfig (Returned true)
      (if steps =? 0 then set_state IDLE st
       else mkStatus p p IDLE (burst_progress st))
      (if steps =? 0 then m else mkMotor p false) /\
  tr s c = repeat EvPulse (Z.to_nat (Z.abs steps)).
Proof.
  intros Hs Hv c s p. subst c s p.
  replace (3 * Z.to_nat (Z.abs steps) + 3 + j)%nat
    with (S (3 * Z.to_nat (Z.abs steps) + 2 + j)) by lia.
  cbn [repeat]. rewrite final_motor, trace_motor.
  destruct (Z.eqb_spec steps 0) as [-> | N].
  - rewrite V2Facts.v2_step_move_steps_zero. cbn [fst snd].
    match goal with
    | |- context [fin (repeat Motor ?k) ?c0] =>
        destruct (idle_ticks motor_step emergency_stop terminal
                    V2Facts.v2_terminal_stays k c0 eq_refl) as [-> ->]
    end.
    split; reflexivity.
  - rewrite V2Facts.v2_step_move_steps by assumption. cbn [fst snd].
    pose proof (v2_while_runs_to (Z.to_nat (Z.abs steps)) j (0 <? steps) st
                  (set_moving true m) Hs eq_refl) as H.
    cbn zeta in H. rewrite Z2Nat.id in H by lia. destruct H as [-> ->].
    split; [|reflexivity]. cbn [current_position set_moving].
    replace (current_position m + dir_sign (0 <? steps) * Z.abs steps)
      with (current_position m + steps); [reflexivity|].
    unfold dir_sign. destruct (Z.ltb_spec 0 steps); lia.
Qed.

Lemma v2_move_relative_runs (j : nat) (steps speed : Z) (st : MotorStatus)
  (m : StepperMotor) :
  state st <> EMERGENCY_STOP -> speed <> 0 ->
  let c := mkConfig (MoveRelative steps speed) st m in
  let s := repeat Motor (ticks_left c + j) in
  let p := current_position m + steps in
  fin s c =
    mkConfig (Returned true)
      (mkStatus (if steps =? 0 then position st else p) p IDLE
         (burst_progress st))
      (if steps =? 0 then m else mkMotor p false) /\
  tr s c = repeat EvPulse (Z.to_nat (Z.abs steps)).
Proof.
  intros Hs Hv c s p. subst c s p. unfold ticks_left. cbn [at_pc].
  replace (3 * Z.to_nat (Z.abs steps) + 4 + j)%nat
    with (S (3 * Z.to_nat (Z.abs steps) + 3 + j)) by lia.
  cbn [repeat]. rewrite final_motor, trace_motor.
  assert (motor_step (mkConfig (MoveRelative steps speed) st m) =
          (mkConfig (MoveSteps steps speed)
             (set_target (current_position m + steps) (set_state MOVING st)) m,
           [])) as ->.
  { unfold motor_step. cbn [at_pc status motor].
    now rewrite (proj2 (V2Facts.v2_MotorState_eqb_neq _ _) Hs). }
  cbn [fst snd].
  destruct (v2_move_steps_runs j steps speed
              (set_target (current_position m + steps) (set_state MOVING st)) m)
    as [-> ->]; [discriminate | exact Hv |].
  split; [|reflexivity]. destruct (steps =? 0); reflexivity.
Qed.

Lemma v2_move_to_runs (j : nat) (target speed : Z) (st : MotorStatus)
  (m : StepperMotor) :
  state st <> EMERGENCY_STOP -> speed <> 0 ->
  let c := mkConfig (MoveTo target speed) st m in
  let s := repeat Motor (ticks_left c + j) in
  let steps := target - current_position m in
  fin s c =
    mkConfig (Returned true)
      (mkStatus (if steps =? 0 then position st else target) target IDLE
         (burst_progress st))
      (if steps =? 0 then m else mkMotor target false) /\
  tr s c = repeat EvPulse (Z.to_nat (Z.abs steps)).
Proof.
  intros Hs Hv c s steps. subst c s. unfold ticks_left. cbn [at_pc motor].
  fold steps.
  replace (3 * Z.to_nat (Z.abs steps) + 4 + j)%nat
    with (S (3 * Z.to_nat (Z.abs steps) + 3 + j)) by lia.
  cbn [repeat]. rewrite final_motor, trace_motor.
  assert (motor_step (mkConfig (MoveTo target speed) st m) =
          (mkConfig (MoveSteps steps speed)
             (set_target target (set_state MOVING st)) m, [])) as ->.
  { unfold motor_step. cbn [at_pc status motor].
    now rewrite (proj2 (V2Facts.v2_MotorState_eqb_neq _ _) Hs). }
  cbn [fst snd].
  destruct (v2_move_steps_runs j steps speed
              (set_target target (set_state MOVING st)) m)
    as [-> ->]; [discriminate | exact Hv |].
  split; [|reflexivity].
  replace (current_position m + steps) with target by (subst steps; lia).
  destruct (steps =? 0); reflexivity.
Qed.

End V2Serve.





(** X13.  Revision 2, [_move_steps] at speed zero: [1.0 / abs(speed)]
    divides by zero before the loop and outside its [try], after the caller
    has set the state.  A relative move of one step or more at speed 0 raises
    ZeroDivisionError without a pulse and leaves the state MOVING, with the
    target [steps] away from a motor that does not move. *)
Theorem v2_zero_speed_raises (s : list tick) (steps : Z)
  (st : V2.MotorStatus) (m : V2.StepperMotor) :
  stop_free s = true -> V2.state st <> V2.EMERGENCY_STOP -> steps <> 0 ->
  let c := V2.mkConfig (V2.MoveRelative steps 0) st m in
  V2.returned (V2.call s c) = Some (Raise ZeroDivisionError) /\
  pulses (V2.call_trace s c) = 0%nat /\
  V2.motor (V2.call s c) = m /\
  V2.status (V2.call s c) =
    V2.mkStatus (V2.position st) (V2.current_position m + steps) V2.MOVING
      (V2.burst_progress st).
Proof.
  intros Hs Hst Hn c. subst c. unfold V2.call, V2.call_trace.
  rewrite (stop_free_repeat s Hs), <- repeat_add. unfold V2.ticks_left.
  cbn [V2.at_pc].
  replace (List.length s + (3 * Z.to_nat (Z.abs steps) + 4))%nat
    with (S (S (List.length s + (3 * Z.to_nat (Z.abs steps) + 2)))) by lia.
  cbn [repeat]. rewrite !final_motor, !trace_motor.
  assert (V2.motor_step (V2.mkConfig (V2.MoveRelative steps 0) st m) =
          (V2.mkConfig (V2.MoveSteps steps 0)
             (V2.set_target (V2.current_position m + steps)
                (V2.set_state V2.MOVING st)) m, [])) as ->.
  { unfold V2.motor_step. cbn [V2.at_pc V2.status V2.motor].
    now rewrite (proj2 (V2Facts.v2_MotorState_eqb_neq _ _) Hst). }
  cbn [fst snd].
  match goal with
  | |- context [V2.motor_step (V2.mkConfig (V2.MoveSteps steps 0) ?st0 m)] =>
      assert (V2.motor_step (V2.mkConfig (V2.MoveSteps steps 0) st0 m) =
              (V2.mkConfig (V2.Raised ZeroDivisionError) st0 m, [])) as ->
  end.
  { unfold V2.motor_step. cbn [V2.at_pc V2.status V2.motor].
    destruct (Z.eqb_spec steps 0); [contradiction | reflexivity]. }
  cbn [fst snd].
  match goal with
  | |- context [final _ _ (repeat Motor ?k) ?c0] =>
      destruct (idle_ticks V2.motor_step V2.emergency_stop V2.terminal
                  V2Facts.v2_terminal_stays k c0 eq_refl) as [-> ->]
  end.
  repeat split.
Qed.

Lemma v2_zero_speed_raises_witness :
  V2.returned
    (V2.call [] (V2.mkConfig (V2.MoveRelative 100 0)
                   (V2.mkStatus 0 0 V2.IDLE 0) (V2.mkMotor 0 false))) =
  Some (Raise ZeroDivisionError) /\
  V2.state
    (V2.status
       (V2.call [] (V2.mkConfig (V2.MoveRelative 100 0)
                      (V2.mkStatus 0 0 V2.IDLE 0) (V2.mkMotor 0 false)))) =
  V2.MOVING.
Proof.
  destruct (v2_zero_speed_raises [] 100 (V2.mkStatus 0 0 V2.IDLE 0)
              (V2.mkMotor 0 false) eq_refl) as (H1 & _ & _ & H2);
    [discriminate | lia |].
  split; [exact H1 | rewrite H2; reflexivity].
Defined.

(** X14.  Revision 2, the position in [motor_status]: every place that
    changes the motor's [current_position] ([_move_steps] after each pulse
    and in its [finally], [set_zero]) also stores it in the status.  So once
    the two agree they agree at every program point of a move, whatever
    requests are served meanwhile. *)
Theorem v2_status_tracks_position (s : list V2.api_tick) (c : V2.config) :
  V2.in_sync c -> V2.in_sync (fst (V2.serve s c)).
Proof.
  revert c. induction s as [|[|r] s IH]; intros c Hc.
  - exact Hc.
  - rewrite V2Serve.v2_serve_run. cbn [fst]. apply IH.
    destruct c as [[] st m]; unfold V2.in_sync, V2.motor_step in *;
      cbn [V2.at_pc V2.status V2.motor] in *; split_ifs; cbn; auto.
  - cbn [V2.serve]. apply IH. destruct r.
    + exact Hc.
    + now rewrite (proj1 (v2_emergency_stop_request_fails_aux c)).
    + rewrite (proj2 (v2_emergency_stop_request_fails_aux c)). reflexivity.
Qed.

Lemma v2_status_tracks_position_witness :
  V2.in_sync
    (fst (V2.serve [V2.Run; V2.Run; V2.Run; V2.Run; V2.Request V2.ApiSetZero;
                    V2.Run; V2.Run; V2.Run; V2.Run]
            (V2.mkConfig (V2.MoveRelative 5 1000) (V2.mkStatus 7 7 V2.IDLE 0)
               (V2.mkMotor 7 false)))).
Proof.
  apply (v2_status_tracks_position
           [V2.Run; V2.Run; V2.Run; V2.Run; V2.Request V2.ApiSetZero;
            V2.Run; V2.Run; V2.Run; V2.Run]
           (V2.mkConfig (V2.MoveRelative 5 1000) (V2.mkStatus 7 7 V2.IDLE 0)
              (V2.mkMotor 7 false))).
  reflexivity.
Defined.

(** ** Revision 2: bursts *)

Lemma v2_write_saves (o : V2.StreamingOutput) (st : V2.MotorStatus) :
  V2.burst_mode o = true -> V2.burst_dir o <> None ->
  0 <= V2.burst_count o < V2.burst_total o ->
  V2.write o st =
  (V2.mkOutput true (V2.burst_dir o) (V2.burst_count o + 1) (V2.burst_total o),
   V2.set_progress
     (inject_Z (V2.burst_count o + 1) / inject_Z (V2.burst_total o) *
      inject_Z 100) st).
Proof.
  intros Hm Hd Hc. unfold V2.write. rewrite Hm, bool_decide_eq_true_2 by exact Hd.
  cbn [andb]. unfold V2.save_burst_image.
  destruct (Z.ltb_spec (V2.burst_count o) (V2.burst_total o)); [|lia].
  cbn [V2.burst_count V2.burst_total]. rewrite py_truediv_Z by lia.
  rewrite Hm. reflexivity.
Qed.

Lemma v2_write_full (o : V2.StreamingOutput) (st : V2.MotorStatus) :
  V2.burst_total o <= V2.burst_count o -> V2.write o st = (o, st).
Proof.
  intros Hc. unfold V2.write, V2.save_burst_image.
  destruct (Z.ltb_spec (V2.burst_count o) (V2.burst_total o)); [lia|].
  destruct (_ && _); reflexivity.
Qed.

Lemma v2_frames_arrive_exact (k : nat) :
  forall (o : V2.StreamingOutput) (st : V2.MotorStatus),
    V2.burst_mode o = true -> V2.burst_dir o <> None ->
    0 <= V2.burst_count o <= V2.burst_total o ->
    let o' := fst (V2.frames_arrive k o st) in
    let st' := snd (V2.frames_arrive k o st) in
    V2.burst_count o' = Z.min (V2.burst_count o + Z.of_nat k) (V2.burst_total o) /\
    V2.burst_total o' = V2.burst_total o /\
    V2.burst_progress st' =
      if (V2.burst_count o <? V2.burst_total o) && (0 <? Z.of_nat k)
      then (inject_Z (V2.burst_count o') / inject_Z (V2.burst_total o) *
            inject_Z 100)%Q
      else V2.burst_progress st.
Proof.
  induction k as [|k IH]; intros o st Hm Hd Hc o' st'; subst o' st'.
  - cbn [V2.frames_arrive fst snd]. rewrite andb_false_r.
    split; [lia|]. split; reflexivity.
  - cbn [V2.frames_arrive].
    destruct (Z.ltb_spec (V2.burst_count o) (V2.burst_total o)) as [L | L].
    + rewrite v2_write_saves by (auto; lia).
      set (o1 := V2.mkOutput _ _ _ _). set (st1 := V2.set_progress _ _).
      destruct (IH o1 st1) as (I1 & I2 & I3);
        [reflexivity | exact Hd | subst o1; simpl; lia |].
      rewrite I3, I2, I1. subst o1 st1.
      cbn [V2.burst_count V2.burst_total V2.burst_progress V2.set_progress].
      split; [lia|]. split; [reflexivity|].
      destruct (Z.ltb_spec 0 (Z.of_nat (S k))); [|lia]. cbn [andb].
      destruct (Z.ltb_spec (V2.burst_count o + 1) (V2.burst_total o)) as [L1 | L1];
        destruct (Z.ltb_spec 0 (Z.of_nat k)) as [L2 | L2]; cbn [andb];
        try reflexivity.
      * replace (Z.min (V2.burst_count o + 1 + Z.of_nat k) (V2.burst_total o))
          with (V2.burst_count o + 1) by lia.
        reflexivity.
      * replace (Z.min (V2.burst_count o + 1 + Z.of_nat k) (V2.burst_total o))
          with (V2.burst_count o + 1) by lia.
        reflexivity.
      * replace (Z.min (V2.burst_count o + 1 + Z.of_nat k) (V2.burst_total o))
          with (V2.burst_count o + 1) by lia.
        reflexivity.
    + rewrite v2_write_full by exact L.
      destruct (IH o st Hm Hd Hc) as (I1 & I2 & I3).
      rewrite I3, I2, I1.
      destruct (Z.ltb_spec (V2.burst_count o) (V2.burst_total o)); [lia|].
      cbn [andb]. split; [lia|]. split; reflexivity.
Qed.



(** X16.  Revision 2, [perform_burst] with [count = 1]: the step increment
    [step_range / (count - 1)] divides by zero before the [try] block, after
    the directory was created and the global counter advanced.  The burst
    raises ZeroDivisionError at once; the motor, the status and the stream
    are as before. *)
Theorem v2_burst_single_image (env : V2.burst_env) (start end_ speed : Z)
  (w : V2.world) :
  exists k : nat,
    V2.perform_burst env start end_ 1 speed w =
      Some (V2.mkWorld (V2.w_status w) (V2.w_motor w) (V2.w_output w)
              (makedirs (V2.w_fs w) (burst_name k)) k,
            Raise ZeroDivisionError) /\
    lowest_unused_from (V2.w_fs w) (V2.burst_counter w) k.
Proof.
  destruct (allocate_dir_lowest (V2.w_fs w) (V2.burst_counter w))
    as (k & Hk & Hlow).
  exists k. split; [|exact Hlow].
  unfold V2.perform_burst. rewrite Hk. change (1 - 1) with 0.
  rewrite py_truediv_zero. reflexivity.
Qed.

Lemma py_int_Z (z : Z) : py_int (inject_Z z) = z.
Proof.
  unfold py_int. destruct (Qle_bool 0 (inject_Z z));
    [apply Qfloor_Z | apply Qceiling_Z].
Qed.

Lemma v2_target_pos_first (start : Z) (step_increment : Q) :
  V2.target_pos start step_increment 0 = start.
Proof.
  unfold V2.target_pos. rewrite (py_int_comp _ (inject_Z start)).
  - apply py_int_Z.
  - change (inject_Z 0) with 0%Q. lra.
Qed.

Lemma v2_call_move_to_ok (s : list tick) (target speed : Z) (w : V2.world) :
  stop_free s = true -> V2.state (V2.w_status w) <> V2.EMERGENCY_STOP ->
  speed <> 0 ->
  exists (st' : V2.MotorStatus) (m' : V2.StepperMotor),
    V2.call_move_to s target speed w =
      Some (V2.mkWorld st' m' (V2.w_output w) (V2.w_fs w) (V2.burst_counter w),
            Ok true) /\
    V2.state st' = V2.IDLE /\ V2.current_position m' = target.
Proof.
  intros Hs Hst Hv. unfold V2.call_move_to, V2.call.
  rewrite (stop_free_repeat s Hs), <- repeat_add, Nat.add_comm.
  destruct (V2Serve.v2_move_to_runs (List.length s) target speed
              (V2.w_status w) (V2.w_motor w) Hst Hv) as [-> _].
  cbn [V2.returned V2.at_pc V2.status V2.motor].
  eexists _, _. split; [reflexivity|]. split; [reflexivity|].
  destruct (Z.eqb_spec (target - V2.current_position (V2.w_motor w)) 0);
    cbn; lia.
Qed.

Lemma v2_frames_arrive_state (k : nat) (o : V2.StreamingOutput)
  (st : V2.MotorStatus) :
  V2.state (snd (V2.frames_arrive k o st)) = V2.state st.
Proof.
  revert o st. induction k as [|k IH]; intros o st; [reflexivity|].
  cbn [V2.frames_arrive]. destruct (V2.write o st) as [o1 st1] eqn:E.
  rewrite IH. unfold V2.write, V2.save_burst_image in E.
  destruct (_ && _); [|now injection E as <- <-].
  destruct (_ <? _); [|now injection E as <- <-].
  destruct (py_truediv _ _); now injection E as <- <-.
Qed.

(** The moves of an undisturbed burst loop. *)
Lemma v2_burst_loop_runs (env : V2.burst_env) (start speed : Z)
  (step_increment : Q) (idx : list Z) :
  speed <> 0 -> (forall k, stop_free (V2.move_sched env k) = true) ->
  (forall i, In i idx -> 0 < i) ->
  forall w : V2.world,
    V2.state (V2.w_status w) <> V2.EMERGENCY_STOP ->
    exists w' : V2.world,
      V2.burst_loop env start speed step_increment idx w = Some (w', Ok tt) /\
      V2.state (V2.w_status w') <> V2.EMERGENCY_STOP /\
      V2.current_position (V2.w_motor w') =
        last (map (V2.target_pos start step_increment) idx)
          (V2.current_position (V2.w_motor w)).
Proof.
  intros Hv Henv. induction idx as [|i idx IH]; intros Hpos w Hst.
  - exists w. cbn. auto.
  - cbn [V2.burst_loop].
    rewrite (proj2 (V2Facts.v2_MotorState_eqb_neq _ _) Hst).
    destruct (Z.ltb_spec 0 i) as [_ | L];
      [|specialize (Hpos i (or_introl eq_refl)); lia].
    destruct (v2_call_move_to_ok (V2.move_sched env (Z.to_nat i))
                (V2.target_pos start step_increment i) speed w
                (Henv _) Hst Hv) as (st1 & m1 & -> & Hi & Hp).
    cbn [V2.w_output V2.w_status V2.w_motor V2.w_fs V2.burst_counter].
    destruct (V2.frames_arrive _ _ st1) as [o2 st2] eqn:E.
    pose proof (v2_frames_arrive_state (V2.frames env (Z.to_nat i))
                  (V2.w_output w) st1) as Hfs.
    rewrite E in Hfs. cbn [snd] in Hfs.
    destruct (IH (fun j Hj => Hpos j (or_intror Hj))
                (V2.mkWorld st2 m1 o2 (V2.w_fs w) (V2.burst_counter w)))
      as (w' & -> & H1 & H2).
    { cbn [V2.w_status]. rewrite Hfs, Hi. discriminate. }
    exists w'. split; [reflexivity|]. split; [exact H1|].
    rewrite H2. cbn [V2.w_motor map]. rewrite last_cons, Hp. reflexivity.
Qed.

Lemma py_range_cons (n : Z) :
  1 <= n ->
  exists rest : list Z, py_range n = 0 :: rest /\ forall i, In i rest -> 0 < i.
Proof.
  intros Hn. unfold py_range.
  replace (Z.to_nat n) with (S (Z.to_nat n - 1)) by lia.
  cbn [seq map]. eexists. split; [reflexivity|].
  intros i Hi. apply in_map_iff in Hi. destruct Hi as (k & <- & Hk).
  apply in_seq in Hk. lia.
Qed.



(** ** Revision 4: the move thread and the requests *)

Module V4System.
Import V4.

Lemma v4_run_tick (s : list sys_tick) (c : config) :
  run (Tick :: s) c =
  (fst (run s (fst (motor_step c))),
   snd (motor_step c) ++ snd (run s (fst (motor_step c)))).
Proof.
  cbn [run]. destruct (motor_step c) as [c1 ev]. cbn [fst snd].
  destruct (run s c1) as [c2 t]. reflexivity.
Qed.

Lemma v4_run_app (s1 s2 : list sys_tick) (c : config) :
  run (s1 ++ s2) c =
  (fst (run s2 (fst (run s1 c))), snd (run s1 c) ++ snd (run s2 (fst (run s1 c)))).
Proof.
  revert c. induction s1 as [|[|r] s1 IH]; intros c.
  - cbn [app run fst snd]. now destruct (run s2 c).
  - cbn [app]. rewrite !v4_run_tick, IH. cbn [fst snd].
    now rewrite app_assoc.
  - cbn [app run]. apply IH.
Qed.

Lemma v4_idle_ticks (k : nat) (c : config) :
  terminal c = true -> run (repeat Tick k) c = (c, []).
Proof.
  intros Ht. induction k as [|k IH]; [reflexivity|].
  cbn [repeat]. rewrite v4_run_tick, (V4Facts.v4_terminal_stays c Ht).
  cbn [fst snd]. now rewrite IH.
Qed.

Lemma v4_step_flag (c : config) :
  emergency_stop (motor (fst (motor_step c))) = emergency_stop (motor c).
Proof.
  destruct c as [[] m]; unfold motor_step; cbn [at_pc motor];
    split_ifs; cbn; congruence.
Qed.

Lemma v4_handle_flag (r : api_request) (c : config) :
  emergency_stop (motor c) = true ->
  handle r c = mkConfig (at_pc c) (motor (handle r c)) /\
  emergency_stop (motor (handle r c)) = true.
Proof.
  intros He. destruct r; unfold handle, move, move_to; cbn;
    rewrite ?He; split_ifs; cbn; rewrite ?He; auto.
Qed.

Lemma v4_dead_step (c : config) :
  dead c ->
  dead (fst (motor_step c)) /\
  (pulses (snd (motor_step c)) + owed (fst (motor_step c)) <= owed c)%nat.
Proof.
  intros [He | [Ht Hm]].
  - split; [left; now rewrite v4_step_flag|].
    destruct c as [[] m]; unfold motor_step, owed; cbn [at_pc motor] in *;
      rewrite ?He; split_ifs; cbn; lia.
  - rewrite (V4Facts.v4_terminal_stays c Ht). cbn [fst snd pulses].
    split; [right; auto | lia].
Qed.

Lemma v4_dead_handle (r : api_request) (c : config) :
  dead c -> dead (handle r c) /\ at_pc (handle r c) = at_pc c.
Proof.
  intros [He | [Ht Hm]].
  - destruct (v4_handle_flag r c He) as [E F].
    split; [left; exact F | rewrite E; reflexivity].
  - destruct r; unfold handle, move, move_to, dead, terminal in *; cbn;
      rewrite ?Hm; split_ifs; cbn; rewrite ?Hm; auto;
      try (cbn in *; discriminate).
Qed.

(** A dead motor stays dead, whatever is asked of it. *)
Lemma v4_dead_run (s : list sys_tick) :
  forall c : config,
    dead c ->
    (pulses (snd (run s c)) <= owed c)%nat /\
    dead (fst (run s c)) /\
    (terminal c = true -> at_pc (fst (run s c)) = at_pc c).
Proof.
  induction s as [|[|r] s IH]; intros c Hd.
  - cbn. split; [lia | auto].
  - rewrite v4_run_tick. cbn [fst snd].
    destruct (v4_dead_step c Hd) as [H1 H2].
    destruct (IH _ H1) as (I1 & I2 & I3).
    rewrite pulses_app. split; [lia|]. split; [exact I2|].
    intros Ht. rewrite (V4Facts.v4_terminal_stays c Ht) in *. cbn [fst] in *.
    auto.
  - cbn [run]. destruct (v4_dead_handle r c Hd) as [H1 H2].
    destruct (IH _ H1) as (I1 & I2 & I3).
    unfold owed in *. rewrite H2 in I1. split; [exact I1|]. split; [exact I2|].
    intros Ht. rewrite I3, H2; [reflexivity|].
    unfold terminal in *. now rewrite H2.
Qed.

Lemma v4_stop_stays (s : list sys_tick) :
  forall c : config,
    emergency_stop (motor c) = true ->
    emergency_stop (motor (fst (run s c))) = true.
Proof.
  induction s as [|[|r] s IH]; intros c He.
  - exact He.
  - rewrite v4_run_tick. cbn [fst]. apply IH. now rewrite v4_step_flag.
  - cbn [run]. apply IH. now apply v4_handle_flag.
Qed.

(** [move_to] on an idle motor starts the thread. *)
Lemma v4_handle_move_to (target speed acceleration : Z) (m : StepperMotor) :
  is_moving m = false -> emergency_stop m = false ->
  handle (ReqMoveTo target speed acceleration) (mkConfig Done m) =
  mkConfig (Thread speed acceleration)
    (mkMotor (current_position m) target true false).
Proof.
  intros Hm He. unfold handle, move_to, set_moving, set_target. cbn.
  rewrite He, Hm. cbn. reflexivity.
Qed.

Lemma v4_accel_steps_ok (n speed acc : Z) :
  0 <= n -> acc <> 0 ->
  exists a, accel_steps n speed acc = Ok a /\ a <= n / 2 /\
            (speed = 0 -> a <= 0).
Proof.
  intros Hn Ha. unfold accel_steps. rewrite py_truediv_Z by lia. cbn [bind].
  eexists. split; [reflexivity|]. split; [lia|]. intros ->.
  rewrite (py_int_comp _ 0).
  - change (py_int 0) with 0. lia.
  - simpl. unfold Qdiv. rewrite Qmult_0_l. reflexivity.
Qed.

(** The first pulse of a thread whose speed is not positive: both delay
    computations fail. *)
Lemma v4_first_pulse_raises (l : locals) (m : StepperMotor) :
  speed l <= 0 -> ramp l <= steps_to_move l / 2 -> 0 <= steps_to_move l ->
  (speed l = 0 -> ramp l <= 0) ->
  exists e, motor_step (mkConfig (Pulse l 0) m) =
            (mkConfig (Raised e) m, [EvPulse]).
Proof.
  intros Hs Hr Hn H0. unfold motor_step. cbn [at_pc motor].
  assert (exists e, fallback_delay l = Raise e) as [e0 Hf].
  { unfold fallback_delay, py_truediv.
    destruct (Qeq_bool (inject_Z (speed l)) 0) eqn:E; [cbn; eauto|].
    cbn [bind]. unfold py_sleep.
    destruct (Qle_bool 0 (1 / inject_Z (speed l))) eqn:E1; [|cbn; eauto].
    exfalso. apply Qle_bool_iff in E1.
    assert (inject_Z (speed l) < 0)%Q as Hneg.
    { apply Qeq_bool_neq in E. change 0%Q with (inject_Z 0).
      rewrite <- Zlt_Qlt. assert (speed l <> 0); [|lia].
      intros E0. apply E. now rewrite E0. }
    assert (1 / inject_Z (speed l) < 0)%Q; [|lra].
    unfold Qdiv. rewrite Qmult_1_l.
    destruct (inject_Z (speed l)) as [[|p|p] d] eqn:Ei; cbn in *;
      unfold Qlt in *; cbn in *; lia. }
  assert (forall v, ((v == 0)%Q \/ (v == 1)%Q) ->
            exists e, primary_delay l v = Raise e) as Hp.
  { intros v Hv. unfold primary_delay, py_truediv.
    destruct (Qeq_bool (inject_Z (speed l) * v) 0) eqn:E; [cbn; eauto|].
    cbn [bind]. unfold py_sleep.
    destruct (Qle_bool 0 (1 / (inject_Z (speed l) * v))) eqn:E1; [|cbn; eauto].
    exfalso. apply Qle_bool_iff in E1. apply Qeq_bool_neq in E.
    destruct Hv as [Hv | Hv].
    - apply E. rewrite Hv. lra.
    - assert (inject_Z (speed l) < 0)%Q as Hneg.
      { change 0%Q with (inject_Z 0). rewrite <- Zlt_Qlt.
        assert (speed l <> 0); [|lia].
        intros E0. apply E. rewrite E0, Hv. reflexivity. }
      assert (1 / (inject_Z (speed l) * v) == 1 / inject_Z (speed l))%Q as Eq.
      { rewrite Hv. now rewrite Qmult_1_r. }
      rewrite Eq in E1.
      destruct (inject_Z (speed l)) as [[|p|p] d] eqn:Ei; cbn in *;
        unfold Qlt, Qle in *; cbn in *; lia. }
  assert (exists v, current_speed l 0 = Ok v /\ ((v == 0)%Q \/ (v == 1)%Q))
    as (v & -> & Hv).
  { unfold current_speed. destruct (Z.ltb_spec 0 (ramp l)) as [L | L].
    - rewrite py_truediv_Z by (intros E; specialize (H0 E); lia).
      eexists. split; [reflexivity|]. left.
      rewrite Z.mul_0_r. unfold Qdiv. now rewrite Qmult_0_l.
    - destruct (Z.ltb_spec (steps_to_move l - ramp l) 0) as [L1 | L1].
      + assert (steps_to_move l / 2 <= steps_to_move l)
          by (apply Z.div_le_upper_bound; lia).
        lia.
      + eexists. split; [reflexivity|]. right. reflexivity. }
  destruct (Hp v Hv) as [e1 ->]. rewrite Hf. eauto.
Qed.

(** An undisturbed tick of a running thread that is not at its end. *)
Lemma v4_running_step (c : config) :
  running c -> (2 <= ticks_left c)%nat ->
  running (fst (motor_step c)) /\
  motor (fst (motor_step c)) = motor c /\
  (pulses (snd (motor_step c)) + pending (fst (motor_step c)) = pending c)%nat /\
  S (ticks_left (fst (motor_step c))) = ticks_left c.
Proof.
  destruct c as [[speed acc | l step | l step | l step | | |] m];
    unfold running, pending, ticks_left; cbn [at_pc motor];
    intros (He & Hm & H) Ht; try contradiction; try lia.
  - destruct H as (Hs & Ha & Hi). unfold motor_step. cbn [at_pc motor].
    destruct (Z.ltb_spec step (steps_to_move l)) as [L | L];
      cbn [fst snd at_pc motor pulses].
    + repeat split; auto; lia.
    + repeat split; auto; lia.
  - destruct H as (Hs & Ha & Hi). unfold motor_step. cbn [at_pc motor].
    rewrite He. cbn [fst snd at_pc motor pulses]. repeat split; auto; lia.
  - destruct H as (Hs & Ha & Hi). rewrite V4Facts.v4_pulse_step by lia.
    cbn [fst snd at_pc motor pulses]. repeat split; auto; lia.
Qed.

Lemma v4_running_ticks (j : nat) :
  forall c : config,
    running c -> (j < ticks_left c)%nat ->
    running (fst (run (repeat Tick j) c)) /\
    motor (fst (run (repeat Tick j) c)) = motor c /\
    (pulses (snd (run (repeat Tick j) c)) +
     pending (fst (run (repeat Tick j) c)) = pending c)%nat /\
    (ticks_left (fst (run (repeat Tick j) c)) + j = ticks_left c)%nat.
Proof.
  induction j as [|j IH]; intros c Hc Hj.
  - cbn [repeat run fst snd pulses].
    split; [exact Hc|]. split; [reflexivity|]. split; [reflexivity | lia].
  - cbn [repeat]. rewrite v4_run_tick. cbn [fst snd].
    destruct (v4_running_step c Hc ltac:(lia)) as (H1 & H2 & H3 & H4).
    destruct (IH _ H1 ltac:(lia)) as (I1 & I2 & I3 & I4).
    rewrite pulses_app.
    split; [exact I1|]. split; [congruence|]. split; lia.
Qed.

(** A running thread left alone emits its pending pulses and then sets the
    position to whatever the target is at that moment. *)
Lemma v4_running_ends (j : nat) :
  forall c : config,
    running c -> (ticks_left c <= j)%nat ->
    fst (run (repeat Tick j) c) =
      mkConfig Done
        (mkMotor (target_position (motor c)) (target_position (motor c))
           false false) /\
    pulses (snd (run (repeat Tick j) c)) = pending c.
Proof.
  induction j as [|j IH]; intros c Hc Hj.
  - exfalso. destruct c as [[] m]; unfold running, ticks_left in *;
      cbn [at_pc] in *; try tauto; lia.
  - cbn [repeat]. rewrite v4_run_tick. cbn [fst snd].
    destruct (Nat.le_gt_cases 2 (ticks_left c)) as [L | L].
    + destruct (v4_running_step c Hc L) as (H1 & H2 & H3 & H4).
      destruct (IH _ H1 ltac:(lia)) as (I1 & I2).
      rewrite pulses_app, I1, I2, H2. split; [reflexivity | lia].
    + destruct c as [[speed acc | l step | l step | l step | | |] m];
        unfold running, ticks_left, pending in *; cbn [at_pc motor] in *;
        try tauto; try lia.
      destruct Hc as (He & Hm & _). unfold motor_step. cbn [at_pc motor fst snd].
      rewrite v4_idle_ticks by reflexivity. cbn [fst snd pulses app].
      rewrite He. split; reflexivity.
Qed.

(** A request other than the emergency stop leaves a running thread
    running. *)
Lemma v4_running_handle (r : api_request) (c : config) :
  running c -> r <> ReqEmergency ->
  running (handle r c) /\ at_pc (handle r c) = at_pc c.
Proof.
  intros (He & Hm & H) Hr.
  destruct r; try contradiction; unfold handle, move, move_to, running;
    cbn; rewrite ?He, ?Hm; split_ifs; cbn; rewrite ?He, ?Hm; auto;
    try (cbn in *; discriminate).
Qed.

Lemma v4_same_pc (c c' : config) :
  running c -> at_pc c' = at_pc c ->
  ticks_left c' = ticks_left c /\ pending c' = pending c.
Proof.
  intros (_ & _ & H) E. unfold ticks_left, pending. rewrite E.
  destruct (at_pc c); try contradiction; auto.
Qed.

Lemma v4_one_thread_step (c : config) :
  one_thread c -> one_thread (fst (motor_step c)).
Proof.
  destruct (terminal c) eqn:Ht.
  - rewrite (V4Facts.v4_terminal_stays c Ht). auto.
  - intros H. unfold one_thread in *.
    destruct c as [[] m]; unfold motor_step, terminal in *;
      cbn [at_pc motor] in *; try discriminate;
      split_ifs; cbn; auto.
Qed.

Lemma v4_one_thread_handle (r : api_request) (c : config) :
  one_thread c -> one_thread (handle r c).
Proof.
  intros H. unfold one_thread in *.
  destruct r; unfold handle, move, move_to, terminal in *; cbn;
    split_ifs; cbn; auto; try discriminate; try congruence.
Qed.

End V4System.

(** X18.  Revision 4, [emergency_stop_now]: the stop is permanent.  After
    the request the thread emits at most one more pulse, and whatever
    requests follow (moves, set zero, further stops) the flag stays set and
    no thread is started: nothing in the program clears it. *)
Theorem v4_stop_is_permanent (s : list V4.sys_tick) (c : V4.config) :
  let r := V4.run (V4.Api V4.ReqEmergency :: s) c in
  (pulses (snd r) <= 1)%nat /\
  V4.emergency_stop (V4.motor (fst r)) = true /\
  (V4.terminal c = true ->
   pulses (snd r) = 0%nat /\ V4.at_pc (fst r) = V4.at_pc c).
Proof.
  intros r. subst r. cbn [V4.run V4.handle].
  assert (V4.dead (V4.env_stop c)) as Hd by (left; reflexivity).
  destruct (V4System.v4_dead_run s _ Hd) as (H1 & _ & H3).
  split; [|split].
  - unfold V4.owed in H1. cbn [V4.env_stop V4.at_pc] in H1.
    destruct (V4.at_pc c); lia.
  - now apply V4System.v4_stop_stays.
  - intros Ht. split.
    + unfold V4.owed, V4.terminal in *. cbn [V4.env_stop V4.at_pc] in H1.
      destruct (V4.at_pc c); try discriminate; lia.
    + apply H3. exact Ht.
Qed.

(** X19.  Revision 4, [_move_thread] with acceleration zero: the thread
    raises ZeroDivisionError in the ramp computation before its first pulse
    and never clears [is_moving]; from then on [move_to] only stores the
    target.  Whatever requests follow, the motor never moves again. *)
Theorem v4_zero_acceleration_wedges (s : list V4.sys_tick) (target speed : Z)
  (m : V4.StepperMotor) :
  V4.is_moving m = false -> V4.emergency_stop m = false ->
  target <> V4.current_position m ->
  let r := V4.run (V4.Api (V4.ReqMoveTo target speed 0) :: V4.Tick :: s)
             (V4.mkConfig V4.Done m) in
  V4.at_pc (fst r) = V4.Raised ZeroDivisionError /\ pulses (snd r) = 0%nat.
Proof.
  intros Hm He Hn r. subst r.
  change (V4.run (V4.Api ?q :: ?s0) ?c0) with (V4.run s0 (V4.handle q c0)).
  rewrite (V4System.v4_handle_move_to target speed 0 m Hm He).
  rewrite V4System.v4_run_tick.
  set (m1 := V4.mkMotor (V4.current_position m) target true false).
  assert (V4.motor_step (V4.mkConfig (V4.Thread speed 0) m1) =
          (V4.mkConfig (V4.Raised ZeroDivisionError) m1, [])) as ->.
  { unfold V4.motor_step. cbn [V4.at_pc V4.motor m1 V4.target_position
      V4.current_position].
    destruct (Z.eqb_spec (Z.abs (target - V4.current_position m)) 0); [lia|].
    unfold V4.accel_steps. change (2 * 0) with 0. now rewrite py_truediv_zero. }
  cbn [fst snd app].
  destruct (V4System.v4_dead_run s
              (V4.mkConfig (V4.Raised ZeroDivisionError) m1))
    as (H1 & _ & H3); [right; split; reflexivity|].
  split; [apply H3; reflexivity|]. unfold V4.owed in H1. cbn in H1. lia.
Qed.

Lemma v4_zero_acceleration_wedges_witness :
  pulses
    (snd (V4.run [V4.Api (V4.ReqMoveTo 100 1000 0); V4.Tick;
                  V4.Api (V4.ReqMove 50 "positive" 1000 1000); V4.Tick; V4.Tick;
                  V4.Tick; V4.Tick]
            (V4.mkConfig V4.Done (V4.mkMotor 0 0 false false)))) = 0%nat.
Proof.
  destruct (v4_zero_acceleration_wedges
              [V4.Api (V4.ReqMove 50 "positive" 1000 1000); V4.Tick; V4.Tick;
               V4.Tick; V4.Tick] 100 1000 (V4.mkMotor 0 0 false false)
              eq_refl eq_refl) as [_ H]; [simpl; lia|].
  exact H.
Defined.





Lemma v4_one_thread_run (s : list V4.sys_tick) :
  forall c : V4.config, V4.one_thread c -> V4.one_thread (fst (V4.run s c)).
Proof.
  induction s as [|[|r] s IH]; intros c Hc.
  - exact Hc.
  - rewrite V4System.v4_run_tick. cbn [fst]. apply IH.
    now apply V4System.v4_one_thread_step.
  - cbn [V4.run]. apply IH. now apply V4System.v4_one_thread_handle.
Qed.

(** X22.  Revision 4, the guard [if not self.is_moving] of [move_to]: in
    every state the program reaches from an idle motor, whatever the
    requests and their timing, a request starts a move thread only when no
    move thread is running. *)
Theorem v4_one_thread_at_a_time (s : list V4.sys_tick) (r : V4.api_request)
  (m : V4.StepperMotor) :
  let c := fst (V4.run s (V4.mkConfig V4.Done m)) in
  V4.at_pc (V4.handle r c) = V4.at_pc c \/ V4.terminal c = true.
Proof.
  intros c.
  assert (V4.one_thread c) as H.
  { apply v4_one_thread_run. intros _ _. reflexivity. }
  unfold V4.one_thread in H.
  destruct r; unfold V4.handle, V4.move, V4.move_to; cbn;
    destruct (V4.emergency_stop (V4.motor c)) eqn:He;
    destruct (V4.is_moving (V4.motor c)) eqn:Hm;
    split_ifs; cbn; auto.
Qed.

(** ** Revision 4: [take_burst] *)

Module V4Burst.
Import V4.

(** The motor at rest on [p]. *)
Local Abbreviation at_rest p := (mkConfig Done (mkMotor p p false false)).

Lemma v4_move_runs (j : nat) (target speed acceleration : Z) (m : StepperMotor) :
  is_moving m = false -> emergency_stop m = false ->
  0 < speed -> 0 < acceleration ->
  let c1 := handle (ReqMoveTo target speed acceleration) (mkConfig Done m) in
  fst (run (repeat Tick (ticks_left c1 + j)) c1) = at_rest target.
Proof.
  intros Hm He Hs Ha c1. subst c1.
  rewrite (V4System.v4_handle_move_to target speed acceleration m Hm He).
  set (m1 := mkMotor (current_position m) target true false).
  unfold ticks_left. cbn [at_pc motor m1 target_position current_position].
  set (n := Z.abs (target - current_position m)).
  replace (3 * Z.to_nat n + 3 + j)%nat with (S (3 * Z.to_nat n + 2 + j)) by lia.
  cbn [repeat]. rewrite V4System.v4_run_tick. cbn [fst].
  destruct (Z.eqb_spec n 0) as [E | E].
  - assert (motor_step (mkConfig (Thread speed acceleration) m1) =
            (mkConfig Done (set_moving false m1), [])) as ->.
    { unfold motor_step. cbn [at_pc motor m1 target_position current_position].
      fold n. rewrite E. reflexivity. }
    cbn [fst]. rewrite V4System.v4_idle_ticks by reflexivity. cbn [fst].
    subst m1 n. unfold set_moving. cbn. repeat f_equal. lia.
  - destruct (V4System.v4_accel_steps_ok n speed acceleration ltac:(lia)
                ltac:(lia)) as (a & Hacc & _ & _).
    assert (motor_step (mkConfig (Thread speed acceleration) m1) =
            (mkConfig (For (mkLocals n a speed acceleration) 0) m1, [])) as ->.
    { unfold motor_step. cbn [at_pc motor m1 target_position current_position].
      fold n. destruct (Z.eqb_spec n 0); [contradiction|]. now rewrite Hacc. }
    cbn [fst].
    destruct (V4System.v4_running_ends (3 * Z.to_nat n + 2 + j)
                (mkConfig (For (mkLocals n a speed acceleration) 0) m1))
      as [-> _]; [|unfold ticks_left; cbn; lia|reflexivity].
    unfold running. cbn. repeat split; auto; lia.
Qed.

Lemma v4_ticks_to_rest (k : nat) (target speed acceleration : Z)
  (m : StepperMotor) :
  is_moving m = false -> emergency_stop m = false ->
  0 < speed -> 0 < acceleration ->
  let c1 := handle (ReqMoveTo target speed acceleration) (mkConfig Done m) in
  let c1' := fst (run (repeat Tick k) c1) in
  fst (run (repeat Tick (ticks_left c1')) c1') = at_rest target.
Proof.
  intros Hm He Hs Ha c1 c1'.
  destruct k as [|k].
  - subst c1'. cbn [repeat run fst].
    pose proof (v4_move_runs 0 target speed acceleration m Hm He Hs Ha) as H.
    cbn zeta in H. fold c1 in H. now rewrite Nat.add_0_r in H.
  - assert (forall c, c = at_rest target ->
              fst (run (repeat Tick (ticks_left c)) c) = at_rest target) as Hd.
    { intros c ->. reflexivity. }
    subst c1' c1.
    rewrite (V4System.v4_handle_move_to target speed acceleration m Hm He).
    set (m1 := mkMotor (current_position m) target true false).
    set (n := Z.abs (target - current_position m)).
    cbn [repeat]. rewrite V4System.v4_run_tick. cbn [fst].
    destruct (Z.eqb_spec n 0) as [E | E].
    + assert (motor_step (mkConfig (Thread speed acceleration) m1) =
              (at_rest target, [])) as ->.
      { unfold motor_step. cbn [at_pc motor m1 target_position current_position].
        fold n. rewrite E. subst n. unfold set_moving. cbn.
        repeat f_equal. lia. }
      cbn [fst]. rewrite (V4System.v4_idle_ticks k (at_rest target) eq_refl).
      reflexivity.
    + destruct (V4System.v4_accel_steps_ok n speed acceleration ltac:(lia)
                  ltac:(lia)) as (a & Hacc & _ & _).
      set (cf := mkConfig (For (mkLocals n a speed acceleration) 0) m1).
      assert (motor_step (mkConfig (Thread speed acceleration) m1) = (cf, []))
        as ->.
      { unfold motor_step. cbn [at_pc motor m1 target_position current_position].
        fold n. destruct (Z.eqb_spec n 0); [contradiction|]. now rewrite Hacc. }
      cbn [fst].
      assert (running cf) as Hcf.
      { unfold running. cbn. repeat split; auto; lia. }
      destruct (Nat.lt_ge_cases k (ticks_left cf)) as [L | L].
      * destruct (V4System.v4_running_ticks k cf Hcf L) as (R1 & R2 & _ & _).
        destruct (V4System.v4_running_ends
                    (ticks_left (fst (run (repeat Tick k) cf)))
                    (fst (run (repeat Tick k) cf)) R1 ltac:(lia)) as [-> _].
        rewrite R2. reflexivity.
      * destruct (V4System.v4_running_ends k cf Hcf L) as [-> _].
        reflexivity.
Qed.

(** Waiting for a move that nobody disturbs ends with the motor at rest on
    the target. *)
Lemma v4_wait_proceeds (s : list sys_tick) (seen : bool)
  (target speed acceleration : Z) (m : StepperMotor) :
  ticks_only s -> is_moving m = false -> emergency_stop m = false ->
  0 < speed -> 0 < acceleration ->
  wait s seen (handle (ReqMoveTo target speed acceleration) (mkConfig Done m)) =
  Proceed (at_rest target).
Proof.
  intros Hq Hm He Hs Ha. unfold wait, ticks_only in *.
  remember (List.length s) as k eqn:Hk. rewrite Hq. clear Hq Hk.
  rewrite (v4_ticks_to_rest k target speed acceleration m Hm He Hs Ha).
  reflexivity.
Qed.

(** The images of an undisturbed burst loop. *)
Lemma v4_burst_images_run (env : burst_env) (burst_dir : string)
  (speed acceleration : Z) (ps : list Z) :
  0 < speed -> 0 < acceleration ->
  (forall k, ticks_only (move_sched env k)) ->
  (forall i, capture_request env i = Ok tt) ->
  forall (i : nat) (p : Z) (fs : gset string) (cap stk : list string),
    burst_images env burst_dir speed acceleration i ps
      (mkWorld (at_rest p) fs cap stk) =
    Some (mkWorld (at_rest (last ps p)) fs
            (cap ++ map (image_name burst_dir) ps) stk, Ok true).
Proof.
  intros Hs Ha Hq Hc. induction ps as [|pos ps IH]; intros i p fs cap stk.
  - cbn. now rewrite app_nil_r.
  - cbn [burst_images w_config motor emergency_stop].
    rewrite v4_wait_proceeds by auto. rewrite Hc.
    cbn [w_fs captured stacked]. rewrite IH, last_cons.
    cbn [map]. rewrite <- app_assoc. reflexivity.
Qed.

End V4Burst.



(** X24.  Revision 4, [take_burst] with acceleration zero: the first move
    thread raises before clearing [is_moving], so the loop that
    waits for the move, [while z_stepper.is_moving], never ends unless
    somebody requests an emergency stop.  With no such request the burst
    never returns and takes no image. *)
Theorem v4_burst_waits_forever (env : V4.burst_env)
  (start_pos end_pos num_images speed : Z) (w : V4.world) (m : V4.StepperMotor) :
  V4.w_config w = V4.mkConfig V4.Done m ->
  V4.is_moving m = false -> V4.emergency_stop m = false ->
  start_pos <> V4.current_position m ->
  V4.ticks_only (V4.move_sched env 0) ->
  V4.take_burst env start_pos end_pos num_images speed 0 w = None /\
  forall k : nat,
    let c := fst (V4.run (repeat V4.Tick (S k))
                    (V4.handle (V4.ReqMoveTo start_pos speed 0) (V4.w_config w)))
    in V4.is_moving (V4.motor c) = true /\
       V4.emergency_stop (V4.motor c) = false.
Proof.
  intros Hw Hm He Hn Hq.
  set (m1 := V4.mkMotor (V4.current_position m) start_pos true false).
  assert (forall k,
            fst (V4.run (repeat V4.Tick (S k))
                   (V4.mkConfig (V4.Thread speed 0) m1)) =
            V4.mkConfig (V4.Raised ZeroDivisionError) m1) as Hrun.
  { intros k. cbn [repeat]. rewrite V4System.v4_run_tick.
    assert (V4.motor_step (V4.mkConfig (V4.Thread speed 0) m1) =
            (V4.mkConfig (V4.Raised ZeroDivisionError) m1, [])) as ->.
    { unfold V4.motor_step. cbn [V4.at_pc V4.motor m1 V4.target_position
        V4.current_position].
      destruct (Z.eqb_spec (Z.abs (start_pos - V4.current_position m)) 0);
        [lia|].
      unfold V4.accel_steps. change (2 * 0) with 0.
      now rewrite py_truediv_zero. }
    cbn [fst]. now rewrite V4System.v4_idle_ticks by reflexivity. }
  rewrite Hw, (V4System.v4_handle_move_to start_pos speed 0 m Hm He). fold m1.
  split.
  - destruct (allocate_dir_lowest (V4.w_fs w) 1) as (k & Hk & _).
    unfold V4.take_burst. rewrite Hk, Hw.
    rewrite (V4System.v4_handle_move_to start_pos speed 0 m Hm He). fold m1.
    assert (V4.wait (V4.move_sched env 0) (V4.stop_seen_waiting env 0)
              (V4.mkConfig (V4.Thread speed 0) m1) = V4.Forever) as ->;
      [|reflexivity].
    unfold V4.wait, V4.ticks_only in *.
    remember (List.length (V4.move_sched env 0)) as k0 eqn:Hk0.
    rewrite Hq. clear Hq Hk0. destruct k0 as [|j].
    + cbn [repeat V4.run fst].
      replace (V4.ticks_left (V4.mkConfig (V4.Thread speed 0) m1))
        with (S (V4.ticks_left (V4.mkConfig (V4.Thread speed 0) m1) - 1))
        by (unfold V4.ticks_left; cbn; lia).
      rewrite Hrun. reflexivity.
    + rewrite Hrun. cbn [V4.ticks_left V4.at_pc repeat V4.run fst].
      reflexivity.
  - intros k c. subst c. rewrite Hrun. split; reflexivity.
Qed.

Lemma v4_burst_waits_forever_witness :
  V4.take_burst (V4.mkEnv (fun _ => repeat V4.Tick 5) (fun _ => false)
                   (fun _ => Ok tt)) 100 1000 10 1000 0
    (V4.mkWorld (V4.mkConfig V4.Done (V4.mkMotor 0 0 false false)) ∅ [] []) =
  None.
Proof.
  destruct (v4_burst_waits_forever
              (V4.mkEnv (fun _ => repeat V4.Tick 5) (fun _ => false)
                 (fun _ => Ok tt)) 100 1000 10 1000
              (V4.mkWorld (V4.mkConfig V4.Done (V4.mkMotor 0 0 false false))
                 ∅ [] [])
              (V4.mkMotor 0 0 false false) eq_refl eq_refl eq_refl)
    as [H _]; [simpl; lia | reflexivity |].
  exact H.
Defined.



(** ** Revision 4: an emergency stop during a burst *)

Lemma v4_stop_requested (s : list V4.sys_tick) :
  forall c : V4.config,
    In (V4.Api V4.ReqEmergency) s ->
    V4.emergency_stop (V4.motor (fst (V4.run s c))) = true.
Proof.
  induction s as [|t s IH]; intros c Hin; [destruct Hin|].
  destruct Hin as [E | Hin].
  - subst t. cbn [V4.run]. now apply V4System.v4_stop_stays.
  - destruct t as [|r].
    + rewrite V4System.v4_run_tick. cbn [fst]. now apply IH.
    + cbn [V4.run]. now apply IH.
Qed.

Lemma v4_wait_after_stop (s : list V4.sys_tick) (seen : bool) (c : V4.config) :
  In (V4.Api V4.ReqEmergency) s ->
  (exists c2, V4.wait s seen c = V4.GaveUp c2) \/
  (exists c2, V4.wait s seen c = V4.Proceed c2 /\
              V4.emergency_stop (V4.motor c2) = true).
Proof.
  intros Hin. unfold V4.wait.
  set (c1 := fst (V4.run s c)).
  assert (V4.emergency_stop (V4.motor c1) = true) as H1
    by (now apply v4_stop_requested).
  set (c2 := fst (V4.run (repeat V4.Tick (V4.ticks_left c1)) c1)).
  assert (V4.emergency_stop (V4.motor c2) = true) as H2
    by (now apply V4System.v4_stop_stays).
  rewrite H2. destruct (V4.is_moving (V4.motor c2)); [left; eauto|].
  destruct seen; cbn [andb]; [left | right]; eauto.
Qed.

(** X26.  Revision 4, an emergency stop during a burst: when the stop is
    requested while the burst waits for the move to image [i0], the burst
    makes no further move and takes at most the one image it was waiting
    for; it never takes more than [i0 + 1] images. *)
Theorem v4_stop_ends_burst (env : V4.burst_env) (burst_dir : string)
  (speed acceleration : Z) (i0 : nat) (ps : list Z) (w w' : V4.world)
  (r : result bool) :
  In (V4.Api V4.ReqEmergency) (V4.move_sched env (S i0)) ->
  V4.burst_images env burst_dir speed acceleration 0 ps w = Some (w', r) ->
  (List.length (V4.captured w') <= List.length (V4.captured w) + i0 + 1)%nat.
Proof.
  intros Hin.
  assert (forall ps i w w' r,
            (i <= i0)%nat ->
            V4.burst_images env burst_dir speed acceleration i ps w =
              Some (w', r) ->
            (List.length (V4.captured w') <=
             List.length (V4.captured w) + (i0 - i) + 1)%nat) as H.
  { clear ps w w' r. induction ps as [|pos ps IH]; intros i w w' r Hi E.
    - cbn in E. injection E as <- <-. lia.
    - cbn [V4.burst_images] in E.
      destruct (V4.emergency_stop (V4.motor (V4.w_config w)));
        [injection E as <- <-; lia|].
      destruct (Nat.eq_dec i i0) as [-> | Hne].
      + destruct (v4_wait_after_stop (V4.move_sched env (S i0))
                    (V4.stop_seen_waiting env (S i0))
                    (V4.handle (V4.ReqMoveTo pos speed acceleration)
                       (V4.w_config w)) Hin)
          as [[c2 Hw] | (c2 & Hw & He)]; rewrite Hw in E.
        * injection E as <- <-. cbn. lia.
        * destruct (V4.capture_request env i0);
            [|injection E as <- <-; cbn; lia].
          destruct ps as [|pos' ps]; cbn [V4.burst_images] in E.
          -- injection E as <- <-. cbn. rewrite length_app. cbn. lia.
          -- cbn [V4.w_config] in E. rewrite He in E.
             injection E as <- <-. cbn. rewrite length_app. cbn. lia.
      + destruct (V4.wait _ _ _) as [c2 | c2 |]; [| |discriminate].
        * destruct (V4.capture_request env i);
            [|injection E as <- <-; cbn; lia].
          apply IH in E; [|lia]. cbn [V4.captured] in E.
          rewrite length_app in E. cbn in E. lia.
        * injection E as <- <-. cbn. lia. }
  intros E. apply H in E; lia.
Qed.

Lemma v4_stop_ends_burst_witness :
  exists (w' : V4.world) (r : result bool),
    V4.burst_images
      (V4.mkEnv (fun k => if Nat.eqb k 3 then [V4.Tick; V4.Api V4.ReqEmergency]
                          else [])
         (fun _ => false) (fun _ => Ok tt))
      "burst_001" 1000 1000 0 [0; 250; 500; 750; 1000]
      (V4.mkWorld (V4.mkConfig V4.Done (V4.mkMotor 0 0 false false)) ∅ [] []) =
      Some (w', r) /\
    (List.length (V4.captured w') <= 0 + 2 + 1)%nat.
Proof.
  destruct (V4.burst_images _ _ _ _ _ _ _) as [[w' r]|] eqn:E.
  - exists w', r. split; [reflexivity|].
    refine (v4_stop_ends_burst _ _ _ _ 2 _ _ _ _ _ E). cbn. auto.
  - exfalso. vm_compute in E. discriminate E.
Defined.

(** ** The SLEEP pin of the driver *)

Lemma v2_wired_tick (s : list tick) (c : V2.config) (p : pins) :
  final V2.wired_step V2.wired_stop (Motor :: s) (c, p) =
  final V2.wired_step V2.wired_stop s
    (fst (V2.motor_step c), V2.gpio_step c p).
Proof. now rewrite final_motor. Qed.

Lemma v2_wired_config (s : list tick) :
  forall cp : V2.config * pins,
    fst (final V2.wired_step V2.wired_stop s cp) =
    final V2.motor_step V2.emergency_stop s (fst cp).
Proof.
  induction s as [|[] s IH]; intros [c p].
  - reflexivity.
  - rewrite v2_wired_tick, final_motor. apply IH.
  - rewrite !final_stop. apply IH.
Qed.

Lemma v2_asleep_run (s : list tick) :
  forall cp : V2.config * pins,
    V2.asleep_outside cp ->
    V2.asleep_outside (final V2.wired_step V2.wired_stop s cp).
Proof.
  induction s as [|[] s IH]; intros [c p] H.
  - exact H.
  - rewrite v2_wired_tick. apply IH.
    destruct c as [[] st m];
      unfold V2.asleep_outside, V2.motor_step, V2.gpio_step in *;
      cbn [fst snd V2.at_pc V2.status V2.motor] in *;
      split_ifs; cbn; auto.
  - rewrite final_stop. apply IH.
    destruct c as [[] st m]; unfold V2.asleep_outside in *; cbn in *; auto.
Qed.

(** X27.  Revision 2, [wake] and [sleep] around the loop of [_move_steps]:
    the driver is woken only after the delay was computed and put to sleep
    in the [finally] block.  So whenever a move request ends, by return or by
    exception and under every interleaving with stop requests, the SLEEP pin
    is LOW again. *)
Theorem v2_driver_asleep_after_call (s : list tick) (c : V2.config) (p : pins) :
  V2.asleep_outside (c, p) ->
  let cp := final V2.wired_step V2.wired_stop
              (s ++ repeat Motor (V2.ticks_left c)) (c, p) in
  V2.terminal (fst cp) = true /\ sleep_pin (snd cp) = false.
Proof.
  intros H cp.
  assert (V2.terminal (fst cp) = true) as Ht.
  { subst cp. rewrite v2_wired_config. apply V2Facts.v2_call_terminal. }
  split; [exact Ht|].
  pose proof (v2_asleep_run (s ++ repeat Motor (V2.ticks_left c)) (c, p) H) as Ha.
  fold cp in Ha. unfold V2.asleep_outside, V2.terminal in *.
  destruct (V2.at_pc (fst cp)); try discriminate; exact Ha.
Qed.

Lemma v2_driver_asleep_after_call_witness :
  sleep_pin
    (snd (final V2.wired_step V2.wired_stop
            ([Motor; Motor; Motor; Motor; Stop] ++
             repeat Motor
               (V2.ticks_left
                  (V2.mkConfig (V2.MoveTo 10 1000) (V2.mkStatus 0 0 V2.IDLE 0)
                     (V2.mkMotor 0 false))))
            (V2.mkConfig (V2.MoveTo 10 1000) (V2.mkStatus 0 0 V2.IDLE 0)
               (V2.mkMotor 0 false), mkPins false false))) = false.
Proof.
  apply (v2_driver_asleep_after_call [Motor; Motor; Motor; Motor; Stop]
           (V2.mkConfig (V2.MoveTo 10 1000) (V2.mkStatus 0 0 V2.IDLE 0)
              (V2.mkMotor 0 false)) (mkPins false false)).
  reflexivity.
Defined.

Lemma v3_wired_tick (s : list tick) (c : V3.config) (p : pins) :
  final V3.wired_step V3.wired_stop (Motor :: s) (c, p) =
  final V3.wired_step V3.wired_stop s
    (fst (V3.motor_step c), V3.gpio_step c p).
Proof. now rewrite final_motor. Qed.

Lemma v3_wired_config (s : list tick) :
  forall cp : V3.config * pins,
    fst (final V3.wired_step V3.wired_stop s cp) =
    final V3.motor_step V3.emergency_stop s (fst cp).
Proof.
  induction s as [|[] s IH]; intros [c p].
  - reflexivity.
  - rewrite v3_wired_tick, final_motor. apply IH.
  - rewrite !final_stop. apply IH.
Qed.

Lemma v3_wired_idle (k : nat) (c : V3.config) (p : pins) :
  V3.terminal c = true ->
  final V3.wired_step V3.wired_stop (repeat Motor k) (c, p) = (c, p).
Proof.
  intros Ht. induction k as [|k IH]; [reflexivity|].
  cbn [repeat]. rewrite v3_wired_tick, (V3Facts.v3_terminal_stays c Ht).
  cbn [fst]. unfold V3.gpio_step, V3.terminal in *.
  destruct (V3.at_pc c); try discriminate; exact IH.
Qed.

Lemma v3_asleep_run (s : list tick) :
  forall cp : V3.config * pins,
    V3.asleep_outside cp ->
    V3.asleep_outside (final V3.wired_step V3.wired_stop s cp).
Proof.
  induction s as [|[] s IH]; intros [c p] H.
  - exact H.
  - rewrite v3_wired_tick. apply IH.
    destruct c as [[] m];
      unfold V3.asleep_outside, V3.motor_step, V3.gpio_step in *;
      cbn [fst snd V3.at_pc V3.mc] in *;
      split_ifs; cbn; auto.
  - rewrite final_stop. apply IH.
    destruct c as [[] m]; unfold V3.asleep_outside in *; cbn in *; auto.
Qed.

(** X28.  Revision 3, [wake_up] and [sleep] around the loop of
    [move_steps]: whenever a move returns, under every interleaving with
    stop requests, the SLEEP pin is LOW again. *)
Theorem v3_driver_asleep_on_return (s : list tick) (c : V3.config) (p : pins) :
  V3.asleep_outside (c, p) ->
  let cp := final V3.wired_step V3.wired_stop
              (s ++ repeat Motor (V3.ticks_left c)) (c, p) in
  V3.terminal (fst cp) = true /\
  (V3.at_pc (fst cp) = V3.Done -> sleep_pin (snd cp) = false).
Proof.
  intros H cp.
  assert (V3.terminal (fst cp) = true) as Ht.
  { subst cp. rewrite v3_wired_config. apply V3Facts.v3_call_terminal. }
  split; [exact Ht|].
  pose proof (v3_asleep_run (s ++ repeat Motor (V3.ticks_left c)) (c, p) H) as Ha.
  fold cp in Ha. unfold V3.asleep_outside in Ha. intros E.
  now rewrite E in Ha.
Qed.

Lemma v3_driver_asleep_on_return_witness :
  V3.at_pc
    (fst (final V3.wired_step V3.wired_stop
            ([Motor; Motor; Motor; Motor; Stop] ++
             repeat Motor
               (V3.ticks_left
                  (V3.mkConfig (V3.MoveToPosition 10 1000 1000 false)
                     (V3.mkMotor 0 0 false false 0))))
            (V3.mkConfig (V3.MoveToPosition 10 1000 1000 false)
               (V3.mkMotor 0 0 false false 0), mkPins false false))) =
  V3.Done /\
  sleep_pin
    (snd (final V3.wired_step V3.wired_stop
            ([Motor; Motor; Motor; Motor; Stop] ++
             repeat Motor
               (V3.ticks_left
                  (V3.mkConfig (V3.MoveToPosition 10 1000 1000 false)
                     (V3.mkMotor 0 0 false false 0))))
            (V3.mkConfig (V3.MoveToPosition 10 1000 1000 false)
               (V3.mkMotor 0 0 false false 0), mkPins false false))) = false.
Proof.
  split; [vm_compute; reflexivity|].
  apply (v3_driver_asleep_on_return [Motor; Motor; Motor; Motor; Stop]
           (V3.mkConfig (V3.MoveToPosition 10 1000 1000 false)
              (V3.mkMotor 0 0 false false 0)) (mkPins false false));
    vm_compute; reflexivity.
Defined.

Lemma v3_awake_run (k : nat) :
  forall cp : V3.config * pins,
    V3.awake_inside cp ->
    V3.awake_inside (final V3.wired_step V3.wired_stop (repeat Motor k) cp).
Proof.
  induction k as [|k IH]; intros [c p] H.
  - exact H.
  - cbn [repeat]. rewrite v3_wired_tick. apply IH.
    destruct c as [[] m];
      unfold V3.awake_inside, V3.motor_step, V3.gpio_step in *;
      cbn [fst snd V3.at_pc V3.mc] in *;
      split_ifs; cbn; auto.
Qed.

(** X29.  Revision 3, [move_steps]: [sleep()] is called only in the last
    block of the function, with no [try]/[finally] around the loop.  So an
    uninterrupted move that ends in an exception, as every jog through
    [/move_motor] does after its first step, leaves the SLEEP pin HIGH: the
    driver stays energised. *)
Theorem v3_failed_move_leaves_driver_awake (s : list tick) (c : V3.config)
  (p : pins) (e : exn) :
  stop_free s = true -> V3.awake_inside (c, p) ->
  let cp := final V3.wired_step V3.wired_stop
              (s ++ repeat Motor (V3.ticks_left c)) (c, p) in
  V3.at_pc (fst cp) = V3.Raised e -> sleep_pin (snd cp) = true.
Proof.
  intros Hs H cp E.
  pose proof (v3_awake_run (List.length s + V3.ticks_left c) (c, p) H) as Ha.
  rewrite repeat_add, <- (stop_free_repeat s Hs) in Ha. fold cp in Ha.
  unfold V3.awake_inside in Ha. now rewrite E in Ha.
Qed.

Lemma v3_failed_move_leaves_driver_awake_witness :
  V3.at_pc
    (fst (final V3.wired_step V3.wired_stop
            ([] ++ repeat Motor
                     (V3.ticks_left
                        (V3.post_move_motor 5 1000 1000
                           (V3.mkMotor 0 0 false false 0))))
            (V3.post_move_motor 5 1000 1000 (V3.mkMotor 0 0 false false 0),
             mkPins false false))) = V3.Raised TypeError /\
  sleep_pin
    (snd (final V3.wired_step V3.wired_stop
            ([] ++ repeat Motor
                     (V3.ticks_left
                        (V3.post_move_motor 5 1000 1000
                           (V3.mkMotor 0 0 false false 0))))
            (V3.post_move_motor 5 1000 1000 (V3.mkMotor 0 0 false false 0),
             mkPins false false))) = true.
Proof.
  split; [vm_compute; reflexivity|].
  apply (v3_failed_move_leaves_driver_awake []
           (V3.post_move_motor 5 1000 1000 (V3.mkMotor 0 0 false false 0))
           (mkPins false false) TypeError); vm_compute; reflexivity.
Defined.
